(** * Notion sync: a shallow embedding of [sync-to-notion.js]

    The script mirrors the markdown feature files of a project into two
    Notion databases.  This development embeds its functions in Rocq
    and settles the properties stated about them.

    Conventions of the embedding:
    - a JavaScript string is the list of its UTF-16 code units ([list N]);
    - a JavaScript object used as a table is a [gmap] keyed by strings,
      an object whose key order matters is an association list;
    - [null]/[undefined] fields are [option]s;
    - the Notion client, and the pieces of the Node runtime whose result
      is not fixed by the script (path separator, MD5, collation), are
      interfaces (type classes);
    - asynchronous code that talks to Notion is written in a state and
      exception monad that also records every call issued. *)

From Stdlib Require Import NArith ZArith String Ascii Lia.
From stdpp Require Import base tactics option list gmap fin_maps sorting.

Set Default Proof Using "Type".
Open Scope N_scope.
Open Scope list_scope.

(* ===================================================================== *)
(** * Strings *)
(* ===================================================================== *)

(** A string is the sequence of its code units. *)
Abbreviation str := (list N).

(** Literals are written as Rocq strings and read with [u]. *)
Fixpoint u (s : string) : str :=
  match s with
  | EmptyString => []
  | String a s' => N_of_ascii a :: u s'
  end.

Definition str_eqb (a b : str) : bool := bool_decide (a = b).

(** Truthiness of a string: every string but the empty one. *)
Definition truthy (s : str) : bool :=
  match s with [] => false | _ => true end.

(** Truthiness of a string-or-null value. *)
Definition truthy_opt (o : option str) : bool :=
  match o with Some s => truthy s | None => false end.

(** ECMAScript [WhiteSpace] and [LineTerminator] code units: what [\s]
    matches and what [String.prototype.trim] strips. *)
Definition is_line_terminator (c : N) : bool :=
  (c =? 10) || (c =? 13) || (c =? 0x2028) || (c =? 0x2029).

Definition is_space (c : N) : bool :=
  (c =? 9) || (c =? 11) || (c =? 12) || (c =? 32) || (c =? 0xA0)
  || (c =? 0x1680) || ((0x2000 <=? c) && (c <=? 0x200A))
  || (c =? 0x202F) || (c =? 0x205F) || (c =? 0x3000) || (c =? 0xFEFF)
  || is_line_terminator c.

Definition is_digit (c : N) : bool := (48 <=? c) && (c <=? 57).

Definition is_word (c : N) : bool :=
  ((97 <=? c) && (c <=? 122)) || ((65 <=? c) && (c <=? 90))
  || is_digit c || (c =? 95).

(** [.] without the [s] flag. *)
Definition is_dot (c : N) : bool := negb (is_line_terminator c).

Definition is_any (c : N) : bool := true.

Definition is_chr (x : N) (c : N) : bool := c =? x.

Fixpoint drop_while (p : N → bool) (s : str) : str :=
  match s with
  | c :: s' => if p c then drop_while p s' else s
  | [] => []
  end.

(** [String.prototype.trim]. *)
Definition trim (s : str) : str :=
  rev (drop_while is_space (rev (drop_while is_space s))).

(** ASCII case mapping, the only one the patterns of the script can
    observe: their literals and classes are ASCII, and without the [u]
    flag a code unit of 128 or more never folds onto an ASCII one. *)
Definition to_upper (c : N) : N :=
  if (97 <=? c) && (c <=? 122) then c - 32 else c.

Definition to_lower (c : N) : N :=
  if (65 <=? c) && (c <=? 90) then c + 32 else c.

(** [s.split(c)] for a one-character separator: the separator-free
    pieces, always at least one. *)
Fixpoint split_on (c : N) (s : str) : list str :=
  match s with
  | [] => [[]]
  | x :: s' =>
      if x =? c then [] :: split_on c s'
      else match split_on c s' with
           | p :: ps => (x :: p) :: ps
           | [] => [[x]]
           end
  end.

(** [parts.join(c)]. *)
Fixpoint join_on (c : N) (parts : list str) : str :=
  match parts with
  | [] => []
  | [p] => p
  | p :: ps => p ++ c :: join_on c ps
  end.

(** [xs.includes(x)] on an array of strings. *)
Definition includes (xs : list str) (x : str) : bool :=
  existsb (str_eqb x) xs.

(** [s.startsWith(p)] and [s.endsWith(p)]. *)
Fixpoint startsWith (s p : str) {struct p} : bool :=
  match p, s with
  | [], _ => true
  | x :: p', y :: s' => (x =? y) && startsWith s' p'
  | _ :: _, [] => false
  end.

Definition endsWith (s p : str) : bool := startsWith (rev s) (rev p).

(* ===================================================================== *)
(** * Regular expressions

    The fragment of ECMAScript patterns the script uses, with the
    backtracking semantics of the language standard: a matcher takes a
    continuation and returns the first success in priority order. *)
(* ===================================================================== *)

Inductive regex : Type :=
  | Eps                            (* the empty pattern *)
  | Chr (c : N)                    (* a literal character *)
  | Cls (p : N → bool)             (* a character class, [.] included *)
  | Seq (r1 r2 : regex)
  | Alt (r1 r2 : regex)            (* r1|r2 *)
  | Opt (r : regex)                (* (?:r)? *)
  | Star (p : N → bool)            (* c*, greedy, c a class *)
  | Plus (p : N → bool)            (* c+, greedy *)
  | LazyStar (p : N → bool)        (* c*? *)
  | Grp (n : nat) (r : regex)      (* the n-th capturing group *)
  | Look (r : regex)               (* (?=r) *)
  | NLook (r : regex)              (* (?!r) *)
  | Bol                            (* ^ *)
  | Eol.                           (* $ *)

(** The literal text [s]. *)
Fixpoint Lit (s : str) : regex :=
  match s with
  | [] => Eps
  | c :: s' => Seq (Chr c) (Lit s')
  end.

Record flags := { ignoreCase : bool; multiline : bool }.

(** Matcher state: the input before the current position (reversed) and
    after it. *)
Definition mstate : Type := str * str.

(** Captures, most recent first. *)
Definition caps : Type := list (nat * str).

Definition mresult : Type := mstate * caps.

Definition cont : Type := mstate → caps → option mresult.

Definition group (n : nat) (cs : caps) : option str :=
  snd <$> find (λ e, bool_decide (fst e = n)) cs.

Section Matcher.
Variable fl : flags.

Definition chr_matches (c x : N) : bool :=
  if ignoreCase fl then to_upper x =? to_upper c else x =? c.

Definition cls_matches (p : N → bool) (x : N) : bool :=
  if ignoreCase fl then p x || p (to_upper x) || p (to_lower x) else p x.

Fixpoint star (p : N → bool) (k : cont) (pre rest : str) (cs : caps)
  : option mresult :=
  match rest with
  | x :: rest' =>
      if cls_matches p x then
        match star p k (x :: pre) rest' cs with
        | Some res => Some res
        | None => k (pre, rest) cs
        end
      else k (pre, rest) cs
  | [] => k (pre, rest) cs
  end.

Fixpoint lazy_star (p : N → bool) (k : cont) (pre rest : str) (cs : caps)
  : option mresult :=
  match k (pre, rest) cs with
  | Some res => Some res
  | None =>
      match rest with
      | x :: rest' =>
          if cls_matches p x then lazy_star p k (x :: pre) rest' cs else None
      | [] => None
      end
  end.

Definition at_bol (st : mstate) : bool :=
  match fst st with
  | [] => true
  | x :: _ => multiline fl && is_line_terminator x
  end.

Definition at_eol (st : mstate) : bool :=
  match snd st with
  | [] => true
  | x :: _ => multiline fl && is_line_terminator x
  end.

Definition finish : cont := λ st cs, Some (st, cs).

Fixpoint rmatch (r : regex) (k : cont) (st : mstate) (cs : caps)
  : option mresult :=
  match r with
  | Eps => k st cs
  | Chr c =>
      match snd st with
      | x :: rest' =>
          if chr_matches c x then k (x :: fst st, rest') cs else None
      | [] => None
      end
  | Cls p =>
      match snd st with
      | x :: rest' =>
          if cls_matches p x then k (x :: fst st, rest') cs else None
      | [] => None
      end
  | Seq r1 r2 => rmatch r1 (λ st' cs', rmatch r2 k st' cs') st cs
  | Alt r1 r2 =>
      match rmatch r1 k st cs with
      | Some res => Some res
      | None => rmatch r2 k st cs
      end
  | Opt r1 =>
      match rmatch r1 k st cs with
      | Some res => Some res
      | None => k st cs
      end
  | Star p => star p k (fst st) (snd st) cs
  | Plus p =>
      match snd st with
      | x :: rest' =>
          if cls_matches p x then star p k (x :: fst st) rest' cs else None
      | [] => None
      end
  | LazyStar p => lazy_star p k (fst st) (snd st) cs
  | Grp n r1 =>
      rmatch r1
        (λ st' cs',
           k st' ((n, rev (take (length (fst st') - length (fst st))
                             (fst st'))) :: cs'))
        st cs
  | Look r1 =>
      match rmatch r1 finish st cs with
      | Some (_, cs') => k st cs'
      | None => None
      end
  | NLook r1 =>
      match rmatch r1 finish st cs with
      | Some _ => None
      | None => k st cs
      end
  | Bol => if at_bol st then k st cs else None
  | Eol => if at_eol st then k st cs else None
  end.

(** The leftmost match: try every start position in turn. *)
Fixpoint search (r : regex) (pre rest : str) : option mresult :=
  match rmatch r finish (pre, rest) [] with
  | Some res => Some res
  | None =>
      match rest with
      | x :: rest' => search r (x :: pre) rest'
      | [] => None
      end
  end.
End Matcher.

(** [s.match(re)] for a pattern without the [g] flag: the captures of
    the leftmost match, or [None] for [null]. *)
Definition str_match (fl : flags) (r : regex) (s : str) : option caps :=
  snd <$> search fl r [] s.

Definition no_flags : flags := {| ignoreCase := false; multiline := false |}.
Definition flag_i : flags := {| ignoreCase := true; multiline := false |}.
Definition flag_m : flags := {| ignoreCase := false; multiline := true |}.

(* ===================================================================== *)
(** * The runtime pieces the script leaves open *)
(* ===================================================================== *)

(** [path.sep], the first eight hexadecimal digits being taken from
    [crypto.createHash('md5').update(s).digest('hex')], and
    [String.prototype.localeCompare]. *)
Class Platform := {
  path_sep : N;
  md5_hex : str → str;
  localeCompare : str → str → Z
}.

(* ===================================================================== *)
(** * Configuration *)
(* ===================================================================== *)

Module CONFIG.
Definition mappingFile : str := u ".notion-sync.json".
Definition roadmapDir : str := u "roadmap".
Definition readmeFile : str := u "README.md".

(** Folder-to-status mapping, in the order the object literal lists
    its keys (none of them is an array index, so this is the order
    [Object.keys] yields). *)
Definition statusFolders : list (str * str) :=
  [ (u "backlog", u "Backlog");
    (u "planned", u "Planned");
    (u "in-progress", u "In Progress");
    (u "completed", u "Completed") ].

(** Status order for sorting. *)
Definition statusOrder : list str :=
  [ u "In Progress"; u "Planned"; u "Backlog"; u "Completed" ].
End CONFIG.

(* ===================================================================== *)
(** * Features *)
(* ===================================================================== *)

Record Subtask := {
  st_text : str;
  st_completed : bool;
  st_phase : option str
}.

Record Feature := {
  title : option str;
  priority : option str;
  complexity : option str;
  estimatedSessions : option str;
  description : option str;
  subtasks : list Subtask;
  status : str;
  filePath : str;
  hash : str
}.

(** [generateHash]. *)
Definition generateHash `{Platform} (content : str) : str :=
  take 8 (md5_hex content).

(** ** The patterns of the parser

    Each pattern of the script is quoted above its abstract syntax, with
    blanks between its tokens and its literal text in square brackets. *)

(** "^ ### \s+ (.+) $" *)
Definition phase_re : regex :=
  Seq Bol
    (Seq (Lit (u "###")) (Seq (Plus is_space) (Seq (Grp 1 (Plus is_dot)) Eol))).

(** The class "[x ]". *)
Definition is_x_or_blank (c : N) : bool := (c =? 120) || (c =? 32).

(** "^ \s* (?: \d+ \. \s* )? \[ ([x ]) \] \s+ (.+) $", flag i *)
Definition checkbox_re : regex :=
  Seq Bol
    (Seq (Star is_space)
       (Seq (Opt (Seq (Plus is_digit) (Seq (Chr 46) (Star is_space))))
          (Seq (Chr 91)
             (Seq (Grp 1 (Cls is_x_or_blank))
                (Seq (Chr 93)
                   (Seq (Plus is_space) (Seq (Grp 2 (Plus is_dot)) Eol))))))).

(** "^ \s* (\d+) \. \s+ (?! \[ ) (.+) $" *)
Definition numbered_re : regex :=
  Seq Bol
    (Seq (Star is_space)
       (Seq (Grp 1 (Plus is_digit))
          (Seq (Chr 46)
             (Seq (Plus is_space)
                (Seq (NLook (Chr 91)) (Seq (Grp 2 (Plus is_dot)) Eol)))))).

(** "^ #+ [ Feature:] \s* (.+) $", flag m *)
Definition feature_re : regex :=
  Seq Bol
    (Seq (Plus (is_chr 35))
       (Seq (Lit (u " Feature:"))
          (Seq (Star is_space) (Seq (Grp 1 (Plus is_dot)) Eol)))).

(** "[**Priority:**] \s* (\w+)", flag i *)
Definition priority_re : regex :=
  Seq (Lit (u "**Priority:**")) (Seq (Star is_space) (Grp 1 (Plus is_word))).

(** "[**Complexity:**] \s* (\w+)", flag i *)
Definition complexity_re : regex :=
  Seq (Lit (u "**Complexity:**")) (Seq (Star is_space) (Grp 1 (Plus is_word))).

(** "[**Estimated Sessions:**] \s* (.+)", flag i *)
Definition sessions_re : regex :=
  Seq (Lit (u "**Estimated Sessions:**"))
    (Seq (Star is_space) (Grp 1 (Plus is_dot))).

(** "[## NAME] \s* \n ([\s\S]*?) (?= [\n## ] | [\n# ] | $ )" for the section
    NAME. *)
Definition section_re (name : str) : regex :=
  Seq (Lit (u "## " ++ name))
    (Seq (Star is_space)
       (Seq (Chr 10)
          (Seq (Grp 1 (LazyStar is_any))
             (Look (Alt (Lit (10 :: u "## "))
                      (Alt (Lit (10 :: u "# ")) Eol)))))).

Definition description_re : regex := section_re (u "Description").
Definition subtasks_re : regex := section_re (u "Subtasks").

(** ** parseSubtasks *)

(** One turn of the loop over the lines: the phase carried along and
    the subtask pushed, if any. *)
Definition parseSubtasks_line (currentPhase : option str) (line : str)
  : option str * list Subtask :=
  match str_match no_flags phase_re line with
  | Some phaseMatch =>
      (trim <$> group 1 phaseMatch, [])
  | None =>
      match str_match flag_i checkbox_re line with
      | Some checkboxMatch =>
          (currentPhase,
           [ {| st_text := trim (default [] (group 2 checkboxMatch));
                st_completed :=
                  str_eqb (map to_lower (default [] (group 1 checkboxMatch)))
                          (u "x");
                st_phase := currentPhase |} ])
      | None =>
          match str_match no_flags numbered_re line with
          | Some numberedMatch =>
              (currentPhase,
               [ {| st_text := trim (default [] (group 2 numberedMatch));
                    st_completed := false;
                    st_phase := currentPhase |} ])
          | None => (currentPhase, [])
          end
      end
  end.

Fixpoint parseSubtasks_lines (currentPhase : option str) (lines : list str)
  : list Subtask :=
  match lines with
  | [] => []
  | line :: lines' =>
      let '(phase', pushed) := parseSubtasks_line currentPhase line in
      pushed ++ parseSubtasks_lines phase' lines'
  end.

Definition parseSubtasks (content : str) : list Subtask :=
  parseSubtasks_lines None (split_on 10 content).

(** ** parseFeatureFile *)

(** The status of the first folder of [CONFIG.statusFolders], in key
    order, that occurs among the path parts; [None] when the loop ends
    without a hit. *)
Fixpoint status_from_folders (folders : list (str * str)) (pathParts : list str)
  : option str :=
  match folders with
  | [] => None
  | (folder, st) :: folders' =>
      if includes pathParts folder then Some st
      else status_from_folders folders' pathParts
  end.

Definition feature_status `{Platform} (filePath : str) : str :=
  let pathParts := split_on path_sep filePath in
  match status_from_folders CONFIG.statusFolders pathParts with
  | Some st => if truthy st then st else u "Backlog"
  | None => u "Backlog"
  end.

(** The first capture of a match, trimmed. *)
Definition capture1 (fl : flags) (r : regex) (content : str) : option str :=
  m ← str_match fl r content; trim <$> group 1 m.

Definition parseFeatureFile `{Platform} (content filePath : str) : Feature :=
  {| title := capture1 flag_m feature_re content;
     priority := capture1 flag_i priority_re content;
     complexity := capture1 flag_i complexity_re content;
     estimatedSessions := capture1 flag_i sessions_re content;
     description := capture1 no_flags description_re content;
     subtasks :=
       match str_match no_flags subtasks_re content with
       | Some subtasksMatch => parseSubtasks (default [] (group 1 subtasksMatch))
       | None => []
       end;
     status := feature_status filePath;
     filePath := filePath;
     hash := generateHash content |}.

(* ===================================================================== *)
(** * JSON

    [JSON.parse] and [JSON.stringify(value, null, 2)] on texts, for the
    values the mapping file can hold.  A number is kept as its literal:
    the script never computes with one. *)
(* ===================================================================== *)

#[warnings="-register-all"]
Inductive json : Type :=
  | JNull
  | JBool (b : bool)
  | JNum (literal : str)
  | JStr (s : str)
  | JArr (elements : list json)
  | JObj (members : list (str * json)).

(** ** Parsing *)

Definition is_json_ws (c : N) : bool :=
  (c =? 32) || (c =? 9) || (c =? 10) || (c =? 13).

Definition skip_ws (s : str) : str := drop_while is_json_ws s.

Definition hex_value (c : N) : option N :=
  if is_digit c then Some (c - 48)
  else if (97 <=? c) && (c <=? 102) then Some (c - 87)
  else if (65 <=? c) && (c <=? 70) then Some (c - 55)
  else None.

Definition hex4_value (h1 h2 h3 h4 : N) : option N :=
  a ← hex_value h1; b ← hex_value h2; c ← hex_value h3; d ← hex_value h4;
  Some (4096 * a + 256 * b + 16 * c + d).

(** The character an escape letter stands for. *)
Definition unescape (e : N) : option N :=
  if e =? 34 then Some 34         (* quote *)
  else if e =? 92 then Some 92    (* backslash *)
  else if e =? 47 then Some 47    (* slash *)
  else if e =? 98 then Some 8     (* b: backspace *)
  else if e =? 102 then Some 12   (* f: form feed *)
  else if e =? 110 then Some 10   (* n: line feed *)
  else if e =? 114 then Some 13   (* r: carriage return *)
  else if e =? 116 then Some 9    (* t: tab *)
  else None.

(** The characters of a string literal after its opening quote, up to
    and including the closing one. *)
Fixpoint parse_chars (s : str) (acc : str) : option (str * str) :=
  match s with
  | [] => None
  | c :: s1 =>
      if c =? 34 then Some (rev acc, s1)
      else if c =? 92 then
        match s1 with
        | e :: s2 =>
            if e =? 117 then
              match s2 with
              | h1 :: h2 :: h3 :: h4 :: s3 =>
                  match hex4_value h1 h2 h3 h4 with
                  | Some x => parse_chars s3 (x :: acc)
                  | None => None
                  end
              | _ => None
              end
            else
              match unescape e with
              | Some x => parse_chars s2 (x :: acc)
              | None => None
              end
        | [] => None
        end
      else if c <? 32 then None
      else parse_chars s1 (c :: acc)
  end.

(** The longest prefix of digits and what follows it. *)
Fixpoint span_digits (s : str) : str * str :=
  match s with
  | c :: s' =>
      if is_digit c then let '(ds, r) := span_digits s' in (c :: ds, r)
      else ([], s)
  | [] => ([], [])
  end.

(** A number literal: an optional minus, an integer part without a
    leading zero, an optional fraction and an optional exponent. *)
Definition parse_number (s : str) : option (str * str) :=
  let '(sign, s1) :=
    match s with
    | c :: s' => if c =? 45 then ([c], s') else ([], s)
    | [] => ([], s)
    end in
  let '(int, s2) := span_digits s1 in
  match int with
  | [] => None
  | d :: ds =>
      if (d =? 48) && negb (bool_decide (ds = [])) then None
      else
        let frac :=
          match s2 with
          | c :: s' =>
              if c =? 46 then
                let '(fs, r) := span_digits s' in
                match fs with
                | [] => None
                | _ => Some (c :: fs, r)
                end
              else Some ([], s2)
          | [] => Some ([], s2)
          end in
        match frac with
        | None => None
        | Some (f, s3) =>
            let exp :=
              match s3 with
              | c :: s' =>
                  if (c =? 101) || (c =? 69) then
                    let '(sg, s'') :=
                      match s' with
                      | g :: r =>
                          if (g =? 43) || (g =? 45) then ([g], r) else ([], s')
                      | [] => ([], s')
                      end in
                    let '(es, r) := span_digits s'' in
                    match es with
                    | [] => None
                    | _ => Some (c :: sg ++ es, r)
                    end
                  else Some ([], s3)
              | [] => Some ([], s3)
              end in
            match exp with
            | None => None
            | Some (e, s4) => Some (sign ++ int ++ f ++ e, s4)
            end
      end
  end.

(** What the parser is reading: a value, the members of an object after
    the ones in [acc], or the elements of an array after those in [acc]. *)
Inductive pmode : Type :=
  | PValue
  | PMembers (acc : list (str * json))
  | PElements (acc : list json).

(** The recursive-descent parser.  Every recursive call is on a shorter
    text, so a budget above the length of the text is never used up. *)
Fixpoint parse (budget : nat) (md : pmode) (s : str) : option (json * str) :=
  match budget with
  | O => None
  | S n =>
      match md with
      | PValue =>
          match skip_ws s with
          | [] => None
          | c :: s1 =>
              if c =? 123 then
                match skip_ws s1 with
                | d :: s2 =>
                    if d =? 125 then Some (JObj [], s2)
                    else parse n (PMembers []) s1
                | [] => None
                end
              else if c =? 91 then
                match skip_ws s1 with
                | d :: s2 =>
                    if d =? 93 then Some (JArr [], s2)
                    else parse n (PElements []) s1
                | [] => None
                end
              else if c =? 34 then
                '(x, s2) ← parse_chars s1 []; Some (JStr x, s2)
              else if startsWith (c :: s1) (u "null") then
                Some (JNull, drop 4 (c :: s1))
              else if startsWith (c :: s1) (u "true") then
                Some (JBool true, drop 4 (c :: s1))
              else if startsWith (c :: s1) (u "false") then
                Some (JBool false, drop 5 (c :: s1))
              else
                '(x, s2) ← parse_number (c :: s1); Some (JNum x, s2)
          end
      | PMembers acc =>
          match skip_ws s with
          | c :: s1 =>
              if c =? 34 then
                match parse_chars s1 [] with
                | Some (k, s2) =>
                    match skip_ws s2 with
                    | c2 :: s3 =>
                        if c2 =? 58 then
                          match parse n PValue s3 with
                          | Some (v, s4) =>
                              match skip_ws s4 with
                              | c3 :: s5 =>
                                  if c3 =? 44 then
                                    parse n (PMembers ((k, v) :: acc)) s5
                                  else if c3 =? 125 then
                                    Some (JObj (rev ((k, v) :: acc)), s5)
                                  else None
                              | [] => None
                              end
                          | None => None
                          end
                        else None
                    | [] => None
                    end
                | None => None
                end
              else None
          | [] => None
          end
      | PElements acc =>
          match parse n PValue s with
          | Some (v, s1) =>
              match skip_ws s1 with
              | c :: s2 =>
                  if c =? 44 then parse n (PElements (v :: acc)) s2
                  else if c =? 93 then Some (JArr (rev (v :: acc)), s2)
                  else None
              | [] => None
              end
          | None => None
          end
      end
  end.

(** [JSON.parse]: [None] stands for the [SyntaxError] it throws. *)
Definition JSON_parse (text : str) : option json :=
  match parse (S (length text)) PValue text with
  | Some (v, rest) =>
      match skip_ws rest with
      | [] => Some v
      | _ => None
      end
  | None => None
  end.

(** ** Printing *)

Definition hex_digit (d : N) : N := if d <? 10 then 48 + d else 87 + d.

(** The four hexadecimal digits of a code unit. *)
Definition hex4 (c : N) : str :=
  [ hex_digit (c / 4096 mod 16); hex_digit (c / 256 mod 16);
    hex_digit (c / 16 mod 16); hex_digit (c mod 16) ].

(** The escape of a code unit by its value. *)
Definition escape_u (c : N) : str := [92; 117] ++ hex4 c.

Definition is_lead_surrogate (c : N) : bool := (0xD800 <=? c) && (c <=? 0xDBFF).
Definition is_trail_surrogate (c : N) : bool := (0xDC00 <=? c) && (c <=? 0xDFFF).

(** How one code unit that is not half of a surrogate pair is written. *)
Definition quote_one (c : N) : str :=
  if c =? 8 then [92; 98]
  else if c =? 9 then [92; 116]
  else if c =? 10 then [92; 110]
  else if c =? 12 then [92; 102]
  else if c =? 13 then [92; 114]
  else if c =? 34 then [92; 34]
  else if c =? 92 then [92; 92]
  else if (c <? 32) || is_lead_surrogate c || is_trail_surrogate c
    then escape_u c
  else [c].

Fixpoint quote_chars (s : str) : str :=
  match s with
  | [] => []
  | c :: s1 =>
      if is_lead_surrogate c then
        match s1 with
        | d :: s2 =>
            if is_trail_surrogate d then c :: d :: quote_chars s2
            else quote_one c ++ quote_chars s1
        | [] => quote_one c
        end
      else quote_one c ++ quote_chars s1
  end.

(** [QuoteJSONString]. *)
Definition quote (s : str) : str := 34 :: quote_chars s ++ [34].

Definition pad (indent : nat) : str := replicate indent 32.

(** The items of an array or object after the first, each after a comma
    and a line break. *)
Fixpoint separated {A} (print : A → str) (indent : nat) (items : list A) : str :=
  match items with
  | [] => []
  | y :: items' =>
      [44; 10] ++ pad indent ++ print y ++ separated print indent items'
  end.

(** An array or object between its brackets, one item a line. *)
Definition bracketed {A} (opening closing : N) (print : A → str)
    (indent : nat) (items : list A) : str :=
  match items with
  | [] => [opening; closing]
  | x :: items' =>
      [opening; 10] ++ pad (indent + 2) ++ print x
      ++ separated print (indent + 2) items'
      ++ [10] ++ pad indent ++ [closing]
  end.

(** [JSON.stringify(v, null, 2)], the text written for a value that
    sits [indent] columns deep. *)
Fixpoint stringify (indent : nat) (v : json) : str :=
  match v with
  | JNull => u "null"
  | JBool true => u "true"
  | JBool false => u "false"
  | JNum literal => literal
  | JStr s => quote s
  | JArr xs => bracketed 91 93 (stringify (indent + 2)) indent xs
  | JObj ms =>
      bracketed 123 125
        (λ m, quote (fst m) ++ [58; 32] ++ stringify (indent + 2) (snd m))
        indent ms
  end.

Definition JSON_stringify (v : json) : str := stringify 0 v.

(** A value without a number in it. *)
Fixpoint number_free (v : json) : Prop :=
  match v with
  | JNum _ => False
  | JArr xs => foldr (λ x P, number_free x ∧ P) True xs
  | JObj ms => foldr (λ m P, number_free (snd m) ∧ P) True ms
  | _ => True
  end.

(** ** Property access *)

(** [v[k]] on a parsed value: the member defined last wins; [None] is
    [undefined] (also for a value that is not an object). *)
Definition get_prop (k : str) (v : json) : option json :=
  match v with
  | JObj ms => snd <$> find (λ e, bool_decide (fst e = k)) (rev ms)
  | _ => None
  end.

(* ===================================================================== *)
(** * The sync mapping *)
(* ===================================================================== *)

(** The in-memory sync state: the project page id, the time of the last
    sync and the two tables keyed by file path. *)
Record Mapping := {
  projectPageId : option str;
  lastSync : option str;
  featurePageIds : gmap str str;   (* filePath -> Notion page ID *)
  contentHashes : gmap str str     (* filePath -> content hash *)
}.

(** The state [loadMapping] starts from when there is nothing to load. *)
Definition fresh_mapping : Mapping :=
  {| projectPageId := None; lastSync := None;
     featurePageIds := ∅; contentHashes := ∅ |}.

(** ** A mapping as a JavaScript value *)

Definition json_of_opt (o : option str) : json :=
  match o with Some s => JStr s | None => JNull end.

Definition json_of_table (t : gmap str str) : json :=
  JObj (map (λ kv, (fst kv, JStr (snd kv))) (map_to_list t)).

(** The object a mapping is.  Its members are listed in the order of the
    object literal of [loadMapping], and the keys of a table in the
    order [map_to_list] enumerates them; property access, the only way
    the script reads an object, does not depend on either order. *)
Definition json_of_mapping (m : Mapping) : json :=
  JObj [ (u "projectPageId", json_of_opt (projectPageId m));
         (u "lastSync", json_of_opt (lastSync m));
         (u "featurePageIds", json_of_table (featurePageIds m));
         (u "contentHashes", json_of_table (contentHashes m)) ].

(** A string-or-null member; absent counts as null. *)
Definition opt_of_json (o : option json) : option (option str) :=
  match o with
  | None | Some JNull => Some None
  | Some (JStr s) => Some (Some s)
  | Some _ => None
  end.

(** The table an object of strings is, a later member overriding an
    earlier one of the same key. *)
Fixpoint table_of_members (ms : list (str * json)) (acc : gmap str str)
  : option (gmap str str) :=
  match ms with
  | [] => Some acc
  | (k, JStr s) :: ms' => table_of_members ms' (<[k := s]> acc)
  | _ => None
  end.

Definition table_of_json (o : option json) : option (gmap str str) :=
  match o with
  | Some (JObj ms) => table_of_members ms ∅
  | _ => None
  end.

(** The sync state a JavaScript value is, when it is one: an object
    whose two tables are objects of strings and whose two scalars are
    strings or null.  On any other value the script is outside what it
    was written for, and so is this embedding. *)
Definition mapping_of_json (v : json) : option Mapping :=
  match v with
  | JObj _ =>
      p ← opt_of_json (get_prop (u "projectPageId") v);
      l ← opt_of_json (get_prop (u "lastSync") v);
      f ← table_of_json (get_prop (u "featurePageIds") v);
      c ← table_of_json (get_prop (u "contentHashes") v);
      Some {| projectPageId := p; lastSync := l;
              featurePageIds := f; contentHashes := c |}
  | _ => None
  end.

(** ** The mapping file *)

(** The one file the script writes: its text when it can be read, and
    whether it can be written. *)
Record Disk := {
  mapping_text : option str;
  writable : bool
}.

(** [loadMapping]: the parsed content of the file; the fresh state when
    reading or parsing throws. *)
Definition loadMapping (d : Disk) : json :=
  match mapping_text d with
  | Some data =>
      match JSON_parse data with
      | Some v => v
      | None => json_of_mapping fresh_mapping
      end
  | None => json_of_mapping fresh_mapping
  end.

(** [saveMapping]: the disk after the write, or [None] when
    [fs.writeFile] throws. *)
Definition saveMapping (mapping : Mapping) (d : Disk) : option Disk :=
  if writable d then
    Some {| mapping_text := Some (JSON_stringify (json_of_mapping mapping));
            writable := true |}
  else None.

(* ===================================================================== *)
(** * The Notion client *)
(* ===================================================================== *)

(** The [properties] argument of a page create or update. *)
Record Properties := {
  Name : option str;
  Status : option str;
  Project : option (option str);   (* the id of the relation, when set *)
  Priority : option str;
  Complexity : option str
}.

(** The blocks the script writes. *)
Inductive Block : Type :=
  | paragraph (content : str)
  | source_paragraph (content : str)       (* gray and italic *)
  | divider
  | heading_2 (content : str)
  | heading_3 (content : str)
  | to_do (content : str) (checked : bool)
  | callout (content : str) (emoji : str) (gray_background : bool).

(** The filters of the two database queries. *)
Inductive Filter : Type :=
  | name_equals (name : str)
  | name_equals_in_project (name : option str) (project : option str).

(** The body of [notion.pages.update]. *)
Inductive PageUpdate : Type :=
  | set_properties (properties : Properties)
  | set_archived.

(** The requests the script sends. *)
Inductive Call : Type :=
  | pages_retrieve (page_id : str)
  | pages_update (page_id : str) (body : PageUpdate)
  | pages_create (database_id : option str) (properties : Properties)
      (children : list Block)
  | blocks_children_list (block_id : str)
  | blocks_delete (block_id : str)
  | blocks_children_append (block_id : str) (children : list Block)
  | databases_query (database_id : option str) (filter : Filter).

(** A Notion workspace as the script sees it: for each request, whether
    the promise resolves ([Some], with the part of the response the
    script reads: the id of a created page, the ids of listed blocks or
    of query results) or rejects ([None]), and the workspace left
    behind.  Nothing else is assumed of it. *)
Class Notion (W : Type) := {
  retrieve_page : str → W → option unit * W;
  update_page : str → PageUpdate → W → option unit * W;
  create_page : option str → Properties → list Block → W → option str * W;
  list_children : str → W → option (list str) * W;
  delete_block : str → W → option unit * W;
  append_children : str → list Block → W → option unit * W;
  query_database : option str → Filter → W → option (list str) * W
}.

(** ** Asynchronous code

    An [async] function body is a computation over the workspace and the
    record of the requests issued so far, each with its outcome
    ([true]: resolved); it returns a value or throws. *)

Record Event := { ev_call : Call; ev_ok : bool }.

Record World (W : Type) := { remote : W; events : list Event }.
Arguments remote {W} _.
Arguments events {W} _.

Inductive Result (A : Type) : Type :=
  | Ok (a : A)
  | Thrown.
Arguments Ok {A} a.
Arguments Thrown {A}.

Definition M (W A : Type) : Type := World W → Result A * World W.

#[global] Instance M_ret {W} : MRet (M W) := λ A a w, (Ok a, w).

#[global] Instance M_bind {W} : MBind (M W) :=
  λ A B k m w,
    match m w with
    | (Ok a, w') => k a w'
    | (Thrown, w') => (Thrown, w')
    end.

(** [throw] *)
Definition throw {W A} : M W A := λ w, (Thrown, w).

(** [try { m } catch (e) { h }] *)
Definition try_catch {W A} (m : M W A) (h : M W A) : M W A :=
  λ w, match m w with
       | (Ok a, w') => (Ok a, w')
       | (Thrown, w') => h w'
       end.

(** The world after a request and its answer: the workspace the answer
    leaves, and the request recorded with its outcome. *)
Definition after {W A} (c : Call) (answer : option A * W) (w : World W)
  : World W :=
  {| remote := snd answer;
     events := events w ++ [{| ev_call := c;
                               ev_ok := bool_decide (is_Some (fst answer)) |}] |}.

(** Sending a request: the promise resolves with the answer or rejects. *)
Definition request {W A} (c : Call) (send : W → option A * W) : M W A :=
  λ w, let answer := send (remote w) in
       (match fst answer with Some a => Ok a | None => Thrown end,
        after c answer w).

Section Client.
Context {W : Type} `{Notion W}.

Definition notion_pages_retrieve (page_id : str) : M W unit :=
  request (pages_retrieve page_id) (retrieve_page page_id).

Definition notion_pages_update (page_id : str) (body : PageUpdate) : M W unit :=
  request (pages_update page_id body) (update_page page_id body).

Definition notion_pages_create (database_id : option str)
    (properties : Properties) (children : list Block) : M W str :=
  request (pages_create database_id properties children)
    (create_page database_id properties children).

Definition notion_blocks_children_list (block_id : str) : M W (list str) :=
  request (blocks_children_list block_id) (list_children block_id).

Definition notion_blocks_delete (block_id : str) : M W unit :=
  request (blocks_delete block_id) (delete_block block_id).

Definition notion_blocks_children_append (block_id : str)
    (children : list Block) : M W unit :=
  request (blocks_children_append block_id children)
    (append_children block_id children).

Definition notion_databases_query (database_id : option str)
    (filter : Filter) : M W (list str) :=
  request (databases_query database_id filter)
    (query_database database_id filter).
End Client.

(* ===================================================================== *)
(** * The environment of a run *)
(* ===================================================================== *)

(** [process.env]. *)
Record Env := {
  NOTION_TOKEN : option str;
  NOTION_PROJECTS_DB_ID : option str;
  NOTION_FEATURES_DB_ID : option str
}.

(** What [fs.readdir(dir, {withFileTypes: true})] lists. *)
#[warnings="-register-all"]
Inductive Entry : Type :=
  | File (name : str) (content : option str)
      (* [None]: [fs.readFile] throws *)
  | Directory (name : str) (entries : option (list Entry))
      (* [None]: [fs.readdir] throws *)
  | Other (name : str).
      (* neither [isDirectory()] nor [isFile()] *)

Definition entry_name (e : Entry) : str :=
  match e with
  | File name _ | Directory name _ | Other name => name
  end.

(** The local inputs of a run: the roadmap directory ([None] when it
    cannot be listed), the results of [getProjectName()] and
    [readReadme()], and the time [new Date().toISOString()] reads when
    the mapping is saved. *)
Record Local := {
  roadmap : option (list Entry);
  projectName : str;
  readme : option str;
  now : str
}.

(* ===================================================================== *)
(** * Scanning the roadmap *)
(* ===================================================================== *)

Section Scan.
Context `{Platform}.

(** [path.join(dir, name)] for a name [fs.readdir] lists: a single
    path component, on which normalisation has nothing to do. *)
Definition path_join (dir name : str) : str := dir ++ path_sep :: name.

(** The features one entry of [dir] contributes: the body of the loop
    of [scanDir], the recursive call included. *)
Fixpoint scanEntry (dir : str) (entry : Entry) : list Feature :=
  let fullPath := path_join dir (entry_name entry) in
  match entry with
  | Directory _ (Some entries) =>
      (fix scanEntries (es : list Entry) : list Feature :=
         match es with
         | [] => []
         | e :: es' => scanEntry fullPath e ++ scanEntries es'
         end) entries
  | Directory _ None => []
  | File name content =>
      if endsWith name (u ".md") && negb (startsWith name (u "_")) then
        match content with
        | Some content =>
            let feature := parseFeatureFile content fullPath in
            if truthy_opt (title feature) then [feature] else []
        | None => []
        end
      else []
  | Other _ => []
  end.

(** [scanDir(dir)], given what [fs.readdir(dir)] yields. *)
Definition scanDir (dir : str) (entries : option (list Entry)) : list Feature :=
  match entries with
  | Some es => flat_map (scanEntry dir) es
  | None => []
  end.

(** [xs.indexOf(x)] *)
Fixpoint indexOf (xs : list str) (x : str) : Z :=
  match xs with
  | [] => -1
  | y :: xs' =>
      if str_eqb y x then 0
      else let i := indexOf xs' x in if (i <? 0)%Z then i else (i + 1)%Z
  end.

(** The comparator of the sort: by status, then filename. *)
Definition compareFeatures (a b : Feature) : Z :=
  let statusDiff :=
    (indexOf CONFIG.statusOrder (status a)
     - indexOf CONFIG.statusOrder (status b))%Z in
  if bool_decide (statusDiff ≠ 0%Z) then statusDiff
  else localeCompare (filePath a) (filePath b).

(** [a] is not to be placed after [b]. *)
Definition feature_le (a b : Feature) : Prop := (compareFeatures a b ≤ 0)%Z.

#[global] Instance feature_le_dec : RelDecision feature_le :=
  λ a b, Z.le_dec (compareFeatures a b) 0%Z.

(** [scanRoadmapFeatures].  [Array.prototype.sort] is stable; it is
    embedded as a stable merge sort, with which every stable sort
    agrees on a comparator that is a total preorder. *)
Definition scanRoadmapFeatures (roadmap : option (list Entry)) : list Feature :=
  merge_sort feature_le (scanDir CONFIG.roadmapDir roadmap).
End Scan.

(* ===================================================================== *)
(** * Syncing *)
(* ===================================================================== *)

Inductive Action : Type := created | updated | unchanged.

(** [s.match(/.{1,1900}/gs) || []]: the text cut into pieces of [n] code
    units, the last one possibly shorter. *)
Fixpoint chunks_upto (budget n : nat) (s : str) : list str :=
  match budget, s with
  | S b, _ :: _ => take n s :: chunks_upto b n (drop n s)
  | _, _ => []
  end.

Definition chunks (n : nat) (s : str) : list str := chunks_upto (length s) n s.

(** [createSubtaskBlocks] *)
Fixpoint createSubtaskBlocks_from (currentPhase : option str)
    (subtasks : list Subtask) : list Block :=
  match subtasks with
  | [] => []
  | task :: rest =>
      if truthy_opt (st_phase task)
         && negb (bool_decide (st_phase task = currentPhase)) then
        heading_3 (default [] (st_phase task))
        :: to_do (st_text task) (st_completed task)
        :: createSubtaskBlocks_from (st_phase task) rest
      else
        to_do (st_text task) (st_completed task)
        :: createSubtaskBlocks_from currentPhase rest
  end.

Definition createSubtaskBlocks (subtasks : list Subtask) : list Block :=
  createSubtaskBlocks_from None subtasks.

(** The properties [syncFeature] builds. *)
Definition feature_properties (feature : Feature) (projectPageId : option str)
  : Properties :=
  {| Name := title feature;
     Status := Some (status feature);
     Project := Some projectPageId;
     Priority := if truthy_opt (priority feature) then priority feature else None;
     Complexity :=
       if truthy_opt (complexity feature) then complexity feature else None |}.

(** The page content [syncFeature] builds. *)
Definition feature_children (feature : Feature) : list Block :=
  (match description feature with
   | Some d => if truthy d then paragraph <$> chunks 1900 d else []
   | None => []
   end)
  ++ (if bool_decide (0 < length (subtasks feature))%nat then
        divider
        :: heading_2 ([0xD83D; 0xDCCB] ++ u " Subtasks")
        :: createSubtaskBlocks (subtasks feature)
      else [])
  ++ [ divider;
       source_paragraph ([0xD83D; 0xDCC1] ++ u " Source: " ++ filePath feature) ].

Section Sync.
Context `{Platform} {W : Type} `{Notion W}.
Variable env : Env.

(** [findProjectPage] *)
Definition findProjectPage (projectName : str) : M W (option str) :=
  try_catch
    (results ← notion_databases_query (NOTION_PROJECTS_DB_ID env)
                 (name_equals projectName);
     mret (head results))
    (mret None).

(** [findFeaturePage] *)
Definition findFeaturePage (featureTitle : option str)
    (projectPageId : option str) : M W (option str) :=
  try_catch
    (results ← notion_databases_query (NOTION_FEATURES_DB_ID env)
                 (name_equals_in_project featureTitle projectPageId);
     mret (head results))
    (mret None).

(** The loop deleting the existing blocks, deletion errors ignored. *)
Fixpoint delete_blocks (blocks : list str) : M W unit :=
  match blocks with
  | [] => mret ()
  | block :: rest =>
      try_catch (notion_blocks_delete block) (mret ());;
      delete_blocks rest
  end.

(** The body of the [try] that updates an existing page. *)
Definition update_existing (existingPageId : str) (properties : Properties)
    (children : list Block) : M W unit :=
  notion_pages_update existingPageId (set_properties properties);;
  existingBlocks ← notion_blocks_children_list existingPageId;
  delete_blocks existingBlocks;;
  if bool_decide (0 < length children)%nat then
    notion_blocks_children_append existingPageId children
  else mret ().

(** The last [if] of [syncFeature]: "Create new page". *)
Definition create_feature (feature : Feature) (projectPageId : option str)
  : M W (str * Action) :=
  page_id ← notion_pages_create (NOTION_FEATURES_DB_ID env)
              (feature_properties feature projectPageId)
              (feature_children feature);
  mret (page_id, created).

(** [syncFeature].  The local variable [existingPageId] is followed
    through the function: [probe] is the first [if], which returns
    from the function when the page is retrieved; [kept] is its
    value after the second [if], [None] standing for a falsy one. *)
Definition syncFeature (feature : Feature) (projectPageId : option str)
    (mapping : Mapping) : M W (str * Action) :=
  let existingPageId := featurePageIds mapping !! filePath feature in
  let existingHash := contentHashes mapping !! filePath feature in
  (* Skip if unchanged *)
  probe ←
    match existingPageId with
    | Some id =>
        if truthy id && bool_decide (existingHash = Some (hash feature)) then
          try_catch (notion_pages_retrieve id;; mret (Some id)) (mret None)
        else mret None
    | None => mret None
    end;
  match probe with
  | Some id => mret (id, unchanged)
  | None =>
      let properties := feature_properties feature projectPageId in
      let children := feature_children feature in
      kept ←
        match existingPageId with
        | Some id =>
            if truthy id then
              (* Update existing page *)
              try_catch
                (update_existing id properties children;; mret (Some id))
                (mret None)
            else mret None
        | None => mret None
        end;
      match kept with
      | Some id => mret (id, updated)
      | None => create_feature feature projectPageId
      end
  end.

(** The page a new project is created with. *)
Definition project_children (projectName : str) (readme : option str)
  : list Block :=
  (match readme with
   | Some r =>
       if truthy r then
         [ callout
             (take 500 r ++ (if bool_decide (500 < length r)%nat
                             then u "..." else []))
             [0xD83D; 0xDCD6] false ]
       else []
   | None => []
   end)
  ++ [ divider;
       callout
         ([0xD83D; 0xDC46]
          ++ u " Add a linked view of your Features database here:"
          ++ [10] ++ u "1. Type /linked"
          ++ [10] ++ u "2. Select " ++ [34] ++ u "Linked view of database" ++ [34]
          ++ [10] ++ u "3. Choose your Features database"
          ++ [10] ++ u "4. Filter by: Project " ++ [0x2192] ++ u " contains "
          ++ [0x2192] ++ u " " ++ projectName
          ++ [10] ++ u "5. Change view to " ++ [34] ++ u "Board" ++ [34]
          ++ u " and group by Status")
         [0x2699; 0xFE0F] true ].

(** The properties of the project page. *)
Definition project_properties (projectName : str) : Properties :=
  {| Name := Some projectName; Status := None; Project := None;
     Priority := None; Complexity := None |}.

(** [syncProject] *)
Definition syncProject (projectName : str) (readme : option str)
    (featureCount : nat) (mapping : Mapping) : M W (str * Action) :=
  let pageId := projectPageId mapping in
  (* Verify existing page still exists *)
  pageId ←
    (if truthy_opt pageId then
       try_catch (notion_pages_retrieve (default [] pageId);; mret pageId)
                 (mret None)
     else mret pageId);
  (* Search by name if needed *)
  pageId ←
    (if negb (truthy_opt pageId) then findProjectPage projectName
     else mret pageId);
  let properties := project_properties projectName in
  if truthy_opt pageId then
    (* Update existing project *)
    notion_pages_update (default [] pageId) (set_properties properties);;
    mret (default [] pageId, updated)
  else
    page_id ← notion_pages_create (NOTION_PROJECTS_DB_ID env) properties
                (project_children projectName readme);
    mret (page_id, created).

(** [mapping.projectPageId = pageId] *)
Definition set_projectPageId (pageId : str) (mapping : Mapping) : Mapping :=
  {| projectPageId := Some pageId; lastSync := lastSync mapping;
     featurePageIds := featurePageIds mapping;
     contentHashes := contentHashes mapping |}.

(** [mapping.lastSync = time] *)
Definition set_lastSync (time : str) (mapping : Mapping) : Mapping :=
  {| projectPageId := projectPageId mapping; lastSync := Some time;
     featurePageIds := featurePageIds mapping;
     contentHashes := contentHashes mapping |}.

(** Forgetting a file path: the two [delete] statements. *)
Definition forget (filePath : str) (mapping : Mapping) : Mapping :=
  {| projectPageId := projectPageId mapping;
     lastSync := lastSync mapping;
     featurePageIds := delete filePath (featurePageIds mapping);
     contentHashes := delete filePath (contentHashes mapping) |}.

(** The loop of [cleanupDeletedFeatures] over the entries
    [Object.entries] has listed before the loop starts. *)
Fixpoint cleanup_entries (currentPaths : gset str) (entries : list (str * str))
    (mapping : Mapping) (archived : nat) : M W (Mapping * nat) :=
  match entries with
  | [] => mret (mapping, archived)
  | (filePath, pageId) :: rest =>
      if bool_decide (filePath ∉ currentPaths) then
        '(mapping, archived) ←
          try_catch
            ((* Archive the page (soft delete) *)
             notion_pages_update pageId set_archived;;
             mret (forget filePath mapping, S archived))
            ((* Page might already be deleted *)
             mret (forget filePath mapping, archived));
        cleanup_entries currentPaths rest mapping archived
      else cleanup_entries currentPaths rest mapping archived
  end.

(** [cleanupDeletedFeatures]: the mapping it leaves and the count it
    returns.  The entries come in the order [map_to_list] enumerates
    them, where [Object.entries] has them in the order of insertion. *)
Definition cleanupDeletedFeatures (currentFeatures : list Feature)
    (projectPageId : option str) (mapping : Mapping) : M W (Mapping * nat) :=
  let currentPaths : gset str := list_to_set (filePath <$> currentFeatures) in
  cleanup_entries currentPaths (map_to_list (featurePageIds mapping)) mapping 0.

(** The counters of the summary. *)
Record Counts := { n_created : nat; n_updated : nat; n_unchanged : nat }.

(** [let created = 0, updated = 0, unchanged = 0] *)
Definition no_counts : Counts :=
  {| n_created := 0; n_updated := 0; n_unchanged := 0 |}.

Definition count (action : Action) (c : Counts) : Counts :=
  match action with
  | created =>
      {| n_created := S (n_created c); n_updated := n_updated c;
         n_unchanged := n_unchanged c |}
  | updated =>
      {| n_created := n_created c; n_updated := S (n_updated c);
         n_unchanged := n_unchanged c |}
  | unchanged =>
      {| n_created := n_created c; n_updated := n_updated c;
         n_unchanged := S (n_unchanged c) |}
  end.

(** What the loop over the features stores for one of them. *)
Definition remember (feature : Feature) (pageId : str) (mapping : Mapping)
  : Mapping :=
  {| projectPageId := projectPageId mapping;
     lastSync := lastSync mapping;
     featurePageIds := <[filePath feature := pageId]> (featurePageIds mapping);
     contentHashes := <[filePath feature := hash feature]> (contentHashes mapping) |}.

(** The loop "Sync each feature" of [syncToNotion]. *)
Fixpoint syncFeatures (features : list Feature) (mapping : Mapping)
    (c : Counts) : M W (Mapping * Counts) :=
  match features with
  | [] => mret (mapping, c)
  | feature :: rest =>
      '(pageId, action) ← syncFeature feature (projectPageId mapping) mapping;
      syncFeatures rest (remember feature pageId mapping) (count action c)
  end.

(** What a completed run reports. *)
Record Summary := {
  counts : Counts;
  archived : nat;
  project_action : Action;
  last_sync : str
}.

(** How the process ends. *)
Inductive Outcome : Type :=
  | completed (s : Summary)
  | exited (code : N).

(** The body of the [try] of [syncToNotion] between loading and
    saving the mapping. *)
Definition sync_all (loc : Local) (features : list Feature)
    (mapping : Mapping) : M W (Mapping * Counts * nat * Action) :=
  (* Sync project first *)
  '(pageId, projectAction) ←
    syncProject (projectName loc) (readme loc) (length features) mapping;
  let mapping := set_projectPageId pageId mapping in
  (* Sync each feature *)
  '(mapping, c) ← syncFeatures features mapping no_counts;
  (* Cleanup deleted features *)
  '(mapping, n) ← cleanupDeletedFeatures features (projectPageId mapping) mapping;
  mret (mapping, c, n, projectAction).

(** [syncToNotion]: how the process ends, the disk and the workspace
    it leaves.  [None] when the mapping file holds a value that is not
    a sync state. *)
Definition syncToNotion (loc : Local) (d : Disk) (w : World W)
  : option (Outcome * Disk * World W) :=
  (* Validate environment *)
  if negb (truthy_opt (NOTION_TOKEN env)) then Some (exited 1, d, w)
  else if negb (truthy_opt (NOTION_PROJECTS_DB_ID env)) then
    Some (exited 1, d, w)
  else if negb (truthy_opt (NOTION_FEATURES_DB_ID env)) then
    Some (exited 1, d, w)
  else
    mapping ← mapping_of_json (loadMapping d);
    let features := scanRoadmapFeatures (roadmap loc) in
    match sync_all loc features mapping w with
    | (Ok (mapping, c, n, projectAction), w') =>
        (* Save mapping *)
        let mapping := set_lastSync (now loc) mapping in
        match saveMapping mapping d with
        | Some d' =>
            Some (completed {| counts := c; archived := n;
                               project_action := projectAction;
                               last_sync := now loc |}, d', w')
        | None => Some (exited 1, d, w')
        end
    | (Thrown, w') => Some (exited 1, d, w')
    end.
End Sync.

(* ===================================================================== *)
(** * Vocabulary of the properties *)
(* ===================================================================== *)

(** ** Lines of a Subtasks section *)

(** The text of a "###" heading: the line is "###", white space, and a
    text that starts with a visible character and holds no line
    terminator. *)
Definition heading_line (line txt : str) : Prop :=
  ∃ sp, line = u "###" ++ sp ++ txt
        ∧ sp ≠ [] ∧ Forall (λ c, is_space c = true) sp
        ∧ Forall (λ c, is_dot c = true) txt
        ∧ ∃ c txt', txt = c :: txt' ∧ is_space c = false.

(** A numbered line "N. text" without a checkbox: optional white space,
    digits, a dot, white space, and a text that starts with a visible
    character other than "[" and holds no line terminator. *)
Definition numbered_line (line txt : str) : Prop :=
  ∃ ws ds sp, line = ws ++ ds ++ [46] ++ sp ++ txt
        ∧ Forall (λ c, is_space c = true) ws
        ∧ ds ≠ [] ∧ Forall (λ c, is_digit c = true) ds
        ∧ sp ≠ [] ∧ Forall (λ c, is_space c = true) sp
        ∧ Forall (λ c, is_dot c = true) txt
        ∧ ∃ c txt', txt = c :: txt' ∧ is_space c = false ∧ c ≠ 91.

(** A checkbox line: optional white space, an optional number "N."
    with optional white space after it, a bracket holding the mark
    [b], white space, and a text that starts with a visible character
    and holds no line terminator. *)
Definition checkbox_line (line : str) (b : N) (txt : str) : Prop :=
  ∃ ws num sp, line = ws ++ num ++ [91; b; 93] ++ sp ++ txt
        ∧ Forall (λ c, is_space c = true) ws
        ∧ (num = []
           ∨ ∃ ds ws', num = ds ++ [46] ++ ws'
                ∧ ds ≠ [] ∧ Forall (λ c, is_digit c = true) ds
                ∧ Forall (λ c, is_space c = true) ws')
        ∧ sp ≠ [] ∧ Forall (λ c, is_space c = true) sp
        ∧ Forall (λ c, is_dot c = true) txt
        ∧ ∃ c txt', txt = c :: txt' ∧ is_space c = false.

(** The heading a line is, if it is one for the parser. *)
Definition heading_of (line : str) : option str :=
  m ← str_match no_flags phase_re line; trim <$> group 1 m.

(** The most recent heading among the lines above. *)
Definition most_recent_heading (above : list str) : option str :=
  last (omap heading_of above).

(** A line that ends in a line terminator: after a split on line feeds,
    a carriage return or a Unicode line or paragraph separator. *)
Definition ends_in_terminator (line : str) : Prop :=
  ∃ body c, line = body ++ [c] ∧ is_line_terminator c = true.

(** A pattern that ends in "(.+) $". *)
Fixpoint ends_dotted (r : regex) : Prop :=
  match r with
  | Seq r1 r2 => (∃ n, r1 = Grp n (Plus is_dot) ∧ r2 = Eol) ∨ ends_dotted r2
  | _ => False
  end.

(** A file that starts by naming a feature: one or more "#",
    " Feature:", optional white space (line ends included), and a
    title that starts with a visible character and runs to the end of
    its line. *)
Definition feature_heading (content title : str) : Prop :=
  ∃ hashes sp rest,
    content = hashes ++ u " Feature:" ++ sp ++ title ++ rest
    ∧ hashes ≠ [] ∧ Forall (λ c, c = 35) hashes
    ∧ Forall (λ c, is_space c = true) sp
    ∧ Forall (λ c, is_dot c = true) title
    ∧ (∃ c title', title = c :: title' ∧ is_space c = false)
    ∧ (rest = [] ∨ ∃ c rest', rest = c :: rest' ∧ is_line_terminator c = true).

(** ** Sections of a feature file *)

Definition starts_with (prefix s : str) : Prop := ∃ t, s = prefix ++ t.

(** Where a section ends: at the end of the text, or before a line
    that starts with "## " or "# ". *)
Definition section_end (rest : str) : Prop :=
  rest = []
  ∨ starts_with (10 :: u "## ") rest
  ∨ starts_with (10 :: u "# ") rest.

(** [body] is the text of the section [name] of [content]: after the
    first "## name" of the content and the white space that follows
    it, up to a line feed, comes the body, which starts with a visible
    character and runs to the first end of a section. *)
Definition section_body (name content body : str) : Prop :=
  ∃ head ws rest,
    content = head ++ (u "## " ++ name) ++ ws ++ [10] ++ body ++ rest
    ∧ (∀ a b, head = a ++ b → b ≠ [] →
         ¬ starts_with (u "## " ++ name)
             (b ++ (u "## " ++ name) ++ ws ++ [10] ++ body ++ rest))
    ∧ Forall (λ c, is_space c = true) ws
    ∧ (∃ c body', body = c :: body' ∧ is_space c = false)
    ∧ (∀ a b, body = a ++ b → b ≠ [] → ¬ section_end (b ++ rest))
    ∧ section_end rest.

(** ** Classes and texts *)

(** A class is caseless when folding the case of a character never moves
    it into or out of the class. *)
Definition caseless (p : N → bool) : Prop :=
  ∀ c, p (to_upper c) = p c ∧ p (to_lower c) = p c.

(** The next character, if any, is outside the class. *)
Definition stops (p : N → bool) (rest : str) : Prop :=
  match rest with [] => True | x :: _ => p x = false end.

(** The first character of a printed value: none that white space, a
    closing bracket or a closing brace is. *)
Definition opens_value (c : N) : Prop :=
  is_json_ws c = false ∧ c ≠ 93 ∧ c ≠ 125.

(** What it is for the parser to read back the text of [v]. *)
Definition reads_back (v : json) : Prop :=
  ∀ indent n rest,
    (length (stringify indent v ++ rest) < n)%nat →
    parse n PValue (stringify indent v ++ rest) = Some (v, rest).

(** ** Blocks *)

(** The task a to-do block shows. *)
Definition to_do_of (b : Block) : option (str * bool) :=
  match b with to_do content checked => Some (content, checked) | _ => None end.

(** The text of a phase heading. *)
Definition heading_3_of (b : Block) : option str :=
  match b with heading_3 content => Some content | _ => None end.

(** ** Requests *)

Definition is_probe (c : Call) : bool :=
  match c with pages_retrieve _ => true | _ => false end.

Definition is_query (c : Call) : bool :=
  match c with databases_query _ _ => true | _ => false end.

Definition is_create (c : Call) : bool :=
  match c with pages_create _ _ _ => true | _ => false end.

(** The requests that change the workspace. *)
Definition is_mutation (c : Call) : bool :=
  match c with
  | pages_update _ _ | pages_create _ _ _
  | blocks_delete _ | blocks_children_append _ _ => true
  | pages_retrieve _ | blocks_children_list _ | databases_query _ _ => false
  end.

(** The requests of [syncFeature] are among these: it neither archives
    a page nor queries a database. *)
Definition feature_request (c : Call) : Prop :=
  match c with
  | pages_retrieve _ | pages_update _ (set_properties _) | pages_create _ _ _
  | blocks_children_list _ | blocks_delete _ | blocks_children_append _ _ => True
  | pages_update _ set_archived | databases_query _ _ => False
  end.

(** The archive request of an entry of the table of page ids. *)
Definition archive_of (entry : str * str) : Call :=
  pages_update (snd entry) set_archived.

(** The mapping knows the feature, unchanged: it has a non-empty page
    id for its path, and the hash of its content. *)
Definition known (mapping : Mapping) (feature : Feature) : Prop :=
  ∃ id, featurePageIds mapping !! filePath feature = Some id
        ∧ truthy id = true
        ∧ contentHashes mapping !! filePath feature = Some (hash feature).

(** The successful probe of the page the mapping has for a feature. *)
Definition probe_of (mapping : Mapping) (feature : Feature) : Event :=
  {| ev_call :=
       pages_retrieve (default [] (featurePageIds mapping !! filePath feature));
     ev_ok := true |}.

(** A probe, when it is one, has succeeded. *)
Definition probe_ok (e : Event) : Prop :=
  is_probe (ev_call e) = true → ev_ok e = true.

(** The requests a computation issues from [w] on. *)
Definition issued {W A} (m : M W A) (w : World W) : list Event :=
  drop (length (events w)) (events (snd (m w))).

(** Every request a computation issues satisfies [P], wherever it
    starts from. *)
Definition emits {W A} (P : Event → Prop) (m : M W A) : Prop :=
  ∀ w, ∃ evs, events (snd (m w)) = events w ++ evs ∧ Forall P evs.

(** The id of every page the workspace creates is a non-empty string. *)
Definition creates_truthy_ids (W : Type) `{Notion W} : Prop :=
  ∀ db properties children w id w',
    create_page db properties children w = (Some id, w') → truthy id = true.

(** The three environment variables are set. *)
Definition configured (env : Env) : Prop :=
  truthy_opt (NOTION_TOKEN env) = true
  ∧ truthy_opt (NOTION_PROJECTS_DB_ID env) = true
  ∧ truthy_opt (NOTION_FEATURES_DB_ID env) = true.

(** The workspace after the requests to delete the [blocks], one after
    the other, whatever their fate. *)
Definition after_deleting {W} `{Notion W} (blocks : list str) (r : W) : W :=
  foldl (λ r block, snd (delete_block block r)) r blocks.

(** The record of those requests. *)
Fixpoint deletions {W} `{Notion W} (blocks : list str) (r : W) : list Event :=
  match blocks with
  | [] => []
  | block :: rest =>
      {| ev_call := blocks_delete block;
         ev_ok := bool_decide (is_Some (fst (delete_block block r))) |}
      :: deletions rest (snd (delete_block block r))
  end.

(** ** Trees *)

(** A name [fs.readdir] can list: non-empty and free of the separator. *)
Definition valid_name `{Platform} (name : str) : Prop :=
  name ≠ [] ∧ path_sep ∉ name.

(** A directory listing: valid names, no name twice, and so on below. *)
Fixpoint valid_entry `{Platform} (e : Entry) : Prop :=
  valid_name (entry_name e)
  ∧ match e with
    | Directory _ (Some entries) =>
        NoDup (entry_name <$> entries)
        ∧ (fix all (es : list Entry) : Prop :=
             match es with
             | [] => True
             | e' :: es' => valid_entry e' ∧ all es'
             end) entries
    | _ => True
    end.

Definition valid_roadmap `{Platform} (roadmap : option (list Entry)) : Prop :=
  match roadmap with
  | Some entries =>
      NoDup (entry_name <$> entries) ∧ Forall valid_entry entries
  | None => True
  end.

(** A path under the entry [e] of [dir]: the path of [e], alone or
    followed by a separator and more. *)
Definition under `{Platform} (dir : str) (e : Entry) (path : str) : Prop :=
  ∃ s, path = path_join dir (entry_name e) ++ s
       ∧ (s = [] ∨ ∃ r, s = path_sep :: r).

(** What the scan of an entry yields wherever the entry sits: no path
    twice, and every path under the entry. *)
Definition scans_apart `{Platform} (e : Entry) : Prop :=
  ∀ dir, NoDup (filePath <$> scanEntry dir e)
         ∧ ∀ f, f ∈ scanEntry dir e → under dir e (filePath f).

(** The file [name] is listed, with what reading it yields, at [path]
    in the tree of the [entries] of [dir]: among them, or further down
    in a directory that can be listed. *)
Inductive file_at `{Platform} : str → list Entry → str → str → option str → Prop :=
  | file_here dir entries name content :
      File name content ∈ entries →
      file_at dir entries (path_join dir name) name content
  | file_below dir entries sub below path name content :
      Directory sub (Some below) ∈ entries →
      file_at (path_join dir sub) below path name content →
      file_at dir entries path name content.

(** The feature the scan takes from the file [name] at [path]: the
    name ends in ".md" and does not start with "_", and the parsed
    content has a title. *)
Definition feature_of `{Platform} (path name content : str) (f : Feature) : Prop :=
  endsWith name (u ".md") = true
  ∧ startsWith name (u "_") = false
  ∧ truthy_opt (title (parseFeatureFile content path)) = true
  ∧ f = parseFeatureFile content path.

(** The place of a status in the order of the sort. *)
Definition status_rank (f : Feature) : Z :=
  indexOf CONFIG.statusOrder (status f).

(* ===================================================================== *)
(** * Examples: a platform, a workspace and a project *)
(* ===================================================================== *)

Module Example.

(** Code-unit order, standing for a collation. *)
Fixpoint code_unit_compare (a b : str) : Z :=
  match a, b with
  | [], [] => 0%Z
  | [], _ :: _ => (-1)%Z
  | _ :: _, [] => 1%Z
  | x :: a', y :: b' =>
      if x <? y then (-1)%Z
      else if y <? x then 1%Z
      else code_unit_compare a' b'
  end.

(** A checksum, standing for a digest: eight hexadecimal digits of
    the sum of the code units weighted by position. *)
Fixpoint checksum (s : str) (acc : N) : N :=
  match s with
  | [] => acc
  | c :: s' => checksum s' ((31 * acc + c) mod 4294967296)
  end.

Definition checksum_hex (s : str) : str :=
  let n := checksum s 7 in
  hex4 (n / 65536) ++ hex4 (n mod 65536).

(** A POSIX platform. *)
#[export] Instance posix : Platform :=
  {| path_sep := 47;
     md5_hex := checksum_hex;
     localeCompare := code_unit_compare |}.

(** A simulated workspace: the pages that exist, each an id and a
    name, the number of pages created so far, the number of coming
    requests that fail whatever they are (an outage), and the page
    names the workspace refuses to create. *)
Record Sim := {
  pages : list (str * str);
  created_so_far : nat;
  outage : nat;
  refused : list str
}.

Definition exists_page (s : Sim) (id : str) : bool :=
  bool_decide (id ∈ fst <$> pages s).

Definition named (s : Sim) (name : str) : list str :=
  fst <$> filter (λ p, snd p = name) (pages s).

(** A request during an outage fails; otherwise it is answered. *)
Definition answer {A} (s : Sim) (a : option A * Sim) : option A * Sim :=
  match outage s with
  | O => a
  | S n =>
      (None, {| pages := pages s; created_so_far := created_so_far s;
                outage := n; refused := refused s |})
  end.

Definition guard (b : bool) : option unit := if b then Some () else None.

#[export] Instance sim_notion : Notion Sim :=
  {| retrieve_page id s := answer s (guard (exists_page s id), s);
     update_page id body s :=
       answer s
         (guard (exists_page s id),
          match body with
          | set_archived =>
              {| pages := filter (λ p, fst p ≠ id) (pages s);
                 created_so_far := created_so_far s;
                 outage := outage s; refused := refused s |}
          | set_properties _ => s
          end);
     create_page db properties children s :=
       answer s
         (let name := default [] (Name properties) in
          if bool_decide (name ∈ refused s) then (None, s)
          else
            let id := u "page-" ++ replicate (S (created_so_far s)) 105 in
            (Some id,
             {| pages := pages s ++ [(id, name)];
                created_so_far := S (created_so_far s);
                outage := outage s; refused := refused s |}));
     list_children id s :=
       answer s (if exists_page s id then Some [] else None, s);
     delete_block id s := answer s (None, s);
     append_children id children s :=
       answer s (guard (exists_page s id), s);
     query_database db filter s :=
       answer s
         (Some (named s (match filter with
                         | name_equals name => name
                         | name_equals_in_project name _ => default [] name
                         end)), s) |}.

Definition sim (existing : list (str * str)) (n : nat) (refuse : list str)
  : World Sim :=
  {| remote := {| pages := existing; created_so_far := 0; outage := n;
                  refused := refuse |};
     events := [] |}.

(** The next run of the script against the workspace a run left. *)
Definition later (w : World Sim) : World Sim :=
  {| remote := remote w; events := [] |}.

Definition env : Env :=
  {| NOTION_TOKEN := Some (u "secret");
     NOTION_PROJECTS_DB_ID := Some (u "projects-db");
     NOTION_FEATURES_DB_ID := Some (u "features-db") |}.

Definition export_md : str :=
  u "# Feature: Export" ++ [10] ++ [10]
  ++ u "**Priority:** High" ++ [10] ++ [10]
  ++ u "## Subtasks" ++ [10]
  ++ u "### Phase 1" ++ [10]
  ++ u "1. [x] Write the exporter" ++ [10]
  ++ u "2. Document it" ++ [10].

Definition search_md : str := u "# Feature: Search" ++ [10].

(** roadmap/backlog/001.md and roadmap/backlog/002.md *)
Definition two_features : option (list Entry) :=
  Some [ Directory (u "backlog")
           (Some [ File (u "001.md") (Some export_md);
                   File (u "002.md") (Some search_md) ]) ].

Definition project (roadmap : option (list Entry)) : Local :=
  {| roadmap := roadmap; projectName := u "demo"; readme := None;
     now := u "2024-01-01T09:00:00.000Z" |}.

Definition no_file : Disk := {| mapping_text := None; writable := true |}.

Definition file (text : str) : Disk :=
  {| mapping_text := Some text; writable := true |}.

Definition export_feature : Feature :=
  parseFeatureFile export_md (u "roadmap/backlog/001.md").

(** A sync state that knows the feature above, unchanged, as page
    "page-old". *)
Definition knows_export : Mapping :=
  {| projectPageId := Some (u "page-demo");
     lastSync := None;
     featurePageIds := {[ u "roadmap/backlog/001.md" := u "page-old" ]};
     contentHashes := {[ u "roadmap/backlog/001.md" := hash export_feature ]} |}.

(** The feature of roadmap/backlog/002.md *)
Definition search_feature : Feature :=
  parseFeatureFile search_md (u "roadmap/backlog/002.md").

(** A request in brief, and the requests of a run with their fate. *)
Definition brief (c : Call) : str :=
  match c with
  | pages_retrieve id => u "retrieve " ++ id
  | pages_update id (set_properties _) => u "update " ++ id
  | pages_update id set_archived => u "archive " ++ id
  | pages_create _ properties _ => u "create " ++ default [] (Name properties)
  | blocks_children_list id => u "list " ++ id
  | blocks_delete id => u "delete " ++ id
  | blocks_children_append id _ => u "append " ++ id
  | databases_query _ (name_equals name) => u "query " ++ name
  | databases_query _ (name_equals_in_project name _) =>
      u "query " ++ default [] name
  end.

Definition log (w : World Sim) : list (str * bool) :=
  (λ e, (brief (ev_call e), ev_ok e)) <$> events w.

(** What a run leaves. *)
Definition outcome_of (r : option (Outcome * Disk * World Sim)) : Outcome :=
  match r with Some (o, _, _) => o | None => exited 1 end.

Definition disk_of (r : option (Outcome * Disk * World Sim)) : Disk :=
  match r with Some (_, d, _) => d | None => no_file end.

Definition world_of (r : option (Outcome * Disk * World Sim)) : World Sim :=
  match r with Some (_, _, w) => w | None => sim [] 0 [] end.

(** A first run, without a mapping file, against an empty workspace
    that refuses the pages named in [refuse], and the run after it. *)
Definition first_run (refuse : list str) :=
  syncToNotion env (project two_features) no_file (sim [] 0 refuse).

Definition second_run (refuse : list str) :=
  syncToNotion env (project two_features) (disk_of (first_run refuse))
    (later (world_of (first_run refuse))).

(** The pages "demo" and "Export" of a workspace; [n] requests fail
    first. *)
Definition workspace (n : nat) : World Sim :=
  sim [(u "page-demo", u "demo"); (u "page-old", u "Export")] n [].

(** The same workspace after the page "Export" was deleted. *)
Definition workspace_without_export : World Sim :=
  sim [(u "page-demo", u "demo")] 0 [].

(** A sync state that knows the project page, and no feature. *)
Definition knows_project : Mapping :=
  {| projectPageId := Some (u "page-demo");
     lastSync := None;
     featurePageIds := ∅;
     contentHashes := ∅ |}.

(** A sync state that knows the feature "Export" with an older
    content. *)
Definition knows_older_export : Mapping :=
  {| projectPageId := Some (u "page-demo");
     lastSync := None;
     featurePageIds := {[ u "roadmap/backlog/001.md" := u "page-old" ]};
     contentHashes := {[ u "roadmap/backlog/001.md" := u "00000000" ]} |}.

(** A Subtasks section with Windows line ends. *)
Definition crlf_section : str :=
  u "### Phase 1" ++ [13; 10]
  ++ u "1. [x] Write the exporter" ++ [13; 10].

(** A file of two sections. *)
Definition sections_md : str :=
  u "## Description" ++ [10] ++ u "Dump." ++ [10]
  ++ u "## Subtasks" ++ [10] ++ u "1. Go".

End Example.

Section ParserFacts.

(* ===================================================================== *)
(** * Facts about strings *)
(* ===================================================================== *)

Lemma str_eqb_true (a b : str) : str_eqb a b = true ↔ a = b.
Proof. unfold str_eqb. apply bool_decide_eq_true. Qed.

Lemma includes_true (xs : list str) (x : str) : includes xs x = true ↔ x ∈ xs.
Proof.
unfold includes. rewrite existsb_exists. split.
- intros (y & Hy & Heq). apply str_eqb_true in Heq. subst y.
  by apply list_elem_of_In.
- intros Hx. exists x. split; [by apply list_elem_of_In | by apply str_eqb_true].
Qed.

Lemma includes_false (xs : list str) (x : str) : includes xs x = false ↔ x ∉ xs.
Proof.
rewrite <- includes_true. destruct (includes xs x); split; done.
Qed.

(** ** Character classes *)

Lemma is_space_spec c :
is_space c = true ↔
c = 9 ∨ c = 10 ∨ c = 11 ∨ c = 12 ∨ c = 13 ∨ c = 32 ∨ c = 0xA0 ∨ c = 0x1680
∨ (0x2000 ≤ c ≤ 0x200A) ∨ c = 0x2028 ∨ c = 0x2029 ∨ c = 0x202F
∨ c = 0x205F ∨ c = 0x3000 ∨ c = 0xFEFF.
Proof.
unfold is_space, is_line_terminator.
rewrite !orb_true_iff, !andb_true_iff, !N.eqb_eq, !N.leb_le. lia.
Qed.

Lemma is_digit_spec c : is_digit c = true ↔ 48 ≤ c ≤ 57.
Proof. unfold is_digit. rewrite andb_true_iff, !N.leb_le. lia. Qed.

Lemma is_dot_spec c :
is_dot c = true ↔ c ≠ 10 ∧ c ≠ 13 ∧ c ≠ 0x2028 ∧ c ≠ 0x2029.
Proof.
unfold is_dot, is_line_terminator.
rewrite negb_true_iff, !orb_false_iff, !N.eqb_neq. tauto.
Qed.

Lemma bool_ext (a b : bool) : (a = true ↔ b = true) → a = b.
Proof. destruct a, b; intuition congruence. Qed.

Lemma to_upper_spec c :
(97 ≤ c ≤ 122 ∧ to_upper c = c - 32) ∨ (¬ (97 ≤ c ≤ 122) ∧ to_upper c = c).
Proof.
unfold to_upper. destruct ((97 <=? c) && (c <=? 122)) eqn:E.
- apply andb_true_iff in E. rewrite !N.leb_le in E. left. done.
- right. split; [|done]. intros [? ?].
  apply andb_false_iff in E. rewrite !N.leb_gt in E. lia.
Qed.

Lemma to_lower_spec c :
(65 ≤ c ≤ 90 ∧ to_lower c = c + 32) ∨ (¬ (65 ≤ c ≤ 90) ∧ to_lower c = c).
Proof.
unfold to_lower. destruct ((65 <=? c) && (c <=? 90)) eqn:E.
- apply andb_true_iff in E. rewrite !N.leb_le in E. left. done.
- right. split; [|done]. intros [? ?].
  apply andb_false_iff in E. rewrite !N.leb_gt in E. lia.
Qed.

Lemma is_space_caseless : caseless is_space.
Proof.
intros c. split; apply bool_ext; rewrite !is_space_spec.
- destruct (to_upper_spec c) as [[? ->]|[? ->]]; lia.
- destruct (to_lower_spec c) as [[? ->]|[? ->]]; lia.
Qed.

Lemma is_digit_caseless : caseless is_digit.
Proof.
intros c. split; apply bool_ext; rewrite !is_digit_spec.
- destruct (to_upper_spec c) as [[? ->]|[? ->]]; lia.
- destruct (to_lower_spec c) as [[? ->]|[? ->]]; lia.
Qed.

Lemma is_dot_caseless : caseless is_dot.
Proof.
intros c. split; apply bool_ext; rewrite !is_dot_spec.
- destruct (to_upper_spec c) as [[? ->]|[? ->]]; lia.
- destruct (to_lower_spec c) as [[? ->]|[? ->]]; lia.
Qed.

Lemma cls_matches_caseless fl p c : caseless p → cls_matches fl p c = p c.
Proof.
intros Hp. unfold cls_matches. destruct (ignoreCase fl); [|done].
destruct (Hp c) as [-> ->]. by destruct (p c).
Qed.

Lemma cls_matches_plain fl p c : ignoreCase fl = false → cls_matches fl p c = p c.
Proof. intros E. unfold cls_matches. by rewrite E. Qed.

Lemma chr_matches_refl fl c : chr_matches fl c c = true.
Proof. unfold chr_matches. destruct (ignoreCase fl); apply N.eqb_refl. Qed.

(** A literal that is not a letter matches itself only. *)
Lemma chr_matches_symbol fl c x :
¬ (65 ≤ c ≤ 90) → ¬ (97 ≤ c ≤ 122) → chr_matches fl c x = (x =? c).
Proof.
intros Hc Hc'. unfold chr_matches. destruct (ignoreCase fl); [|done].
apply bool_ext. rewrite !N.eqb_eq.
destruct (to_upper_spec c) as [[? ->]|[? ->]]; [lia|].
destruct (to_upper_spec x) as [[? ->]|[? ->]]; lia.
Qed.

Lemma chr_misses fl c x :
¬ (65 ≤ c ≤ 90) → ¬ (97 ≤ c ≤ 122) → x ≠ c → chr_matches fl c x = false.
Proof. intros. rewrite chr_matches_symbol by done. by apply N.eqb_neq. Qed.

(* ===================================================================== *)
(** * Facts about the matcher *)
(* ===================================================================== *)

#[local] Arguments cls_matches : simpl never.
#[local] Arguments chr_matches : simpl never.
#[local] Arguments is_space : simpl never.
#[local] Arguments is_digit : simpl never.
#[local] Arguments is_dot : simpl never.
#[local] Arguments is_line_terminator : simpl never.
#[local] Arguments at_bol : simpl never.
#[local] Arguments at_eol : simpl never.

Section MatcherFacts.
Variable fl : flags.

(** A greedy star over a run of the class that ends where the class
  stops goes on with the whole run when what follows succeeds. *)
Lemma star_run p k pre run rest cs res :
Forall (λ x, cls_matches fl p x = true) run →
stops (cls_matches fl p) rest →
k (rev run ++ pre, rest) cs = Some res →
star fl p k pre (run ++ rest) cs = Some res.
Proof.
intros Hrun Hstop. revert pre.
induction Hrun as [|x run Hx _ IH]; intros pre Hk; simpl in *.
- destruct rest as [|y rest]; [done|]. simpl in *. by rewrite Hstop.
- rewrite Hx. rewrite (IH (x :: pre)); [done|].
  by rewrite <- app_assoc in Hk.
Qed.

(** It fails when what follows fails after the whole run and wherever
  a character of the class comes next. *)
Lemma star_fails p k pre run rest cs :
Forall (λ x, cls_matches fl p x = true) run →
stops (cls_matches fl p) rest →
(∀ pre' x rest', cls_matches fl p x = true → k (pre', x :: rest') cs = None) →
k (rev run ++ pre, rest) cs = None →
star fl p k pre (run ++ rest) cs = None.
Proof.
intros Hrun Hstop Hin. revert pre.
induction Hrun as [|x run Hx _ IH]; intros pre Hk; simpl in *.
- destruct rest as [|y rest]; [done|]. simpl in *. by rewrite Hstop.
- rewrite Hx. rewrite (IH (x :: pre)); [by apply Hin|].
  by rewrite <- app_assoc in Hk.
Qed.

Lemma rmatch_Plus_run p k pre x run rest cs res :
Forall (λ x, cls_matches fl p x = true) (x :: run) →
stops (cls_matches fl p) rest →
k (rev (x :: run) ++ pre, rest) cs = Some res →
rmatch fl (Plus p) k (pre, x :: run ++ rest) cs = Some res.
Proof.
intros Hrun Hstop Hk. inversion_clear Hrun as [|? ? Hx Hrun'].
simpl. rewrite Hx. apply star_run; [done..|].
simpl in Hk. by rewrite <- app_assoc in Hk.
Qed.

Lemma rmatch_Plus_fails p k pre x run rest cs :
Forall (λ x, cls_matches fl p x = true) (x :: run) →
stops (cls_matches fl p) rest →
(∀ pre' x rest', cls_matches fl p x = true → k (pre', x :: rest') cs = None) →
k (rev (x :: run) ++ pre, rest) cs = None →
rmatch fl (Plus p) k (pre, x :: run ++ rest) cs = None.
Proof.
intros Hrun Hstop Hin Hk. inversion_clear Hrun as [|? ? Hx Hrun'].
simpl. rewrite Hx. apply star_fails; [done..|].
simpl in Hk. by rewrite <- app_assoc in Hk.
Qed.

Lemma rmatch_Plus_miss p k pre rest cs :
stops (cls_matches fl p) rest →
rmatch fl (Plus p) k (pre, rest) cs = None.
Proof. intros Hs. destruct rest as [|x rest]; simpl in *; [done|]. by rewrite Hs. Qed.

Lemma rmatch_Lit s k pre rest cs :
rmatch fl (Lit s) k (pre, s ++ rest) cs = k (rev s ++ pre, rest) cs.
Proof.
revert pre. induction s as [|c s IH]; intros pre; simpl; [done|].
rewrite chr_matches_refl. rewrite IH. by rewrite <- app_assoc.
Qed.

(** A pattern anchored at the start of the input matches there or
  nowhere. *)
Lemma search_anchored r s :
multiline fl = false →
search fl (Seq Bol r) [] s = rmatch fl r (finish) ([], s) [].
Proof.
intros Hm.
assert (Hlater : ∀ rest pre x, search fl (Seq Bol r) (x :: pre) rest = None).
{ induction rest as [|y rest IH]; intros pre x; simpl;
    unfold at_bol; simpl; rewrite Hm; simpl; [done|apply IH]. }
destruct s as [|x s]; simpl; unfold at_bol; simpl.
- by destruct (rmatch fl r finish ([], []) []).
- destruct (rmatch fl r finish ([], x :: s) []); [done|apply Hlater].
Qed.
End MatcherFacts.

(** What a group just closed has captured. *)
Lemma captured_run (run pre : str) :
rev (take (length (rev run ++ pre) - length pre) (rev run ++ pre)) = run.
Proof.
rewrite length_app, length_rev.
replace (length run + length pre - length pre)%nat with (length (rev run)) at 1
  by (rewrite length_rev; lia).
rewrite take_app_length. apply rev_involutive.
Qed.

Section Equations.
Variable fl : flags.
Lemma rmatch_Seq r1 r2 k st cs :
rmatch fl (Seq r1 r2) k st cs = rmatch fl r1 (λ st' cs', rmatch fl r2 k st' cs') st cs.
Proof. done. Qed.
Lemma rmatch_Grp n r k st cs :
rmatch fl (Grp n r) k st cs =
rmatch fl r (λ st' cs', k st' ((n, rev (take (length (fst st') - length (fst st)) (fst st'))) :: cs')) st cs.
Proof. done. Qed.
Lemma rmatch_Eol_end k pre cs : rmatch fl Eol k (pre, []) cs = k (pre, []) cs.
Proof. done. Qed.
Lemma rmatch_Chr_hit c k pre x rest cs :
chr_matches fl c x = true → rmatch fl (Chr c) k (pre, x :: rest) cs = k (x :: pre, rest) cs.
Proof. intros E. simpl. by rewrite E. Qed.
Lemma rmatch_Chr_miss c k pre rest cs :
stops (chr_matches fl c) rest → rmatch fl (Chr c) k (pre, rest) cs = None.
Proof. intros E. destruct rest; simpl in *; [done|]. by rewrite E. Qed.
Lemma rmatch_Cls_hit p k pre x rest cs :
cls_matches fl p x = true → rmatch fl (Cls p) k (pre, x :: rest) cs = k (x :: pre, rest) cs.
Proof. intros E. simpl. by rewrite E. Qed.
Lemma rmatch_Star p k pre rest cs :
rmatch fl (Star p) k (pre, rest) cs = star fl p k pre rest cs.
Proof. done. Qed.
End Equations.

Lemma Forall_cls fl p (s : str) :
caseless p ∨ ignoreCase fl = false →
Forall (λ c, p c = true) s → Forall (λ c, cls_matches fl p c = true) s.
Proof.
intros Hp Hs. eapply Forall_impl; [exact Hs|]. intros c Hc. simpl.
destruct Hp; [by rewrite cls_matches_caseless | by rewrite cls_matches_plain].
Qed.

Lemma stops_cls fl p (x : N) (s : str) :
caseless p ∨ ignoreCase fl = false →
p x = false → stops (cls_matches fl p) (x :: s).
Proof.
intros Hp Hx. simpl.
destruct Hp; [by rewrite cls_matches_caseless | by rewrite cls_matches_plain].
Qed.

Lemma rmatch_Plus_all fl p k pre x run cs res :
Forall (λ x, cls_matches fl p x = true) (x :: run) →
k (rev (x :: run) ++ pre, []) cs = Some res →
rmatch fl (Plus p) k (pre, x :: run) cs = Some res.
Proof.
intros Hrun Hk. rewrite <- (app_nil_r run). by apply rmatch_Plus_run.
Qed.

Ltac cls_side :=
first [ by right
      | left; first [ apply is_space_caseless | apply is_digit_caseless
                    | apply is_dot_caseless ] ].

Ltac run_all :=
apply rmatch_Plus_all; [ by (apply Forall_cls; [cls_side|]) | ].

Lemma str_match_search fl r s st cs :
search fl r [] s = Some (st, cs) → str_match fl r s = Some cs.
Proof. unfold str_match. by intros ->. Qed.

Ltac run_plus :=
apply rmatch_Plus_run;
[ by (apply Forall_cls; [first [by right | left; first [apply is_space_caseless | apply is_digit_caseless | apply is_dot_caseless]]|])
| first [ done | by (apply stops_cls; [first [by right | left; first [apply is_space_caseless | apply is_digit_caseless | apply is_dot_caseless]]|]) ]
| ].

(** The heading pattern reads the text of a heading line. *)
Lemma phase_re_heading line txt :
heading_line line txt →
str_match no_flags phase_re line = Some [(1%nat, txt)].
Proof.
intros (sp & -> & Hsp & Hsps & Htxt & c & txt' & -> & Hc).
destruct sp as [|s0 sp]; [done|].
eapply str_match_search. unfold phase_re. rewrite search_anchored by done.
rewrite rmatch_Seq, rmatch_Lit, rmatch_Seq. simpl app at 2.
run_plus.
rewrite rmatch_Seq, rmatch_Grp.
run_all.
rewrite rmatch_Eol_end. unfold finish. cbn [fst snd].
by rewrite captured_run.
Qed.

Lemma space_not_digit c : is_space c = true → is_digit c = false.
Proof.
intros Hc. apply is_space_spec in Hc.
destruct (is_digit c) eqn:E; [|done]. apply is_digit_spec in E. lia.
Qed.

Lemma digit_not_space c : is_digit c = true → is_space c = false.
Proof.
intros Hc. destruct (is_space c) eqn:E; [|done].
apply space_not_digit in E. congruence.
Qed.

Lemma rmatch_NLook fl r k st cs :
rmatch fl r (finish) st cs = None →
rmatch fl (NLook r) k st cs = k st cs.
Proof. intros E. simpl. by rewrite E. Qed.

Lemma rmatch_Opt_skip fl r k st cs :
rmatch fl r k st cs = None → rmatch fl (Opt r) k st cs = k st cs.
Proof. intros E. simpl. by rewrite E. Qed.

Lemma rmatch_Opt_take fl r k st cs res :
rmatch fl r k st cs = Some res → rmatch fl (Opt r) k st cs = Some res.
Proof. intros E. simpl. by rewrite E. Qed.

(** The pattern of numbered tasks reads the number and the text of a
  numbered line. *)
Lemma numbered_re_numbered line txt :
numbered_line line txt →
∃ ds, str_match no_flags numbered_re line = Some [(2%nat, txt); (1%nat, ds)].
Proof.
intros (ws & ds & sp & -> & Hws & Hds & Hdig & Hsp & Hsps & Htxt
        & c & txt' & -> & Hc & Hc').
destruct ds as [|d0 ds]; [done|]. destruct sp as [|s0 sp]; [done|].
exists (d0 :: ds). eapply str_match_search. unfold numbered_re.
rewrite search_anchored by done.
rewrite rmatch_Seq, rmatch_Star.
apply star_run; [by apply Forall_cls; [cls_side|] | |].
{ apply stops_cls; [cls_side|]. apply digit_not_space.
  by inversion Hdig. }
rewrite rmatch_Seq, rmatch_Grp. simpl app.
run_plus. cbn [fst snd].
rewrite rmatch_Seq, rmatch_Chr_hit by apply chr_matches_refl.
rewrite rmatch_Seq. run_plus.
rewrite rmatch_Seq, rmatch_NLook.
2:{ apply rmatch_Chr_miss. simpl. by apply chr_misses; [lia..|]. }
rewrite rmatch_Seq, rmatch_Grp. run_all.
rewrite rmatch_Eol_end. unfold finish. cbn [fst snd].
by rewrite !captured_run.
Qed.

(** A line that does not start with "#" is no heading. *)
Lemma phase_re_not_hash line :
stops (λ c, c =? 35) line → str_match no_flags phase_re line = None.
Proof.
intros Hl. unfold str_match, phase_re. rewrite search_anchored by done.
rewrite rmatch_Seq. simpl Lit. rewrite rmatch_Seq.
rewrite rmatch_Chr_miss; [done|].
destruct line; simpl in *; [done|]. by rewrite chr_matches_symbol by lia.
Qed.

Lemma space_first_stops_hash (ws rest : str) c :
Forall (λ c, is_space c = true) ws → c ≠ 35 →
stops (λ c, c =? 35) (ws ++ c :: rest).
Proof.
intros Hws Hc. destruct Hws as [|x ws Hx _]; simpl.
- by apply N.eqb_neq.
- apply N.eqb_neq. apply is_space_spec in Hx. lia.
Qed.

Lemma numbered_line_no_heading line txt :
numbered_line line txt → str_match no_flags phase_re line = None.
Proof.
intros (ws & ds & sp & -> & Hws & Hds & Hdig & _).
destruct ds as [|d0 ds]; [done|]. apply phase_re_not_hash.
simpl app. apply space_first_stops_hash; [done|].
inversion_clear Hdig as [|? ? Hd _]. apply is_digit_spec in Hd. lia.
Qed.

(** The tail of the checkbox pattern, from the bracket on, fails on
  anything that does not start with "[". *)
Lemma checkbox_tail_miss fl r k pre rest cs :
stops (λ c, c =? 91) rest →
rmatch fl (Seq (Chr 91) r) k (pre, rest) cs = None.
Proof.
intros Hr. rewrite rmatch_Seq. apply rmatch_Chr_miss.
destruct rest; simpl in *; [done|]. by rewrite chr_matches_symbol by lia.
Qed.

Lemma numbered_line_no_checkbox line txt :
numbered_line line txt → str_match flag_i checkbox_re line = None.
Proof.
intros (ws & ds & sp & -> & Hws & Hds & Hdig & Hsp & Hsps & Htxt
        & c & txt' & -> & Hc & Hc').
destruct ds as [|d0 ds]; [done|].
assert (Hd0 : is_digit d0 = true) by (by inversion Hdig).
unfold str_match, checkbox_re. rewrite search_anchored by done.
rewrite rmatch_Seq, rmatch_Star.
rewrite star_fails; [done | by apply Forall_cls; [cls_side|] | | |].
- apply stops_cls; [cls_side|]. by apply digit_not_space.
- (* a white space comes next: neither a number nor a bracket *)
  intros pre' x rest' Hx. rewrite cls_matches_caseless in Hx by apply is_space_caseless.
  rewrite rmatch_Seq, rmatch_Opt_skip.
  + apply checkbox_tail_miss. simpl. apply N.eqb_neq.
    apply is_space_spec in Hx. lia.
  + rewrite rmatch_Seq. apply rmatch_Plus_miss. simpl.
    rewrite cls_matches_caseless by apply is_digit_caseless.
    by apply space_not_digit.
- (* after the white space: the number is read, no bracket follows *)
  rewrite rmatch_Seq, rmatch_Opt_skip.
  + apply checkbox_tail_miss. simpl. apply N.eqb_neq.
    apply is_digit_spec in Hd0. lia.
  + rewrite rmatch_Seq. simpl app.
    apply rmatch_Plus_fails; [by apply Forall_cls; [cls_side|] | | |].
    * by apply stops_cls; [cls_side|].
    * intros pre' x rest' Hx.
      rewrite cls_matches_caseless in Hx by apply is_digit_caseless.
      rewrite rmatch_Seq. apply rmatch_Chr_miss. simpl.
      apply chr_misses; [lia..|]. apply is_digit_spec in Hx. lia.
    * rewrite rmatch_Seq, rmatch_Chr_hit by apply chr_matches_refl.
      rewrite rmatch_Star.
      apply star_fails; [by apply Forall_cls; [cls_side|] | | |].
      -- by apply stops_cls; [cls_side|].
      -- intros pre' x rest' Hx.
         rewrite cls_matches_caseless in Hx by apply is_space_caseless.
         apply checkbox_tail_miss. simpl. apply N.eqb_neq.
         apply is_space_spec in Hx. lia.
      -- apply checkbox_tail_miss. simpl. by apply N.eqb_neq.
Qed.

Lemma mark_matches b :
b = 120 ∨ b = 88 ∨ b = 32 → cls_matches flag_i is_x_or_blank b = true.
Proof. by intros [->|[->| ->]]. Qed.

(** The checkbox pattern from the bracket on. *)
Lemma checkbox_tail_hit pre b sp txt cs :
b = 120 ∨ b = 88 ∨ b = 32 →
sp ≠ [] → Forall (λ c, is_space c = true) sp →
Forall (λ c, is_dot c = true) txt →
(∃ c txt', txt = c :: txt' ∧ is_space c = false) →
∃ st,
  rmatch flag_i
    (Seq (Chr 91)
       (Seq (Grp 1 (Cls is_x_or_blank))
          (Seq (Chr 93) (Seq (Plus is_space) (Seq (Grp 2 (Plus is_dot)) Eol)))))
    finish (pre, [91; b; 93] ++ sp ++ txt) cs
  = Some (st, (2%nat, txt) :: (1%nat, [b]) :: cs).
Proof.
intros Hb Hsp Hsps Htxt (c & txt' & -> & Hc).
destruct sp as [|s0 sp]; [done|]. eexists.
rewrite rmatch_Seq. simpl app.
rewrite rmatch_Chr_hit by apply chr_matches_refl.
rewrite rmatch_Seq, rmatch_Grp, rmatch_Cls_hit by by apply mark_matches.
cbn [fst snd].
rewrite rmatch_Seq, rmatch_Chr_hit by apply chr_matches_refl.
rewrite rmatch_Seq. run_plus.
rewrite rmatch_Seq, rmatch_Grp. run_all.
rewrite rmatch_Eol_end. unfold finish. cbn [fst snd].
rewrite captured_run.
pose proof (captured_run [b] (91 :: pre)) as E. cbn [rev app] in E.
by rewrite E.
Qed.

(** The checkbox pattern reads the mark and the text of a checkbox
  line. *)
Lemma checkbox_re_checkbox line b txt :
checkbox_line line b txt → b = 120 ∨ b = 88 ∨ b = 32 →
str_match flag_i checkbox_re line = Some [(2%nat, txt); (1%nat, [b])].
Proof.
intros (ws & num & sp & -> & Hws & Hnum & Hsp & Hsps & Htxt & Hvis) Hb.
unfold checkbox_re.
destruct Hnum as [->|(ds & ws' & -> & Hds & Hdig & Hws')].
- destruct (checkbox_tail_hit (rev ws ++ []) b sp txt [] Hb Hsp Hsps Htxt Hvis)
    as [st Hst].
  eapply str_match_search. rewrite search_anchored by done.
  rewrite rmatch_Seq, rmatch_Star. simpl app at 1.
  apply star_run; [by apply Forall_cls; [cls_side|] | by apply stops_cls; [cls_side|] |].
  rewrite rmatch_Seq, rmatch_Opt_skip; [exact Hst|].
  rewrite rmatch_Seq. apply rmatch_Plus_miss.
  by apply stops_cls; [cls_side|].
- destruct ds as [|d0 ds]; [done|].
  destruct (checkbox_tail_hit
              (rev ws' ++ 46 :: rev (d0 :: ds) ++ rev ws ++ []) b sp txt []
              Hb Hsp Hsps Htxt Hvis) as [st Hst].
  eapply str_match_search. rewrite search_anchored by done.
  rewrite rmatch_Seq, rmatch_Star.
  apply star_run; [by apply Forall_cls; [cls_side|] | |].
  { apply stops_cls; [cls_side|]. apply digit_not_space. by inversion Hdig. }
  rewrite rmatch_Seq. apply rmatch_Opt_take.
  rewrite rmatch_Seq. simpl app. rewrite <- !app_assoc. simpl app.
  run_plus.
  rewrite rmatch_Seq, rmatch_Chr_hit by apply chr_matches_refl.
  rewrite rmatch_Star.
  apply star_run; [by apply Forall_cls; [cls_side|] | by apply stops_cls; [cls_side|] |].
  exact Hst.
Qed.

Lemma checkbox_line_no_heading line b txt :
checkbox_line line b txt → str_match no_flags phase_re line = None.
Proof.
intros (ws & num & sp & -> & Hws & Hnum & _).
apply phase_re_not_hash.
destruct Hnum as [->|(ds & ws' & -> & Hds & Hdig & Hws')].
- by apply space_first_stops_hash.
- destruct ds as [|d0 ds]; [done|]. simpl app.
  apply space_first_stops_hash; [done|].
  inversion_clear Hdig as [|? ? Hd _]. apply is_digit_spec in Hd. lia.
Qed.

(** ** Every success goes through the continuation *)

Section Reaches.
Variable fl : flags.

Lemma star_reaches p k pre rest cs res :
star fl p k pre rest cs = Some res →
∃ st, k st cs = Some res.
Proof.
revert pre. induction rest as [|x rest IH]; intros pre; simpl.
- eauto.
- destruct (cls_matches fl p x); [|eauto].
  destruct (star fl p k (x :: pre) rest cs) eqn:E.
  + intros [= <-]. eauto.
  + eauto.
Qed.

Lemma lazy_star_reaches p k pre rest cs res :
lazy_star fl p k pre rest cs = Some res →
∃ st, k st cs = Some res.
Proof.
revert pre. induction rest as [|x rest IH]; intros pre; simpl.
- destruct (k (pre, []) cs) eqn:E; [|done]. intros [= <-]. eauto.
- destruct (k (pre, x :: rest) cs) eqn:E.
  + intros [= <-]. eauto.
  + destruct (cls_matches fl p x); [eauto|done].
Qed.

Lemma rmatch_reaches r : ∀ k st cs res,
rmatch fl r k st cs = Some res → ∃ st' cs', k st' cs' = Some res.
Proof.
induction r as [|c|p|r1 IH1 r2 IH2|r1 IH1 r2 IH2|r1 IH1|p|p|p|n r1 IH1
                |r1 IH1|r1 IH1| |]; intros k [pre rest] cs res; simpl.
- eauto.
- destruct rest as [|x rest]; [done|]. destruct (chr_matches fl c x); [eauto|done].
- destruct rest as [|x rest]; [done|]. destruct (cls_matches fl p x); [eauto|done].
- intros E. apply IH1 in E as (st' & cs' & E). by apply IH2 in E.
- destruct (rmatch fl r1 k (pre, rest) cs) eqn:E.
  + intros [= <-]. by apply IH1 in E.
  + apply IH2.
- destruct (rmatch fl r1 k (pre, rest) cs) eqn:E.
  + intros [= <-]. by apply IH1 in E.
  + eauto.
- intros E. apply star_reaches in E as [st E]. eauto.
- destruct rest as [|x rest]; [done|]. destruct (cls_matches fl p x); [|done].
  intros E. apply star_reaches in E as [st E]. eauto.
- intros E. apply lazy_star_reaches in E as [st E]. eauto.
- intros E. apply IH1 in E as (st' & cs' & E). eauto.
- destruct (rmatch fl r1 finish (pre, rest) cs) as [[? ?]|]; [eauto|done].
- destruct (rmatch fl r1 finish (pre, rest) cs); [done|eauto].
- destruct (at_bol fl (pre, rest)); [eauto|done].
- destruct (at_eol fl (pre, rest)); [eauto|done].
Qed.
End Reaches.

(** A match of the heading pattern has its group. *)
Lemma phase_re_group line m :
str_match no_flags phase_re line = Some m → is_Some (group 1 m).
Proof.
unfold str_match, phase_re. rewrite search_anchored by done.
destruct (rmatch _ _ _ _ _) as [[st cs]|] eqn:E; [|done].
intros [= <-].
rewrite rmatch_Seq in E. apply rmatch_reaches in E as (st1 & cs1 & E).
rewrite rmatch_Seq in E. apply rmatch_reaches in E as (st2 & cs2 & E).
rewrite rmatch_Seq, rmatch_Grp in E. apply rmatch_reaches in E as (st3 & cs3 & E).
simpl in E. destruct (at_eol _ _); [|done]. unfold finish in E.
injection E as _ <-. by eexists.
Qed.

Lemma heading_of_None line :
heading_of line = None → str_match no_flags phase_re line = None.
Proof.
unfold heading_of. destruct (str_match no_flags phase_re line) as [m|] eqn:E; [|done].
destruct (phase_re_group _ _ E) as [g Hg]. simpl. by rewrite Hg.
Qed.

(** ** The loop of parseSubtasks *)

(** A heading sets the phase and pushes nothing. *)
Lemma parseSubtasks_line_heading ph line h :
heading_of line = Some h → parseSubtasks_line ph line = (Some h, []).
Proof.
unfold heading_of, parseSubtasks_line.
destruct (str_match no_flags phase_re line) as [m|]; [|done]. simpl.
by intros ->.
Qed.

(** Any other line leaves the phase as it is. *)
Lemma parseSubtasks_line_other ph line :
heading_of line = None → fst (parseSubtasks_line ph line) = ph.
Proof.
intros E. apply heading_of_None in E. unfold parseSubtasks_line. rewrite E.
destruct (str_match flag_i checkbox_re line); [done|].
by destruct (str_match no_flags numbered_re line).
Qed.

Lemma last_cons_from_option {A} (x : A) (l : list A) (d : option A) :
from_option Some d (last (x :: l)) = from_option Some (Some x) (last l).
Proof.
destruct l as [|y l]; [done|]. rewrite last_cons_cons.
destruct (last (y :: l)) eqn:E; [done|]. by apply last_None in E.
Qed.

(** The turn of the loop for one line, with the lines above and below
  it: the phase it runs with is the most recent heading above. *)
Lemma parseSubtasks_lines_at above line below : ∀ ph,
let ph' := from_option Some ph (most_recent_heading above) in
parseSubtasks_lines ph (above ++ line :: below)
= parseSubtasks_lines ph above
  ++ snd (parseSubtasks_line ph' line)
  ++ parseSubtasks_lines (fst (parseSubtasks_line ph' line)) below.
Proof.
unfold most_recent_heading.
induction above as [|l above IH]; intros ph; simpl.
- by destruct (parseSubtasks_line ph line).
- destruct (heading_of l) as [h|] eqn:E.
  + rewrite (parseSubtasks_line_heading _ _ _ E). simpl.
    rewrite IH. by rewrite last_cons_from_option.
  + pose proof (parseSubtasks_line_other ph l E) as Hph.
    destruct (parseSubtasks_line ph l) as [ph1 pushed]. simpl in Hph. subst ph1.
    rewrite IH. by rewrite <- app_assoc.
Qed.

#[local] Arguments u : simpl never.

(** ** The status of a feature file *)

Lemma feature_status_cases `{Platform} (filePath : str) :
let parts := split_on path_sep filePath in
((u "backlog" ∈ parts) ∧ feature_status filePath = u "Backlog")
∨ ((u "backlog" ∉ parts) ∧ (u "planned" ∈ parts)
   ∧ feature_status filePath = u "Planned")
∨ ((u "backlog" ∉ parts) ∧ (u "planned" ∉ parts) ∧ (u "in-progress" ∈ parts)
   ∧ feature_status filePath = u "In Progress")
∨ ((u "backlog" ∉ parts) ∧ (u "planned" ∉ parts) ∧ (u "in-progress" ∉ parts)
   ∧ (u "completed" ∈ parts) ∧ feature_status filePath = u "Completed")
∨ ((u "backlog" ∉ parts) ∧ (u "planned" ∉ parts) ∧ (u "in-progress" ∉ parts)
   ∧ (u "completed" ∉ parts) ∧ feature_status filePath = u "Backlog").
Proof.
intros parts. unfold feature_status. fold parts.
unfold CONFIG.statusFolders. simpl status_from_folders.
destruct (includes parts (u "backlog")) eqn:E1;
  [apply includes_true in E1 | apply includes_false in E1]; [by left|].
destruct (includes parts (u "planned")) eqn:E2;
  [apply includes_true in E2 | apply includes_false in E2];
  [by right; left|].
destruct (includes parts (u "in-progress")) eqn:E3;
  [apply includes_true in E3 | apply includes_false in E3];
  [by right; right; left|].
destruct (includes parts (u "completed")) eqn:E4;
  [apply includes_true in E4 | apply includes_false in E4];
  [by right; right; right; left|].
by right; right; right; right.
Qed.

(** C9. When several status folders occur among the components of a
  path, the status is that of the first one in the order backlog,
  planned, in-progress, completed, wherever the folders sit in the
  path: it is "Backlog" as soon as "backlog" is a component,
  "Planned" when "planned" is one and "backlog" is not, and so on;
  with "/" as separator roadmap/completed/backlog/x.md is given
  "Backlog". *)
Theorem status_follows_folder_order `{Platform} (content filePath : str) :
let parts := split_on path_sep filePath in
let st := status (parseFeatureFile content filePath) in
(u "backlog" ∈ parts → st = u "Backlog")
∧ (u "backlog" ∉ parts → u "planned" ∈ parts → st = u "Planned")
∧ (u "backlog" ∉ parts → u "planned" ∉ parts → u "in-progress" ∈ parts →
   st = u "In Progress")
∧ (u "backlog" ∉ parts → u "planned" ∉ parts → u "in-progress" ∉ parts →
   u "completed" ∈ parts → st = u "Completed")
∧ (path_sep = 47 →
   status (parseFeatureFile content (u "roadmap/completed/backlog/x.md"))
   = u "Backlog").
Proof.
intros parts st. subst st. simpl status.
pose proof (feature_status_cases filePath) as Hc. fold parts in Hc. simpl in Hc.
repeat split.
- intros. destruct Hc as [?|[?|[?|[?|?]]]]; naive_solver.
- intros. destruct Hc as [?|[?|[?|[?|?]]]]; naive_solver.
- intros. destruct Hc as [?|[?|[?|[?|?]]]]; naive_solver.
- intros. destruct Hc as [?|[?|[?|[?|?]]]]; naive_solver.
- intros Hsep. unfold feature_status. rewrite Hsep. reflexivity.
Qed.

(** C6, as amended.  The status of a parsed feature file is one of
  Backlog, Planned, In Progress and Completed; a file whose path has
  a component "planned" and no component "backlog" gets "Planned",
  and a file whose path has no status folder among its components
  gets "Backlog". *)
Theorem status_from_path `{Platform} (content filePath : str) :
let parts := split_on path_sep filePath in
let st := status (parseFeatureFile content filePath) in
st ∈ [u "Backlog"; u "Planned"; u "In Progress"; u "Completed"]
∧ (u "planned" ∈ parts → u "backlog" ∉ parts → st = u "Planned")
∧ ((∀ folder, folder ∈ (fst <$> CONFIG.statusFolders) → folder ∉ parts) →
   st = u "Backlog").
Proof.
intros parts st. subst st. simpl status.
pose proof (feature_status_cases filePath) as Hc. fold parts in Hc. simpl in Hc.
repeat split.
- destruct Hc as [[_ ->]|[(_&_& ->)|[(_&_&_& ->)|[(_&_&_&_& ->)|(_&_&_&_& ->)]]]];
    set_solver.
- intros. destruct Hc as [?|[?|[?|[?|?]]]]; naive_solver.
- intros Hnone.
  assert (u "backlog" ∉ parts) by (apply Hnone; set_solver).
  assert (u "planned" ∉ parts) by (apply Hnone; set_solver).
  assert (u "in-progress" ∉ parts) by (apply Hnone; set_solver).
  assert (u "completed" ∉ parts) by (apply Hnone; set_solver).
  destruct Hc as [?|[?|[?|[?|?]]]]; naive_solver.
Qed.

(** C10. In the text of a Subtasks section, a numbered line "N. text"
  whose text does not start with a bracket yields a subtask with
  that text, not completed, in the phase of the most recent "###"
  heading above it; a checkbox line yields a subtask that is
  completed exactly when its bracket holds "x" or "X"; and the text
  of a heading is what follows "###". *)
Theorem subtasks_of_numbered_and_checkbox_lines
  (content : str) (above below : list str) (line : str) :
split_on 10 content = above ++ line :: below →
(∀ txt, numbered_line line txt →
   ∃ after,
     parseSubtasks content =
     parseSubtasks_lines None above
     ++ {| st_text := trim txt; st_completed := false;
           st_phase := most_recent_heading above |} :: after)
∧ (∀ b txt, checkbox_line line b txt → b = 120 ∨ b = 88 ∨ b = 32 →
   ∃ after,
     parseSubtasks content =
     parseSubtasks_lines None above
     ++ {| st_text := trim txt;
           st_completed := bool_decide (b = 120 ∨ b = 88);
           st_phase := most_recent_heading above |} :: after)
∧ (∀ h txt, heading_line h txt → heading_of h = Some (trim txt)).
Proof.
intros Hlines. unfold parseSubtasks. rewrite Hlines.
rewrite parseSubtasks_lines_at. simpl from_option.
replace (from_option Some None (most_recent_heading above))
  with (most_recent_heading above) by (by destruct (most_recent_heading above)).
repeat split.
- intros txt Hline. destruct (numbered_re_numbered _ _ Hline) as [ds Hm].
  eexists. f_equal. unfold parseSubtasks_line.
  rewrite (numbered_line_no_heading _ _ Hline),
          (numbered_line_no_checkbox _ _ Hline), Hm. reflexivity.
- intros b txt Hline Hb. eexists. f_equal. unfold parseSubtasks_line.
  rewrite (checkbox_line_no_heading _ _ _ Hline),
          (checkbox_re_checkbox _ _ _ Hline Hb).
  simpl. repeat f_equal.
  destruct Hb as [->|[->| ->]]; reflexivity.
- intros h txt Hh. unfold heading_of.
  by rewrite (phase_re_heading _ _ Hh).
Qed.

End ParserFacts.

Section JsonFacts.

#[local] Arguments u : simpl never.

(* ===================================================================== *)
(** * Facts about JSON texts *)
(* ===================================================================== *)

(** ** Hexadecimal escapes *)

Lemma hex_value_digit d : d < 16 → hex_value (hex_digit d) = Some d.
Proof.
intros Hd. unfold hex_digit, hex_value, is_digit.
destruct (N.ltb_spec d 10).
- replace ((48 <=? 48 + d) && (48 + d <=? 57)) with true.
  + f_equal. lia.
  + symmetry. apply andb_true_iff. rewrite !N.leb_le. lia.
- replace ((48 <=? 87 + d) && (87 + d <=? 57)) with false.
  + replace ((97 <=? 87 + d) && (87 + d <=? 102)) with true.
    * f_equal. lia.
    * symmetry. apply andb_true_iff. rewrite !N.leb_le. lia.
  + symmetry. apply andb_false_iff. rewrite !N.leb_gt. lia.
Qed.

Lemma hex4_value_hex4 c :
c < 65536 →
match hex4 c with
| [h1; h2; h3; h4] => hex4_value h1 h2 h3 h4 = Some c
| _ => False
end.
Proof.
intros Hc. unfold hex4, hex4_value.
rewrite !hex_value_digit by (apply N.mod_lt; lia). simpl. f_equal.
pose proof (N.div_mod c 16) as H1.
pose proof (N.div_mod (c / 16) 16) as H2.
pose proof (N.div_mod (c / 256) 16) as H3.
rewrite N.Div0.div_div in H2. rewrite N.Div0.div_div in H3.
change (16 * 16) with 256 in H2. change (256 * 16) with 4096 in H3.
assert (c / 4096 < 16) by (apply N.Div0.div_lt_upper_bound; lia).
rewrite (N.mod_small (c / 4096) 16) by done.
lia.
Qed.

(** ** String literals *)

#[local] Arguments quote_one : simpl never.

Lemma quote_one_parse c tl acc :
parse_chars (quote_one c ++ tl) acc = parse_chars tl (c :: acc).
Proof.
unfold quote_one.
destruct (N.eqb_spec c 8) as [->|?]; [done|].
destruct (N.eqb_spec c 9) as [->|?]; [done|].
destruct (N.eqb_spec c 10) as [->|?]; [done|].
destruct (N.eqb_spec c 12) as [->|?]; [done|].
destruct (N.eqb_spec c 13) as [->|?]; [done|].
destruct (N.eqb_spec c 34) as [->|?]; [done|].
destruct (N.eqb_spec c 92) as [->|?]; [done|].
destruct ((c <? 32) || is_lead_surrogate c || is_trail_surrogate c) eqn:E.
- assert (Hc : c < 65536).
  { unfold is_lead_surrogate, is_trail_surrogate in E.
    rewrite !orb_true_iff, !andb_true_iff, N.ltb_lt, !N.leb_le in E. lia. }
  pose proof (hex4_value_hex4 c Hc) as Hh. unfold escape_u.
  unfold hex4 in *. cbn [app parse_chars]. cbn [N.eqb Pos.eqb].
  by rewrite Hh.
- apply orb_false_iff in E as [E _]. apply orb_false_iff in E as [E _].
  apply N.ltb_ge in E. cbn [app parse_chars].
  destruct (N.eqb_spec c 34); [done|]. destruct (N.eqb_spec c 92); [done|].
  destruct (N.ltb_spec c 32); [lia|]. done.
Qed.

Lemma surrogate_raw c tl acc :
0xD800 ≤ c → parse_chars (c :: tl) acc = parse_chars tl (c :: acc).
Proof.
intros Hc. cbn [parse_chars].
destruct (N.eqb_spec c 34); [lia|]. destruct (N.eqb_spec c 92); [lia|].
destruct (N.ltb_spec c 32); [lia|]. done.
Qed.

Lemma parse_chars_quote_chars_upto n : ∀ s acc rest,
(length s ≤ n)%nat →
parse_chars (quote_chars s ++ 34 :: rest) acc = Some (rev acc ++ s, rest).
Proof.
induction n as [|n IH]; intros s acc rest Hn.
{ destruct s; [|simpl in Hn; lia]. simpl. by rewrite app_nil_r. }
destruct s as [|c s]; simpl.
- by rewrite app_nil_r.
- simpl in Hn. destruct (is_lead_surrogate c) eqn:Hlead.
  + destruct s as [|d s].
    * rewrite quote_one_parse. simpl. by rewrite <- ?app_assoc.
    * destruct (is_trail_surrogate d) eqn:Htrail.
      -- unfold is_lead_surrogate, is_trail_surrogate in *.
         apply andb_true_iff in Hlead as [Hl _], Htrail as [Ht _].
         apply N.leb_le in Hl, Ht.
         cbn [app]. rewrite !surrogate_raw by lia.
         rewrite IH by (simpl in Hn; lia). simpl. by rewrite <- ?app_assoc.
      -- rewrite <- app_assoc, quote_one_parse.
         rewrite (IH (d :: s)) by lia. simpl. by rewrite <- ?app_assoc.
  + rewrite <- app_assoc, quote_one_parse.
    rewrite IH by lia. simpl. by rewrite <- ?app_assoc.
Qed.

Lemma parse_chars_quote_chars s acc rest :
parse_chars (quote_chars s ++ 34 :: rest) acc = Some (rev acc ++ s, rest).
Proof. by apply (parse_chars_quote_chars_upto (length s)). Qed.

Lemma parse_chars_quote s rest :
∃ body, quote s ++ rest = 34 :: body ∧ parse_chars body [] = Some (s, rest).
Proof.
exists (quote_chars s ++ 34 :: rest). split.
- unfold quote. simpl. by rewrite <- ?app_assoc.
- apply parse_chars_quote_chars.
Qed.

(** ** White space *)

#[local] Arguments is_json_ws : simpl never.

Lemma skip_ws_stop c r : is_json_ws c = false → skip_ws (c :: r) = c :: r.
Proof. intros E. unfold skip_ws. simpl. by rewrite E. Qed.

Lemma skip_ws_pad n r : skip_ws (pad n ++ r) = skip_ws r.
Proof. induction n as [|n IH]; [done|]. exact IH. Qed.

Lemma skip_ws_line n r : skip_ws (10 :: pad n ++ r) = skip_ws r.
Proof. exact (skip_ws_pad n r). Qed.

Lemma skip_ws_idem s : skip_ws (skip_ws s) = skip_ws s.
Proof.
unfold skip_ws. induction s as [|c s IH]; [done|]. simpl.
destruct (is_json_ws c) eqn:E; [done|]. simpl. by rewrite E.
Qed.

(** Reading a value starts by skipping white space. *)
Lemma parse_value_skip n s : parse n PValue (skip_ws s) = parse n PValue s.
Proof. destruct n; [done|]. simpl. by rewrite skip_ws_idem. Qed.

(** ** Values *)

Lemma stringify_opens indent v :
number_free v → ∃ c r, stringify indent v = c :: r ∧ opens_value c.
Proof.
destruct v as [|[|]|l|s|[|x xs]|[|m ms]]; simpl; try done;
  intros _; eexists _, _; (split; [reflexivity|]); by repeat split.
Qed.

Lemma quote_length s : (2 ≤ length (quote s))%nat.
Proof. unfold quote. simpl. rewrite length_app. simpl. lia. Qed.

(** Induction on values, with the hypothesis for every item of an array
  and every member of an object. *)
Lemma json_nested_ind (P : json → Prop) :
P JNull → (∀ b, P (JBool b)) → (∀ l, P (JNum l)) → (∀ s, P (JStr s)) →
(∀ xs, Forall P xs → P (JArr xs)) →
(∀ ms, Forall (λ m, P (snd m)) ms → P (JObj ms)) →
∀ v, P v.
Proof.
intros Hnull Hbool Hnum Hstr Harr Hobj.
refine (fix go (v : json) : P v :=
          match v with
          | JNull => Hnull
          | JBool b => Hbool b
          | JNum l => Hnum l
          | JStr s => Hstr s
          | JArr xs =>
              Harr xs
                ((fix items (l : list json) : Forall P l :=
                    match l with
                    | [] => Forall_nil_2 _
                    | x :: l' => Forall_cons_2 _ _ _ (go x) (items l')
                    end) xs)
          | JObj ms =>
              Hobj ms
                ((fix items (l : list (str * json)) : Forall (λ m, P (snd m)) l :=
                    match l with
                    | [] => Forall_nil_2 _
                    | m :: l' => Forall_cons_2 _ _ _ (go (snd m)) (items l')
                    end) ms)
          end).
Qed.

Ltac solve_length :=
unfold Nat.lt in *; cbn [app] in *;
repeat (rewrite ?length_app in *; cbn [length] in * ); lia.

(** One member and what follows it. *)
Lemma parse_member n acc k x indent tail :
number_free x → reads_back x →
Nat.lt (length (quote k ++ [58; 32] ++ stringify indent x ++ tail)) n →
parse (S n) (PMembers acc)
  (10 :: pad indent ++ quote k ++ [58; 32] ++ stringify indent x ++ tail)
= match skip_ws tail with
  | c :: s =>
      if c =? 44 then parse n (PMembers ((k, x) :: acc)) s
      else if c =? 125 then Some (JObj (rev ((k, x) :: acc)), s)
      else None
  | [] => None
  end.
Proof.
intros Hfree Hx Hn.
destruct (parse_chars_quote k ([58; 32] ++ stringify indent x ++ tail))
  as (body & Hbody & Hparse).
cbn [parse]. rewrite skip_ws_line.
rewrite Hbody. rewrite (skip_ws_stop 34 body) by done. cbn [N.eqb Pos.eqb].
rewrite Hparse. cbn [app]. rewrite (skip_ws_stop 58) by done.
cbn [N.eqb Pos.eqb].
rewrite <- (parse_value_skip n (32 :: _)).
change (skip_ws (32 :: stringify indent x ++ tail))
  with (skip_ws (stringify indent x ++ tail)).
rewrite parse_value_skip.
rewrite Hx; [done|].
pose proof (quote_length k). solve_length.
Qed.

Lemma parse_members n : ∀ ms acc k x indent indent' rest,
number_free x → reads_back x →
Forall (λ m, number_free (snd m) ∧ reads_back (snd m)) ms →
let print := λ m : str * json,
  quote (fst m) ++ [58; 32] ++ stringify indent (snd m) in
let text :=
  quote k ++ [58; 32] ++ stringify indent x ++ separated print indent ms
  ++ [10] ++ pad indent' ++ [125] ++ rest in
Nat.lt (length text) n →
parse (S n) (PMembers acc) (10 :: pad indent ++ text)
= Some (JObj (rev acc ++ (k, x) :: ms), rest).
Proof.
induction n as [|n IH]; intros ms acc k x indent indent' rest Hfree Hx Hms print text Hn.
{ exfalso. clear -Hn. unfold Nat.lt in Hn. lia. }
subst text. rewrite parse_member; [|done|done|solve_length].
destruct ms as [|[k' y] ms]; cbn [separated].
- cbn [app]. rewrite skip_ws_line, (skip_ws_stop 125) by done.
  cbn [N.eqb Pos.eqb]. done.
- inversion_clear Hms as [|? ? [Hfy Hy] Hms'].
  cbn [app]. rewrite (skip_ws_stop 44) by done. cbn [N.eqb Pos.eqb].
  subst print. cbn beta. cbn [fst snd]. rewrite <- !app_assoc.
  replace (rev acc ++ (k, x) :: (k', y) :: ms)
    with (rev ((k, x) :: acc) ++ (k', y) :: ms)
    by (simpl; by rewrite <- app_assoc).
  apply IH; [done..|].
  cbn beta in *. cbn [fst snd separated] in *. solve_length.
Qed.

Lemma parse_value_line n indent s :
parse n PValue (10 :: pad indent ++ s) = parse n PValue s.
Proof. by rewrite <- parse_value_skip, skip_ws_line, parse_value_skip. Qed.

(** One element and what follows it. *)
Lemma parse_element n acc x indent tail :
reads_back x →
Nat.lt (length (stringify indent x ++ tail)) n →
parse (S n) (PElements acc) (10 :: pad indent ++ stringify indent x ++ tail)
= match skip_ws tail with
  | c :: s =>
      if c =? 44 then parse n (PElements (x :: acc)) s
      else if c =? 93 then Some (JArr (rev (x :: acc)), s)
      else None
  | [] => None
  end.
Proof.
intros Hx Hn. cbn [parse]. rewrite parse_value_line. by rewrite Hx.
Qed.

Lemma parse_elements n : ∀ xs acc x indent indent' rest,
reads_back x → Forall reads_back xs →
let text :=
  stringify indent x ++ separated (stringify indent) indent xs
  ++ 10 :: pad indent' ++ 93 :: rest in
Nat.lt (length text) n →
parse (S n) (PElements acc) (10 :: pad indent ++ text)
= Some (JArr (rev acc ++ x :: xs), rest).
Proof.
induction n as [|n IH]; intros xs acc x indent indent' rest Hx Hxs text Hn.
{ exfalso. clear -Hn. unfold Nat.lt in Hn. lia. }
subst text. rewrite parse_element; [|done|solve_length].
destruct xs as [|y xs]; cbn [separated].
- cbn [app]. rewrite skip_ws_line, (skip_ws_stop 93) by done.
  cbn [N.eqb Pos.eqb]. done.
- inversion_clear Hxs as [|? ? Hy Hxs'].
  cbn [app]. rewrite (skip_ws_stop 44) by done. cbn [N.eqb Pos.eqb].
  rewrite <- ?app_assoc.
  replace (rev acc ++ x :: y :: xs) with (rev (x :: acc) ++ y :: xs)
    by (simpl; by rewrite <- app_assoc).
  apply IH; [done..|].
  cbn [separated] in *. solve_length.
Qed.

(** The parser reads back the text of every value without a number. *)
Lemma parse_stringify v : number_free v → reads_back v.
Proof.
induction v as [|b|l|s|xs IH|ms IH] using json_nested_ind; intros Hfree.
- intros indent [|n] rest Hn; [solve_length|]. reflexivity.
- intros indent [|n] rest Hn; [solve_length|]. by destruct b.
- done.
- intros indent [|n] rest Hn; [solve_length|]. cbn [stringify].
  destruct (parse_chars_quote s rest) as (body & -> & Hparse).
  cbn [parse]. rewrite (skip_ws_stop 34) by done. cbn [N.eqb Pos.eqb].
  by rewrite Hparse.
- intros indent [|n] rest Hn; [solve_length|]. cbn [stringify] in *.
  destruct xs as [|x xs]; [reflexivity|].
  simpl in Hfree. destruct Hfree as [Hfx Hfxs].
  inversion_clear IH as [|? ? IHx IHxs].
  assert (Hxs : Forall reads_back xs).
  { clear -Hfxs IHxs. induction IHxs as [|y xs Hy _ IH]; constructor.
    - apply Hy. by destruct Hfxs.
    - apply IH. by destruct Hfxs. }
  unfold bracketed in *. rewrite <- !app_assoc in *. cbn [app] in *.
  cbn [parse]. rewrite (skip_ws_stop 91) by done. cbn [N.eqb Pos.eqb].
  rewrite skip_ws_line.
  destruct (stringify_opens (indent + 2) x Hfx) as (c & r & Hc & Hws & Hc93 & _).
  rewrite Hc at 1. cbn [app]. rewrite (skip_ws_stop c) by done.
  apply N.eqb_neq in Hc93. rewrite Hc93.
  destruct n as [|n]; [solve_length|].
  apply (parse_elements n xs [] x (indent + 2) indent rest); [by apply IHx | done |].
  solve_length.
- intros indent [|n] rest Hn; [solve_length|]. cbn [stringify] in *.
  destruct ms as [|[k x] ms]; [reflexivity|].
  simpl in Hfree. destruct Hfree as [Hfx Hfms].
  inversion_clear IH as [|? ? IHx IHms].
  assert (Hms : Forall (λ m, number_free (snd m) ∧ reads_back (snd m)) ms).
  { clear -Hfms IHms. induction IHms as [|y ms Hy _ IH]; constructor.
    - destruct Hfms. split; [done|]. by apply Hy.
    - apply IH. by destruct Hfms. }
  unfold bracketed in *. cbn [fst snd] in *.
  rewrite <- !app_assoc in *. cbn [app] in *.
  cbn [parse]. rewrite (skip_ws_stop 123) by done. cbn [N.eqb Pos.eqb].
  rewrite skip_ws_line. unfold quote at 1. cbn [app].
  rewrite (skip_ws_stop 34) by done. cbn [N.eqb Pos.eqb].
  destruct n as [|n]; [solve_length|].
  apply (parse_members n ms [] k x (indent + 2) indent rest); [done | by apply IHx | done |].
  cbn beta. solve_length.
Qed.

(** [JSON.parse] reads back what [JSON.stringify] writes. *)
Lemma JSON_parse_stringify v :
number_free v → JSON_parse (JSON_stringify v) = Some v.
Proof.
intros Hfree. unfold JSON_parse, JSON_stringify.
pose proof (parse_stringify v Hfree 0%nat (S (length (stringify 0 v))) []) as H.
rewrite app_nil_r in H. rewrite H; [done|lia].
Qed.

(* ===================================================================== *)
(** * Facts about the mapping file *)
(* ===================================================================== *)

Lemma number_free_table (t : gmap str str) : number_free (json_of_table t).
Proof.
unfold json_of_table. simpl. induction (map_to_list t) as [|kv l IH]; simpl; done.
Qed.

Lemma number_free_mapping m : number_free (json_of_mapping m).
Proof.
unfold json_of_mapping. simpl.
repeat split; try apply number_free_table.
- by destruct (projectPageId m).
- by destruct (lastSync m).
Qed.

Lemma opt_of_json_of_opt o : opt_of_json (Some (json_of_opt o)) = Some o.
Proof. by destruct o. Qed.

Lemma table_of_members_inserts (l : list (str * str)) : ∀ acc : gmap str str,
table_of_members (map (λ kv, (fst kv, JStr (snd kv))) l) acc
= Some (list_to_map (rev l) ∪ acc).
Proof.
induction l as [|[k v] l IH]; intros acc; simpl.
- by rewrite (left_id_L ∅ (∪)).
- rewrite IH. f_equal. rewrite list_to_map_app. simpl.
  rewrite <- (assoc_L (∪)). f_equal.
  rewrite insert_empty. by rewrite <- insert_union_singleton_l.
Qed.

Lemma rev_reverse {A} (l : list A) : rev l = reverse l.
Proof. unfold reverse. apply rev_alt. Qed.

Lemma table_of_json_of_table (t : gmap str str) :
table_of_json (Some (json_of_table t)) = Some t.
Proof.
unfold table_of_json, json_of_table. rewrite table_of_members_inserts.
f_equal. rewrite (right_id_L ∅ (∪)).
rewrite <- (list_to_map_to_list t) at 2.
rewrite rev_reverse. apply list_to_map_proper.
- rewrite fmap_reverse, reverse_Permutation. apply NoDup_fst_map_to_list.
- apply reverse_Permutation.
Qed.

Lemma get_prop_mapping (a b c d : json) :
let v := JObj [ (u "projectPageId", a); (u "lastSync", b);
                (u "featurePageIds", c); (u "contentHashes", d) ] in
get_prop (u "projectPageId") v = Some a
∧ get_prop (u "lastSync") v = Some b
∧ get_prop (u "featurePageIds") v = Some c
∧ get_prop (u "contentHashes") v = Some d.
Proof. done. Qed.

(** A mapping is the sync state its JavaScript value is. *)
Lemma mapping_of_json_of_mapping m : mapping_of_json (json_of_mapping m) = Some m.
Proof.
unfold mapping_of_json, json_of_mapping.
destruct (get_prop_mapping (json_of_opt (projectPageId m))
            (json_of_opt (lastSync m)) (json_of_table (featurePageIds m))
            (json_of_table (contentHashes m))) as (-> & -> & -> & ->).
rewrite !opt_of_json_of_opt, !table_of_json_of_table. simpl.
by destruct m.
Qed.

Lemma loadMapping_saveMapping (mapping : Mapping) (d d' : Disk) :
saveMapping mapping d = Some d' →
mapping_of_json (loadMapping d') = Some mapping.
Proof.
unfold saveMapping. destruct (writable d); [|done]. intros [= <-].
unfold loadMapping. simpl.
rewrite JSON_parse_stringify by apply number_free_mapping.
apply mapping_of_json_of_mapping.
Qed.

(** C7. Saving a sync state with [saveMapping] and loading the file
  with [loadMapping] gives back a state with the same table of page
  ids and the same table of content hashes, and the same project
  page id and time of the last sync. *)
Theorem mapping_round_trip (mapping : Mapping) (d d' : Disk) :
saveMapping mapping d = Some d' →
∃ loaded,
  mapping_of_json (loadMapping d') = Some loaded
  ∧ featurePageIds loaded = featurePageIds mapping
  ∧ contentHashes loaded = contentHashes mapping
  ∧ projectPageId loaded = projectPageId mapping
  ∧ lastSync loaded = lastSync mapping.
Proof.
intros Hsave. exists mapping.
by rewrite (loadMapping_saveMapping mapping d d' Hsave).
Qed.


End JsonFacts.

Section RequestFacts.

#[local] Arguments u : simpl never.

(* ===================================================================== *)
(** * Facts about asynchronous code *)
(* ===================================================================== *)

Section Async.
Context {W : Type}.

Lemma bind_run {A B} (m : M W A) (k : A → M W B) w :
(m ≫= k) w
= match m w with
  | (Ok a, w') => k a w'
  | (Thrown, w') => (Thrown, w')
  end.
Proof. done. Qed.

Lemma ret_run {A} (a : A) (w : World W) : (mret a : M W A) w = (Ok a, w).
Proof. done. Qed.

Lemma emits_ret {A} P (a : A) : emits P (mret a : M W A).
Proof. intros w. exists []. by rewrite app_nil_r. Qed.

Lemma emits_bind {A B} P (m : M W A) (k : A → M W B) :
emits P m → (∀ a, emits P (k a)) → emits P (m ≫= k).
Proof.
intros Hm Hk w. rewrite bind_run.
destruct (Hm w) as (evs & He & Hevs).
destruct (m w) as [[a|] w']; simpl in *.
- destruct (Hk a w') as (evs' & He' & Hevs').
  exists (evs ++ evs'). rewrite He', He, <- app_assoc. split; [done|].
  by apply Forall_app.
- by exists evs.
Qed.

Lemma emits_try_catch {A} P (m h : M W A) :
emits P m → emits P h → emits P (try_catch m h).
Proof.
intros Hm Hh w. unfold try_catch.
destruct (Hm w) as (evs & He & Hevs).
destruct (m w) as [[a|] w']; simpl in *.
- by exists evs.
- destruct (Hh w') as (evs' & He' & Hevs').
  exists (evs ++ evs'). rewrite He', He, <- app_assoc. split; [done|].
  by apply Forall_app.
Qed.

Lemma emits_request {A} (P : Event → Prop) c (send : W → option A * W) :
(∀ b, P {| ev_call := c; ev_ok := b |}) → emits P (request c send).
Proof.
intros Hc w. unfold request, after. simpl.
eexists; (split; [reflexivity|]); repeat constructor; apply Hc.
Qed.

Lemma emits_weaken {A} (P Q : Event → Prop) (m : M W A) :
(∀ e, P e → Q e) → emits P m → emits Q m.
Proof.
intros HPQ Hm w. destruct (Hm w) as (evs & He & Hevs).
exists evs. split; [done|]. by eapply Forall_impl.
Qed.

(** What was issued is what the record has gained. *)
Lemma emits_issued {A} P (m : M W A) w : emits P m → Forall P (issued m w).
Proof.
intros Hm. destruct (Hm w) as (evs & He & Hevs).
unfold issued. rewrite He. by rewrite drop_app_length.
Qed.

Lemma emits_events {A} (m : M W A) w :
emits (λ _, True) m → events (snd (m w)) = events w ++ issued m w.
Proof.
intros Hm. destruct (Hm w) as (evs & He & _).
unfold issued. rewrite He. by rewrite drop_app_length.
Qed.
End Async.

(** Splitting a computation into its requests. *)
Ltac emits_step :=
lazymatch goal with
| |- emits _ (mret _) => apply emits_ret
| |- emits _ (_ ≫= _) => apply emits_bind; [|intros ?]
| |- emits _ (try_catch _ _) => apply emits_try_catch
| |- emits _ (request _ _) => apply emits_request; intros ?
| |- emits _ (if ?b then _ else _) => destruct b
| |- emits _ (match ?x with _ => _ end) => destruct x
end.

Section SyncFacts.
Context `{Platform} {W : Type} `{Notion W}.
Variable env : Env.

Lemma emits_delete_blocks P blocks :
(∀ id b, P {| ev_call := blocks_delete id; ev_ok := b |}) →
emits (W:=W) P (delete_blocks blocks).
Proof.
intros HP. induction blocks as [|block blocks IH]; simpl.
- apply emits_ret.
- apply emits_bind; [|by intros ?].
  apply emits_try_catch; [|apply emits_ret].
  unfold notion_blocks_delete. by apply emits_request.
Qed.

Lemma emits_syncFeature feature projectPageId mapping :
emits (W:=W) (λ e, feature_request (ev_call e))
  (syncFeature env feature projectPageId mapping).
Proof.
unfold syncFeature, create_feature, update_existing, notion_pages_retrieve,
  notion_pages_update, notion_pages_create, notion_blocks_children_list,
  notion_blocks_children_append.
repeat first [ done | apply emits_delete_blocks | emits_step ].
Qed.

Lemma request_run {A} (c : Call) (send : W → option A * W) (w : World W) :
request c send w
= (match fst (send (remote w)) with Some a => Ok a | None => Thrown end,
   after c (send (remote w)) w).
Proof. done. Qed.

(** A probe whose failure is caught. *)
Lemma probe_run {A} (id : str) (found missing : A) (w : World W) :
try_catch (notion_pages_retrieve id ≫= λ _, mret found) (mret missing) w
= (Ok (if fst (retrieve_page id (remote w)) is Some _ then found else missing),
   after (pages_retrieve id) (retrieve_page id (remote w)) w).
Proof.
unfold try_catch. rewrite bind_run. unfold notion_pages_retrieve.
rewrite request_run.
by destruct (retrieve_page id (remote w)) as [[[]|] r'].
Qed.

Lemma emits_after_probe feature projectPageId id :
emits (W:=W) (λ _, True)
  (kept ← try_catch
            (update_existing id (feature_properties feature projectPageId)
               (feature_children feature);; mret (Some id))
            (mret None);
   match kept with
   | Some id => mret (id, updated)
   | None => create_feature env feature projectPageId
   end).
Proof.
unfold create_feature, update_existing, notion_pages_retrieve,
  notion_pages_update, notion_pages_create, notion_blocks_children_list,
  notion_blocks_children_append.
repeat first [ done | apply emits_delete_blocks | emits_step ].
Qed.

(** The probe of [syncFeature] and what it leaves to do. *)
Lemma syncFeature_probe feature projectPageId mapping id (w : World W) :
featurePageIds mapping !! filePath feature = Some id →
truthy id = true →
contentHashes mapping !! filePath feature = Some (hash feature) →
let w1 := after (pages_retrieve id) (retrieve_page id (remote w)) w in
(is_Some (fst (retrieve_page id (remote w))) ∧
 syncFeature env feature projectPageId mapping w = (Ok (id, unchanged), w1))
∨ (fst (retrieve_page id (remote w)) = None ∧
   ∃ evs, events (snd (syncFeature env feature projectPageId mapping w))
          = events w1 ++ evs).
Proof.
intros Hid Hty Hhash w1. unfold syncFeature. rewrite Hid, Hhash, Hty.
rewrite bool_decide_eq_true_2 by done. cbn [andb].
rewrite bind_run, probe_run. fold w1.
destruct (fst (retrieve_page id (remote w))) as [[]|] eqn:E.
- left. split; [by eexists|]. done.
- right. split; [done|].
  destruct (emits_after_probe feature projectPageId id w1) as (evs & He & _).
  by exists evs.
Qed.

(** An attempt whose failure is caught. *)
Lemma attempt_run {A B} (m : M W A) (yes no : B) (w : World W) :
try_catch (m ≫= λ _, mret yes) (mret no) w
= (Ok (match fst (m w) with Ok _ => yes | Thrown => no end), snd (m w)).
Proof.
unfold try_catch. rewrite bind_run. by destruct (m w) as [[a|] w'].
Qed.

Lemma create_feature_run feature projectPageId (w : World W) :
let c := pages_create (NOTION_FEATURES_DB_ID env)
           (feature_properties feature projectPageId)
           (feature_children feature) in
let answer := create_page (NOTION_FEATURES_DB_ID env)
           (feature_properties feature projectPageId)
           (feature_children feature) (remote w) in
create_feature env feature projectPageId w
= (match fst answer with Some id => Ok (id, created) | None => Thrown end,
   after c answer w).
Proof.
intros c answer. unfold create_feature, notion_pages_create.
rewrite bind_run, request_run. fold answer.
by destruct (fst answer).
Qed.

(** [syncFeature] without a page id it can use: the page is created. *)
Lemma syncFeature_fresh feature projectPageId mapping (w : World W) :
truthy_opt (featurePageIds mapping !! filePath feature) = false →
syncFeature env feature projectPageId mapping w
= create_feature env feature projectPageId w.
Proof.
intros Hid. unfold syncFeature.
destruct (featurePageIds mapping !! filePath feature) as [id|]; simpl in Hid.
- by rewrite Hid.
- done.
Qed.

(** [syncFeature] with a page id it can use and a changed hash, or
  after a failed probe: from [w1] on, the page is updated, and
  created when the update throws. *)
Lemma syncFeature_update feature projectPageId mapping id (w : World W) :
featurePageIds mapping !! filePath feature = Some id →
truthy id = true →
let probing :=
  bool_decide (contentHashes mapping !! filePath feature = Some (hash feature)) in
let w1 :=
  if probing
  then after (pages_retrieve id) (retrieve_page id (remote w)) w else w in
(probing = true → fst (retrieve_page id (remote w)) = None) →
let attempt :=
  update_existing id (feature_properties feature projectPageId)
    (feature_children feature) w1 in
syncFeature env feature projectPageId mapping w
= match fst attempt with
  | Ok _ => (Ok (id, updated), snd attempt)
  | Thrown => create_feature env feature projectPageId (snd attempt)
  end.
Proof.
intros Hid Hty probing w1 Hprobe attempt. unfold syncFeature.
rewrite Hid, Hty. fold probing. cbn [andb].
rewrite bind_run.
assert (Hfirst :
  (if probing
   then try_catch (notion_pages_retrieve id;; mret (Some id)) (mret None)
   else mret None) w = (Ok None, w1)).
{ subst w1. destruct probing.
  - rewrite probe_run. by rewrite Hprobe.
  - done. }
rewrite Hfirst. rewrite bind_run, attempt_run. fold attempt.
by destruct (fst attempt).
Qed.

Lemma emits_update_existing id properties children :
emits (W:=W) (λ _, True) (update_existing id properties children).
Proof.
unfold update_existing, notion_pages_update, notion_blocks_children_list,
  notion_blocks_children_append.
repeat first [ done | apply emits_delete_blocks | emits_step ].
Qed.

(** The three ways through [syncFeature]: the page is found
  unchanged; it is updated; or, with no usable id or after a failed
  update, it is created. *)
Lemma syncFeature_cases feature projectPageId mapping (w : World W) :
(∃ id, featurePageIds mapping !! filePath feature = Some id
       ∧ truthy id = true
       ∧ syncFeature env feature projectPageId mapping w
         = (Ok (id, unchanged),
            after (pages_retrieve id) (retrieve_page id (remote w)) w))
∨ (∃ id w1, featurePageIds mapping !! filePath feature = Some id
       ∧ truthy id = true
       ∧ syncFeature env feature projectPageId mapping w
         = (Ok (id, updated), w1))
∨ (∃ w1 evs, events w1 = events w ++ evs
       ∧ syncFeature env feature projectPageId mapping w
         = create_feature env feature projectPageId w1).
Proof.
destruct (featurePageIds mapping !! filePath feature) as [id|] eqn:Hid;
  [destruct (truthy id) eqn:Hty|].
- set (probing := bool_decide
         (contentHashes mapping !! filePath feature = Some (hash feature))).
  assert (Hupd : (probing = true → fst (retrieve_page id (remote w)) = None) →
            (∃ w1 : World W, syncFeature env feature projectPageId mapping w
                   = (Ok (id, updated), w1))
            ∨ (∃ (w1 : World W) evs, events w1 = events w ++ evs
                 ∧ syncFeature env feature projectPageId mapping w
                   = create_feature env feature projectPageId w1)).
  { intros Hp.
    rewrite (syncFeature_update _ _ _ _ _ Hid Hty Hp). fold probing.
    set (w1 := if probing then _ else w).
    assert (∃ evs1, events w1 = events w ++ evs1) as [evs1 Hw1].
    { subst w1. destruct probing; [by eexists|]. exists []. by rewrite app_nil_r. }
    destruct (emits_update_existing id (feature_properties feature projectPageId)
                (feature_children feature) w1) as (evs2 & He & _).
    destruct (fst (update_existing _ _ _ w1)).
    - left. by eexists.
    - right. eexists _, (evs1 ++ evs2). split; [|done].
      by rewrite He, Hw1, <- app_assoc. }
  destruct probing eqn:Hprobing.
  + apply bool_decide_eq_true in Hprobing.
    destruct (syncFeature_probe feature projectPageId mapping id w Hid Hty Hprobing)
      as [[_ Hr]|[Hnone _]].
    * left. by exists id.
    * destruct (Hupd (λ _, Hnone)) as [(w1 & Hr)|Hr].
      -- right. left. by exists id, w1.
      -- right. by right.
  + destruct Hupd as [(w1 & Hr)|Hr]; [done| |].
    * right. left. by exists id, w1.
    * right. by right.
- right. right. exists w, []. rewrite app_nil_r. split; [done|].
  apply syncFeature_fresh. by rewrite Hid.
- right. right. exists w, []. rewrite app_nil_r. split; [done|].
  apply syncFeature_fresh. by rewrite Hid.
Qed.

Lemma create_feature_truthy feature projectPageId (w w' : World W) id a :
creates_truthy_ids W →
create_feature env feature projectPageId w = (Ok (id, a), w') →
truthy id = true.
Proof.
intros Hlaw. rewrite create_feature_run.
destruct (create_page _ _ _ (remote w)) as [[id'|] r] eqn:E; simpl; [|done].
intros [= <- _ _]. by eapply Hlaw.
Qed.

(** The page id [syncFeature] returns is a non-empty string. *)
Lemma syncFeature_truthy feature projectPageId mapping (w w' : World W) id a :
creates_truthy_ids W →
syncFeature env feature projectPageId mapping w = (Ok (id, a), w') →
truthy id = true.
Proof.
intros Hlaw.
destruct (syncFeature_cases feature projectPageId mapping w)
  as [(id' & _ & Hty & ->)|[(id' & w1 & _ & Hty & ->)|(w1 & evs & _ & ->)]].
- by intros [= <- _ _].
- by intros [= <- _ _].
- by apply create_feature_truthy.
Qed.

(** [syncFeature] throws only when its create request has failed. *)
Lemma syncFeature_throws feature projectPageId mapping (w w' : World W) :
syncFeature env feature projectPageId mapping w = (Thrown, w') →
∃ evs,
  events w'
  = events w ++ evs
    ++ [{| ev_call := pages_create (NOTION_FEATURES_DB_ID env)
                        (feature_properties feature projectPageId)
                        (feature_children feature);
           ev_ok := false |}].
Proof.
destruct (syncFeature_cases feature projectPageId mapping w)
  as [(id' & _ & Hty & ->)|[(id' & w1 & _ & Hty & ->)|(w1 & evs & He & ->)]];
  [done..|].
rewrite create_feature_run.
destruct (create_page _ _ _ (remote w1)) as [[id'|] r] eqn:E; simpl; [done|].
intros [= <-]. exists evs. unfold after. simpl. by rewrite He, <- app_assoc.
Qed.

(** ** The loop over the features *)

Lemma emits_syncFeatures features : ∀ mapping c,
emits (W:=W) (λ e, feature_request (ev_call e))
  (syncFeatures env features mapping c).
Proof.
induction features as [|f fs IH]; intros mapping c; simpl.
- apply emits_ret.
- apply emits_bind; [apply emits_syncFeature|]. intros [pageId action]. apply IH.
Qed.

(** The loop touches the entries of the features it visits only. *)
Lemma syncFeatures_other features : ∀ mapping c (w : World W) mapping' c' w',
syncFeatures env features mapping c w = (Ok (mapping', c'), w') →
projectPageId mapping' = projectPageId mapping
∧ lastSync mapping' = lastSync mapping
∧ ∀ key, key ∉ filePath <$> features →
    featurePageIds mapping' !! key = featurePageIds mapping !! key
    ∧ contentHashes mapping' !! key = contentHashes mapping !! key.
Proof.
induction features as [|f fs IH]; intros mapping c w mapping' c' w'; simpl.
- by intros [= <- <- <-].
- rewrite bind_run.
  destruct (syncFeature env f (projectPageId mapping) mapping w)
    as [[[pageId action]|] w1]; [|done].
  intros Hrest. apply IH in Hrest as (Hp & Hl & Hkeys). simpl in *.
  split; [done|]. split; [done|]. intros key Hkey.
  apply not_elem_of_cons in Hkey as [Hne Hkey].
  destruct (Hkeys key Hkey) as [-> ->].
  by rewrite !lookup_insert_ne.
Qed.

(** After the loop the mapping knows every feature visited. *)
Lemma syncFeatures_known_after features :
creates_truthy_ids W → ∀ mapping c (w : World W) mapping' c' w',
NoDup (filePath <$> features) →
syncFeatures env features mapping c w = (Ok (mapping', c'), w') →
Forall (known mapping') features.
Proof.
intros Hlaw. induction features as [|f fs IH];
  intros mapping c w mapping' c' w' Hnd; simpl; [done|].
rewrite bind_run.
destruct (syncFeature env f (projectPageId mapping) mapping w)
  as [[[pageId action]|] w1] eqn:Hf; [|done].
intros Hrest. rewrite fmap_cons in Hnd. apply NoDup_cons in Hnd as [Hnotin Hnd].
constructor; [|by eapply IH].
apply syncFeatures_other in Hrest as (_ & _ & Hkeys).
destruct (Hkeys _ Hnotin) as [Hid Hhash]. exists pageId. simpl in *.
rewrite Hid, Hhash, !lookup_insert_eq. split; [done|]. split; [|done].
by eapply syncFeature_truthy.
Qed.

Lemma issued_first {A} (P : Event → Prop) (m : M W A) (w : World W) e evs :
events (snd (m w)) = (events w ++ [e]) ++ evs →
Forall P (issued m w) → P e.
Proof.
intros He. unfold issued. rewrite He, <- app_assoc, drop_app_length.
by intros [? _]%Forall_cons.
Qed.

Lemma bind_extends {A B} (m : M W A) (k : A → M W B) (w : World W) :
(∀ a, emits (λ _, True) (k a)) →
∃ evs, events (snd ((m ≫= k) w)) = events (snd (m w)) ++ evs.
Proof.
intros Hk. rewrite bind_run. destruct (m w) as [[a|] w1]; simpl.
- destruct (Hk a w1) as (evs & He & _). by exists evs.
- exists []. by rewrite app_nil_r.
Qed.

Lemma remember_known feature id mapping :
featurePageIds mapping !! filePath feature = Some id →
contentHashes mapping !! filePath feature = Some (hash feature) →
remember feature id mapping = mapping.
Proof.
intros Hid Hhash. unfold remember. destruct mapping as [p l f c]; simpl in *.
f_equal; by apply insert_id.
Qed.

(** A loop over features the mapping knows, in which every probe
  succeeds, probes each of them and changes nothing. *)
Lemma syncFeatures_known features : ∀ mapping c (w : World W),
Forall (known mapping) features →
Forall probe_ok (issued (syncFeatures env features mapping c) w) →
∃ w',
  syncFeatures env features mapping c w
  = (Ok (mapping,
         {| n_created := n_created c; n_updated := n_updated c;
            n_unchanged := length features + n_unchanged c |}), w')
  ∧ events w' = events w ++ (probe_of mapping <$> features).
Proof.
induction features as [|f fs IH]; intros mapping c w Hknown Hprobes.
{ exists w. simpl. rewrite app_nil_r. by destruct c. }
apply Forall_cons in Hknown as [(id & Hid & Hty & Hhash) Hknown].
cbn [syncFeatures] in *.
destruct (syncFeature_probe f (projectPageId mapping) mapping id w Hid Hty Hhash)
  as [[Hsome Hr]|[Hnone [evs He]]].
- set (w1 := after _ _ w) in *.
  unfold issued in Hprobes. rewrite bind_run, Hr in Hprobes |- *.
  rewrite (remember_known _ _ _ Hid Hhash) in Hprobes |- *.
  destruct (IH mapping (count unchanged c) w1 Hknown) as (w' & Hloop & He).
  + unfold issued.
    destruct (emits_syncFeatures fs mapping (count unchanged c) w1)
      as (evs & He & _).
    rewrite He in Hprobes |- *. rewrite drop_app_length.
    subst w1. unfold after in Hprobes. simpl in Hprobes.
    rewrite <- app_assoc, drop_app_length in Hprobes.
    by apply Forall_cons in Hprobes as [_ ?].
  + exists w'. rewrite Hloop. split.
    * simpl. repeat f_equal. lia.
    * rewrite He. subst w1. unfold after. simpl. rewrite <- app_assoc.
      f_equal. simpl. f_equal. unfold probe_of. rewrite Hid. simpl.
      f_equal. apply bool_decide_eq_true_2. done.
- exfalso.
  destruct (bind_extends (syncFeature env f (projectPageId mapping) mapping)
              (λ '(pageId, action),
                 syncFeatures env fs (remember f pageId mapping) (count action c)) w)
    as [evs' He'].
  { intros [pageId action]. eapply emits_weaken; [|apply emits_syncFeatures]. done. }
  rewrite He in He'. unfold after in He'. simpl in He'.
  rewrite <- app_assoc in He'.
  apply (issued_first probe_ok _ _ _ _ He') in Hprobes.
  unfold probe_ok in Hprobes. simpl in Hprobes. rewrite Hnone in Hprobes.
  specialize (Hprobes eq_refl). by apply bool_decide_eq_true in Hprobes as [? ?].
Qed.

(** ** The cleanup sweep *)

(** The sweep over a list of entries: it never throws, issues one
  archive request for each entry outside the current paths, in
  order, and forgets the key of each whatever the answer. *)
Lemma cleanup_entries_run (currentPaths : gset str) entries :
∀ mapping n (w : World W),
let stale := filter (λ kv, fst kv ∉ currentPaths) entries in
∃ mapping' n' w',
  cleanup_entries currentPaths entries mapping n w = (Ok (mapping', n'), w')
  ∧ projectPageId mapping' = projectPageId mapping
  ∧ lastSync mapping' = lastSync mapping
  ∧ (∀ key, featurePageIds mapping' !! key
            = if decide (key ∈ fst <$> stale) then None
              else featurePageIds mapping !! key)
  ∧ (∀ key, contentHashes mapping' !! key
            = if decide (key ∈ fst <$> stale) then None
              else contentHashes mapping !! key)
  ∧ ∃ evs, events w' = events w ++ evs
           ∧ ev_call <$> evs = archive_of <$> stale.
Proof.
induction entries as [|[filePath pageId] entries IH]; intros mapping n w stale.
{ exists mapping, n, w. repeat split; try done. exists []. by rewrite app_nil_r. }
cbn [cleanup_entries]. subst stale. rewrite filter_cons. cbn [fst].
destruct (decide (filePath ∉ currentPaths)) as [Hstale|Hcurrent].
- rewrite bool_decide_eq_true_2 by done. rewrite bind_run, attempt_run.
  unfold notion_pages_update. rewrite request_run. cbn [fst snd].
  set (w1 := after _ _ w).
  set (n1 := match update_page pageId set_archived (remote w) with
             | (Some _, _) => S n | (None, _) => n end).
  destruct (IH (forget filePath mapping) n1 w1)
    as (mapping' & n' & w' & Hrun & Hp & Hl & Hf & Hc & evs & He & Hevs).
  exists mapping', n', w'. split.
  { rewrite <- Hrun. subst n1.
    by destruct (update_page pageId set_archived (remote w)) as [[[]|] r]. }
  split; [done|]. split; [done|]. rewrite fmap_cons. cbn [fst].
  split; [|split].
  + intros key. rewrite Hf. unfold forget. simpl.
    destruct (decide (key = filePath)) as [->|Hne].
    * rewrite lookup_delete_eq. repeat case_decide; try done.
      all: exfalso; set_solver.
    * rewrite lookup_delete_ne by done.
      repeat case_decide; try done; exfalso; set_solver.
  + intros key. rewrite Hc. unfold forget. simpl.
    destruct (decide (key = filePath)) as [->|Hne].
    * rewrite lookup_delete_eq. repeat case_decide; try done.
      all: exfalso; set_solver.
    * rewrite lookup_delete_ne by done.
      repeat case_decide; try done; exfalso; set_solver.
  + eexists. rewrite He. subst w1. unfold after. simpl.
    rewrite <- app_assoc. split; [reflexivity|].
    rewrite fmap_app, Hevs. done.
- rewrite bool_decide_eq_false_2 by done. apply IH.
Qed.

(** C3. For a key of the table of page ids that is no path of the
  current scan, the sweep ends, whether its requests succeed or
  fail, with the entry of the key removed from the table of page
  ids and from the table of content hashes; its requests are, in
  some order, one archive request per stale entry, and the entry
  of the key, with the page id remembered for it, is among them
  once. *)
Theorem cleanup_archives_each_stale_key_once
  (currentFeatures : list Feature) (projectPageId : option str)
  (mapping : Mapping) (w : World W) (key pageId : str) :
featurePageIds mapping !! key = Some pageId →
key ∉ filePath <$> currentFeatures →
let sweep := cleanupDeletedFeatures currentFeatures projectPageId mapping in
let stale :=
  filter (λ kv, fst kv ∉ filePath <$> currentFeatures)
    (map_to_list (featurePageIds mapping)) in
∃ mapping' n w',
  sweep w = (Ok (mapping', n), w')
  ∧ featurePageIds mapping' !! key = None
  ∧ contentHashes mapping' !! key = None
  ∧ ev_call <$> issued sweep w ≡ₚ archive_of <$> stale
  ∧ ∃ before after,
      stale = before ++ (key, pageId) :: after
      ∧ (key ∉ fst <$> before) ∧ (key ∉ fst <$> after).
Proof.
intros Hkey Hgone sweep stale. subst sweep. unfold cleanupDeletedFeatures.
set (currentPaths := list_to_set (filePath <$> currentFeatures) : gset str).
destruct (cleanup_entries_run currentPaths
            (map_to_list (featurePageIds mapping)) mapping 0%nat w)
  as (mapping' & n' & w' & Hrun & _ & _ & Hf & Hc & evs & He & Hevs).
assert (Hstale : filter (λ kv : str * str, fst kv ∉ currentPaths)
                   (map_to_list (featurePageIds mapping)) = stale).
{ apply list_filter_iff. intros kv. subst currentPaths.
  by rewrite not_elem_of_list_to_set. }
rewrite Hstale in *.
assert (Hin : (key, pageId) ∈ stale).
{ subst stale. apply list_elem_of_filter. split; [done|].
  by apply elem_of_map_to_list. }
assert (Hkeys : key ∈ fst <$> stale).
{ apply list_elem_of_fmap. by exists (key, pageId). }
exists mapping', n', w'. split; [done|].
split; [by rewrite Hf, decide_True|]. split; [by rewrite Hc, decide_True|].
split.
{ unfold issued. rewrite Hrun. simpl. by rewrite He, drop_app_length, Hevs. }
apply list_elem_of_split in Hin as (before & after & Hsplit).
exists before, after. split; [done|].
assert (Hnd : NoDup (fst <$> stale)).
{ eapply sublist_NoDup; [apply (NoDup_fst_map_to_list (featurePageIds mapping))|].
  apply fmap_sublist. subst stale. apply sublist_filter. }
rewrite Hsplit, fmap_app, fmap_cons in Hnd. simpl in Hnd.
apply NoDup_app in Hnd as (_ & Hbefore & Hafter).
apply NoDup_cons in Hafter as [Hafter _]. split; [|done].
intros Hb. apply (Hbefore _ Hb). by left.
Qed.

(** With nothing stale the sweep does nothing. *)
Lemma cleanup_nothing_stale currentFeatures projectPageId mapping (w : World W) :
(∀ key, is_Some (featurePageIds mapping !! key) →
        key ∈ filePath <$> currentFeatures) →
cleanupDeletedFeatures currentFeatures projectPageId mapping w
= (Ok (mapping, 0%nat), w).
Proof.
intros Hall. unfold cleanupDeletedFeatures.
set (currentPaths := list_to_set (filePath <$> currentFeatures) : gset str).
assert (Hgen : ∀ entries n,
          (∀ kv, kv ∈ entries → fst kv ∈ currentPaths) →
          cleanup_entries currentPaths entries mapping n w
          = (Ok (mapping, n), w)).
{ induction entries as [|[k v] entries IH]; intros n Hin; simpl; [done|].
  rewrite bool_decide_eq_false_2.
  - apply IH. intros kv Hkv. apply Hin. by right.
  - intros Hno. apply Hno. apply (Hin (k, v)). by left. }
apply Hgen. intros [k v] Hkv. apply elem_of_map_to_list in Hkv.
subst currentPaths. apply elem_of_list_to_set. apply Hall. by eexists.
Qed.

(** After the sweep the mapping has entries for current paths only,
  and still knows the features it knew. *)
Lemma cleanup_keeps_current currentFeatures pid mapping
  (w : World W) mapping' n w' :
cleanupDeletedFeatures currentFeatures pid mapping w
= (Ok (mapping', n), w') →
projectPageId mapping' = projectPageId mapping
∧ (∀ key, is_Some (featurePageIds mapping' !! key) →
          key ∈ filePath <$> currentFeatures)
∧ (∀ f, f ∈ currentFeatures → known mapping f → known mapping' f).
Proof.
unfold cleanupDeletedFeatures.
set (currentPaths := list_to_set (filePath <$> currentFeatures) : gset str).
destruct (cleanup_entries_run currentPaths
            (map_to_list (featurePageIds mapping)) mapping 0%nat w)
  as (m1 & n1 & w1 & Hrun & Hp & _ & Hf & Hc & _).
rewrite Hrun. intros [= <- <- <-].
assert (Hstale : ∀ key, key ∈ fst <$> filter (λ kv : str * str, fst kv ∉ currentPaths)
                          (map_to_list (featurePageIds mapping)) →
                 key ∉ filePath <$> currentFeatures).
{ intros key ([k v] & -> & Hkv)%list_elem_of_fmap.
  apply list_elem_of_filter in Hkv as [Hno _]. simpl in *.
  subst currentPaths. by apply not_elem_of_list_to_set in Hno. }
split; [done|]. split.
- intros key. rewrite Hf. case_decide as Hk; [by intros [? ?]|].
  intros [v Hv]. destruct (decide (key ∈ filePath <$> currentFeatures)) as [|Hno]; [done|].
  exfalso. apply Hk. apply list_elem_of_fmap. exists (key, v). split; [done|].
  apply list_elem_of_filter. split.
  + simpl. subst currentPaths. by apply not_elem_of_list_to_set.
  + by apply elem_of_map_to_list.
- intros f Hin (id & Hid & Hty & Hhash). exists id.
  assert (filePath f ∉ fst <$> filter (λ kv : str * str, fst kv ∉ currentPaths)
                          (map_to_list (featurePageIds mapping))).
  { intros Hs. apply Hstale in Hs. apply Hs. apply list_elem_of_fmap. by exists f. }
  rewrite Hf, Hc, !decide_False by done. done.
Qed.

(** ** The project page *)

Lemma emits_syncProject name readme n mapping :
emits (W:=W) (λ _, True) (syncProject env name readme n mapping).
Proof.
unfold syncProject, findProjectPage, notion_pages_retrieve,
  notion_pages_update, notion_pages_create, notion_databases_query.
repeat first [ done | emits_step ].
Qed.

(** The page id [syncProject] returns is a non-empty string. *)
Lemma syncProject_truthy name readme n mapping (w w' : World W) id a :
creates_truthy_ids W →
syncProject env name readme n mapping w = (Ok (id, a), w') →
truthy id = true.
Proof.
intros Hlaw. unfold syncProject. rewrite bind_run.
match goal with |- context [match ?c with pair _ _ => _ end] =>
  destruct c as [[p1|] w1]; [|done] end.
rewrite bind_run.
match goal with |- context [match ?c with pair _ _ => _ end] =>
  destruct c as [[p2|] w2]; [|done] end.
destruct (truthy_opt p2) eqn:Hp2.
- rewrite bind_run. destruct (notion_pages_update _ _ w2) as [[[]|] w3]; [|done].
  intros [= <- _ _]. by destruct p2.
- rewrite bind_run. unfold notion_pages_create. rewrite request_run.
  destruct (create_page _ _ _ (remote w2)) as [[id'|] r] eqn:E; simpl; [|done].
  intros [= <- _ _]. by eapply Hlaw.
Qed.

(** [syncProject] for a known project whose probe succeeds: the page
  is probed, then renamed. *)
Lemma syncProject_known name readme n mapping pid (w : World W) :
projectPageId mapping = Some pid → truthy pid = true →
Forall probe_ok (issued (syncProject env name readme n mapping) w) →
let w1 := after (pages_retrieve pid) (retrieve_page pid (remote w)) w in
let rename := set_properties (project_properties name) in
let answer := update_page pid rename (remote w1) in
is_Some (fst (retrieve_page pid (remote w)))
∧ syncProject env name readme n mapping w
  = (match fst answer with Some _ => Ok (pid, updated) | None => Thrown end,
     after (pages_update pid rename) answer w1).
Proof.
intros Hp Hty Hprobes w1 rename answer.
destruct (fst (retrieve_page pid (remote w))) as [[]|] eqn:Hr.
- split; [by eexists|]. unfold syncProject. rewrite Hp.
  change (default [] (Some pid)) with pid. cbn [truthy_opt].
  rewrite Hty. rewrite bind_run, probe_run, Hr. fold w1.
  cbn [truthy_opt negb]. rewrite Hty. cbn [negb]. rewrite bind_run, ret_run.
  change (default [] (Some pid)) with pid. cbn [truthy_opt]. rewrite Hty.
  rewrite bind_run. unfold notion_pages_update. rewrite request_run.
  subst answer rename. unfold project_properties.
  by destruct (fst (update_page _ _ _)) as [[]|].
- exfalso. revert Hprobes. unfold issued, syncProject.
  rewrite Hp. change (default [] (Some pid)) with pid. cbn [truthy_opt].
  rewrite Hty.
  rewrite bind_run, probe_run, Hr. fold w1.
  match goal with |- context [snd (?m w1)] =>
    assert (Hm : emits (λ _, True) m) end.
  { unfold findProjectPage, notion_pages_retrieve,
      notion_pages_update, notion_pages_create, notion_databases_query.
    repeat first [ done | emits_step ]. }
  destruct (Hm w1) as (evs & He & _). rewrite He. subst w1. unfold after. simpl.
  rewrite <- app_assoc, drop_app_length. intros [Hbad _]%Forall_cons.
  unfold probe_ok in Hbad. simpl in Hbad. rewrite Hr in Hbad.
  specialize (Hbad eq_refl). by apply bool_decide_eq_true in Hbad as [? ?].
Qed.
End SyncFacts.

End RequestFacts.

Section TreeFacts.

#[local] Arguments u : simpl never.

(* ===================================================================== *)
(** * Facts about the scan *)
(* ===================================================================== *)

(** Induction on entries, with the hypothesis for every entry of a
  directory. *)
Lemma Entry_nested_ind (P : Entry → Prop) :
(∀ name content, P (File name content)) →
(∀ name, P (Directory name None)) →
(∀ name entries, Forall P entries → P (Directory name (Some entries))) →
(∀ name, P (Other name)) →
∀ e, P e.
Proof.
intros Hfile Hnone Hdir Hother.
refine (fix go (e : Entry) : P e :=
          match e with
          | File name content => Hfile name content
          | Directory name None => Hnone name
          | Directory name (Some entries) =>
              Hdir name entries
                ((fix all (l : list Entry) : Forall P l :=
                    match l with
                    | [] => Forall_nil_2 _
                    | e' :: l' => Forall_cons_2 _ _ _ (go e') (all l')
                    end) entries)
          | Other name => Hother name
          end).
Qed.

Section ScanFacts.
Context `{Platform}.

Lemma scanEntry_directory dir name entries :
scanEntry dir (Directory name (Some entries))
= flat_map (scanEntry (path_join dir name)) entries.
Proof. simpl. induction entries as [|e es IH]; simpl; [done|]. by rewrite IH. Qed.

Lemma valid_entry_directory name entries :
valid_entry (Directory name (Some entries))
↔ valid_name name ∧ NoDup (entry_name <$> entries) ∧ Forall valid_entry entries.
Proof.
simpl. 
assert (Hall : ∀ es,
  (fix all (es : list Entry) : Prop :=
     match es with [] => True | e' :: es' => valid_entry e' ∧ all es' end) es
  ↔ Forall valid_entry es).
{ induction es as [|e es IH]; simpl.
  - split; [by constructor|done].
  - rewrite IH, Forall_cons. done. }
rewrite Hall. tauto.
Qed.

Lemma valid_entry_name e : valid_entry e → valid_name (entry_name e).
Proof. destruct e as [?|? [?|]|?]; simpl; tauto. Qed.

(** Two names free of the separator, each followed by nothing or by
  a separator, are equal when the texts are. *)
Lemma component_unique (n1 n2 s1 s2 : str) :
path_sep ∉ n1 → path_sep ∉ n2 →
(s1 = [] ∨ ∃ r, s1 = path_sep :: r) → (s2 = [] ∨ ∃ r, s2 = path_sep :: r) →
n1 ++ s1 = n2 ++ s2 → n1 = n2.
Proof.
revert n2. induction n1 as [|c n1 IH]; intros n2 H1 H2 Hs1 Hs2 Heq.
- destruct n2 as [|c n2]; [done|]. simpl in Heq.
  destruct Hs1 as [->|[r ->]]; [done|]. injection Heq as Hc _. subst c.
  exfalso. apply H2. by left.
- destruct n2 as [|d n2]; simpl in Heq.
  + destruct Hs2 as [->|[r ->]]; [done|]. injection Heq as Hc _. subst c.
    exfalso. apply H1. by left.
  + injection Heq as Hc Heq. subst d. f_equal. apply (IH n2); try done.
    * intros ?. apply H1. by right.
    * intros ?. apply H2. by right.
Qed.

(** Entries of different names, each scanned apart, are scanned apart
  from each other. *)
Lemma scanEntries_NoDup here entries :
Forall (λ e, valid_entry e → scans_apart e) entries →
NoDup (entry_name <$> entries) → Forall valid_entry entries →
NoDup (filePath <$> flat_map (scanEntry here) entries).
Proof.
induction entries as [|e es IHes]; intros IH Hnd Hents; simpl; [constructor|].
apply Forall_cons in IH as [IHe IH], Hents as [He Hents].
rewrite fmap_cons in Hnd. apply NoDup_cons in Hnd as [Hnotin Hnd].
rewrite fmap_app. apply NoDup_app.
split; [by apply IHe|]. split; [|by apply IHes].
intros path (f1 & -> & Hf1)%list_elem_of_fmap (f2 & Heq & Hf2)%list_elem_of_fmap.
apply list_elem_of_In, in_flat_map in Hf2 as (e2 & He2 & Hf2).
apply list_elem_of_In in He2, Hf2.
destruct (proj2 (IHe He here) f1 Hf1) as (s1 & Hp1 & Hs1).
assert (He2v : valid_entry e2) by (by eapply Forall_forall in Hents).
assert (IHe2 := proj1 (Forall_forall _ _) IH e2 He2).
destruct (proj2 (IHe2 He2v here) f2 Hf2) as (s2 & Hp2 & Hs2).
rewrite Hp1, Hp2 in Heq. unfold path_join in Heq.
rewrite <- !app_assoc in Heq. apply app_inv_head in Heq.
injection Heq as Heq.
apply Hnotin. apply list_elem_of_fmap. exists e2. split; [|done].
apply valid_entry_name in He as [_ He], He2v as [_ He2v].
exact (component_unique _ _ s1 s2 He He2v Hs1 Hs2 Heq).
Qed.

Lemma scanEntry_paths e : valid_entry e → scans_apart e.
Proof.
induction e as [name content|name|name entries IH|name] using Entry_nested_ind;
  intros Hvalid dir.
- simpl. destruct (_ && _); [|split; [constructor|by intros ? ?%elem_of_nil]].
  destruct content as [content|]; [|split; [constructor|by intros ? ?%elem_of_nil]].
  destruct (truthy_opt _); [|split; [constructor|by intros ? ?%elem_of_nil]].
  split; [apply NoDup_singleton|].
  intros f ->%list_elem_of_singleton. exists []. simpl. rewrite app_nil_r. by split; [|left].
- simpl. split; [constructor|by intros ? ?%elem_of_nil].
- rewrite scanEntry_directory.
  apply valid_entry_directory in Hvalid as (Hname & Hnd & Hents).
  set (here := path_join dir name).
  split; [by apply scanEntries_NoDup|].
  intros f Hf. apply list_elem_of_In, in_flat_map in Hf as (e & He & Hfe).
  apply list_elem_of_In in He, Hfe.
  assert (Hev : valid_entry e) by (by eapply Forall_forall in Hents).
  assert (IHe := proj1 (Forall_forall _ _) IH e He).
  destruct (proj2 (IHe Hev here) f Hfe) as (s & Hp & Hs).
  exists (path_sep :: entry_name e ++ s). split; [|right; by eexists].
  rewrite Hp. subst here. unfold path_join. simpl.
  by rewrite <- !app_assoc.
- simpl. split; [constructor|by intros ? ?%elem_of_nil].
Qed.

(** No path comes twice out of the scan of a roadmap. *)
Lemma scanRoadmapFeatures_NoDup roadmap :
valid_roadmap roadmap → NoDup (filePath <$> scanRoadmapFeatures roadmap).
Proof.
intros Hvalid. unfold scanRoadmapFeatures.
rewrite merge_sort_Permutation.
destruct roadmap as [entries|]; [|constructor]. simpl.
destruct Hvalid as [Hnd Hents].
apply scanEntries_NoDup; [|done..].
apply Forall_forall. intros e _. apply scanEntry_paths.
Qed.
End ScanFacts.

End TreeFacts.

(* ===================================================================== *)
(** * Facts about runs *)
(* ===================================================================== *)

Section RunFacts.
Context `{Platform} {W : Type} `{Notion W}.
Variable env : Env.
#[local] Arguments u : simpl never.

(** [syncFeature] queries no database; when the mapping has no
    usable page id for the feature, its one request creates the
    page. *)
Lemma syncFeature_never_searches
    (feature : Feature) (projectPageId : option str) (mapping : Mapping)
    (w : World W) :
  let sync := syncFeature env feature projectPageId mapping in
  Forall (λ e, is_query (ev_call e) = false) (issued sync w)
  ∧ (truthy_opt (featurePageIds mapping !! filePath feature) = false →
     ev_call <$> issued sync w
     = [pages_create (NOTION_FEATURES_DB_ID env)
          (feature_properties feature projectPageId)
          (feature_children feature)]).
Proof.
  intros sync. split.
  - apply emits_issued. eapply emits_weaken; [|apply emits_syncFeature].
    intros [c b]. simpl. by destruct c as [| |? ? ?| | | |].
  - intros Hfresh. subst sync. unfold issued.
    rewrite (syncFeature_fresh env _ _ _ _ Hfresh), create_feature_run.
    unfold after. simpl. by rewrite drop_app_length.
Qed.

(** ** Requests of a sequence *)

Lemma issued_bind {A B} (m : M W A) (k : A → M W B) (w : World W) :
  emits (λ _, True) m → (∀ a, emits (λ _, True) (k a)) →
  issued (m ≫= k) w
  = issued m w
    ++ match m w with
       | (Ok a, w1) => issued (k a) w1
       | (Thrown, _) => []
       end.
Proof.
  intros Hm Hk. unfold issued at 1 2. rewrite bind_run.
  destruct (Hm w) as (evs & He & _).
  destruct (m w) as [[a|] w1]; simpl in *.
  - destruct (Hk a w1) as (evs' & He' & _). unfold issued.
    rewrite He', He, <- app_assoc, !drop_app_length.
    by rewrite (app_assoc (events w)), drop_app_length.
  - by rewrite He, drop_app_length, app_nil_r.
Qed.

Lemma emits_cleanup currentFeatures pid mapping :
  emits (W:=W) (λ _, True) (cleanupDeletedFeatures currentFeatures pid mapping).
Proof.
  intros w. unfold cleanupDeletedFeatures.
  destruct (cleanup_entries_run
              (list_to_set (filePath <$> currentFeatures))
              (map_to_list (featurePageIds mapping)) mapping 0%nat w)
    as (m' & n' & w' & Hrun & _ & _ & _ & _ & evs & He & _).
  rewrite Hrun. exists evs. split; [done|]. by apply Forall_forall.
Qed.

Lemma emits_all P (evs : list Event) : (∀ e, P e) → Forall P evs.
Proof. intros HP. by apply Forall_forall. Qed.

(** ** The loop up to a feature whose page cannot be created *)

Lemma syncFeatures_throws pre : ∀ f post mapping c (w : World W) mapping1 c1 w1 w2,
  syncFeatures env pre mapping c w = (Ok (mapping1, c1), w1) →
  syncFeature env f (projectPageId mapping1) mapping1 w1 = (Thrown, w2) →
  syncFeatures env (pre ++ f :: post) mapping c w = (Thrown, w2).
Proof.
  induction pre as [|g pre IH]; intros f post mapping c w mapping1 c1 w1 w2; simpl.
  - intros [= <- <- <-] Hf. by rewrite bind_run, Hf.
  - rewrite !bind_run.
    destruct (syncFeature env g (projectPageId mapping) mapping w)
      as [[[pageId action]|] w0]; [|done].
    apply IH.
Qed.

Lemma configured_run loc d (w : World W) :
  configured env →
  syncToNotion env loc d w
  = mapping ← mapping_of_json (loadMapping d);
    let features := scanRoadmapFeatures (roadmap loc) in
    match sync_all env loc features mapping w with
    | (Ok (mapping, c, n, projectAction), w') =>
        match saveMapping (set_lastSync (now loc) mapping) d with
        | Some d' =>
            Some (completed {| counts := c; archived := n;
                               project_action := projectAction;
                               last_sync := now loc |}, d', w')
        | None => Some (exited 1, d, w')
        end
    | (Thrown, w') => Some (exited 1, d, w')
    end.
Proof. intros (Ht & Hp & Hf). unfold syncToNotion. by rewrite Ht, Hp, Hf. Qed.


(** ** The second of two runs *)

Lemma set_projectPageId_same pid mapping :
  projectPageId mapping = Some pid → set_projectPageId pid mapping = mapping.
Proof. intros Hp. destruct mapping. simpl in *. by subst. Qed.

(** What a completed run leaves in the mapping file: a sync state
    with a usable project page id that knows every scanned feature
    and has no entry for any other path. *)
Lemma completed_run_saves loc d (w : World W) s d1 w1 :
  creates_truthy_ids W →
  NoDup (filePath <$> scanRoadmapFeatures (roadmap loc)) →
  syncToNotion env loc d w = Some (completed s, d1, w1) →
  configured env ∧ writable d1 = true
  ∧ ∃ mapping pid,
      mapping_of_json (loadMapping d1) = Some mapping
      ∧ projectPageId mapping = Some pid ∧ truthy pid = true
      ∧ Forall (known mapping) (scanRoadmapFeatures (roadmap loc))
      ∧ ∀ key, is_Some (featurePageIds mapping !! key) →
               key ∈ filePath <$> scanRoadmapFeatures (roadmap loc).
Proof.
  intros Hlaw Hnd. unfold syncToNotion.
  destruct (truthy_opt (NOTION_TOKEN env)) eqn:Ht; [|done].
  destruct (truthy_opt (NOTION_PROJECTS_DB_ID env)) eqn:Hp; [|done].
  destruct (truthy_opt (NOTION_FEATURES_DB_ID env)) eqn:Hf; [|done].
  cbn [negb]. 
  destruct (mapping_of_json (loadMapping d)) as [m0|]; [|done]. simpl.
  set (features := scanRoadmapFeatures (roadmap loc)) in *.
  destruct (sync_all env loc features m0 w) as [[[[[m3 c] n] pa]|] w3] eqn:Hall;
    [|done].
  destruct (saveMapping (set_lastSync (now loc) m3) d) as [d'|] eqn:Hsave; [|done].
  intros [= <- <- <-]. split; [done|].
  split. { unfold saveMapping in Hsave. destruct (writable d); [|done].
           by injection Hsave as <-. }
  apply loadMapping_saveMapping in Hsave.
  unfold sync_all in Hall. rewrite bind_run in Hall.
  destruct (syncProject _ _ _ _ _ _) as [[[pid pa']|] w0] eqn:Hproject; [|done].
  rewrite bind_run in Hall.
  destruct (syncFeatures _ _ _ _ _) as [[[m1 c1]|] w1] eqn:Hloop; [|done].
  rewrite bind_run in Hall.
  destruct (cleanupDeletedFeatures _ _ _ _) as [[[m2 n2]|] w2] eqn:Hsweep; [|done].
  injection Hall as <- <- <- <- <-.
  pose proof (syncFeatures_other env _ _ _ _ _ _ _ Hloop) as (Hp1 & _ & _).
  pose proof (syncFeatures_known_after env _ Hlaw _ _ _ _ _ _ Hnd Hloop) as Hknown.
  pose proof (cleanup_keeps_current _ _ _ _ _ _ _ Hsweep) as (Hp2 & Hkeys & Hkeep).
  exists (set_lastSync (now loc) m2), pid. split; [done|].
  split; [simpl; by rewrite Hp2, Hp1|].
  split; [by eapply syncProject_truthy|]. split; [|done].
  apply Forall_forall. intros f Hin.
  apply (Hkeep f Hin). by eapply Forall_forall in Hknown.
Qed.

Lemma emits_after_project features mapping (project : str * Action) :
  emits (W:=W) (λ _, True)
    (let '(pageId, projectAction) := project in
     let mapping := set_projectPageId pageId mapping in
     '(mapping, c) ← syncFeatures env features mapping no_counts;
     '(mapping, n) ← cleanupDeletedFeatures features (projectPageId mapping) mapping;
     mret (mapping, c, n, projectAction)).
Proof.
  destruct project as [pageId projectAction].
  apply emits_bind.
  { eapply emits_weaken; [|apply emits_syncFeatures]. done. }
  intros [m c]. apply emits_bind; [apply emits_cleanup|].
  intros [m' n]. apply emits_ret.
Qed.

Lemma emits_after_loop features (looped : Mapping * Counts) (pa : Action) :
  emits (W:=W) (λ _, True)
    (let '(mapping, c) := looped in
     '(mapping, n) ← cleanupDeletedFeatures features (projectPageId mapping) mapping;
     mret (mapping, c, n, pa)).
Proof.
  destruct looped as [m c]. apply emits_bind; [apply emits_cleanup|].
  intros [m' n]. apply emits_ret.
Qed.

Lemma drop_extended (before evs more : list Event) P :
  Forall P (drop (length before) ((before ++ evs) ++ more)) → Forall P evs.
Proof.
  rewrite <- app_assoc, drop_app_length. by intros [? _]%Forall_app.
Qed.

End RunFacts.

(* ===================================================================== *)
(** * The examples at work *)
(* ===================================================================== *)

Section Examples.
Import Example.

Lemma sim_creates_truthy_ids : creates_truthy_ids Sim.
Proof.
  intros db properties children s id w'. unfold create_page, sim_notion, answer.
  simpl. destruct (outage s); [|done].
  case_bool_decide; [done|]. by intros [= <- _].
Qed.

Lemma two_features_valid : valid_roadmap two_features.
Proof.
  split; [apply NoDup_singleton|].
  repeat constructor; simpl; try done; try compute_done.
Qed.





(** C3, at a sync state that knows a feature the scan no longer
    finds, against a workspace that fails the archive request. *)
Lemma cleanup_archives_each_stale_key_once_witness :
  let key := u "roadmap/backlog/001.md" in
  let currentFeatures := [search_feature] in
  let sweep :=
    cleanupDeletedFeatures currentFeatures (Some (u "page-demo")) knows_export in
  let stale :=
    filter (λ kv, fst kv ∉ filePath <$> currentFeatures)
      (map_to_list (featurePageIds knows_export)) in
  (featurePageIds knows_export !! key = Some (u "page-old")
   ∧ key ∉ filePath <$> currentFeatures)
  ∧ ∃ mapping' n w',
      sweep (workspace 1) = (Ok (mapping', n), w')
      ∧ featurePageIds mapping' !! key = None
      ∧ contentHashes mapping' !! key = None
      ∧ ev_call <$> issued sweep (workspace 1) ≡ₚ archive_of <$> stale
      ∧ ∃ before after,
          stale = before ++ (key, u "page-old") :: after
          ∧ (key ∉ fst <$> before) ∧ (key ∉ fst <$> after).
Proof.
  intros key currentFeatures sweep stale.
  assert (Hkey : featurePageIds knows_export !! key = Some (u "page-old"))
    by (vm_compute; reflexivity).
  assert (Hstale : key ∉ filePath <$> currentFeatures)
    by (vm_compute; by intros [[=]|[]%elem_of_nil]%elem_of_cons).
  split; [exact (conj Hkey Hstale)|].
  exact (cleanup_archives_each_stale_key_once currentFeatures
           (Some (u "page-demo")) knows_export (workspace 1) key (u "page-old")
           Hkey Hstale).
Defined.

(** C4: the sync state knows the feature "Export", unchanged, as
    page-old.  When the probe fails the script does not go on as if
    it had no entry for the feature: it updates page-old, and creates
    a page only once that update has failed too. *)
Lemma probe_failure_updates_the_stale_page :
  let sync mapping :=
    syncFeature env export_feature (Some (u "page-demo")) mapping in
  (* the probe fails and the page is there *)
  (fst (sync knows_export (workspace 1)) = Ok (u "page-old", updated)
   ∧ log (snd (sync knows_export (workspace 1)))
     = [ (u "retrieve page-old", false); (u "update page-old", true);
         (u "list page-old", true); (u "append page-old", true) ])
  (* the probe fails and the page is gone *)
  ∧ (fst (sync knows_export workspace_without_export) = Ok (u "page-i", created)
     ∧ log (snd (sync knows_export workspace_without_export))
       = [ (u "retrieve page-old", false); (u "update page-old", false);
           (u "create Export", true) ])
  (* no entry for the feature *)
  ∧ (fst (sync knows_project (workspace 0)) = Ok (u "page-i", created)
     ∧ log (snd (sync knows_project (workspace 0)))
       = [ (u "create Export", true) ]
     ∧ log (snd (sync knows_project workspace_without_export))
       = [ (u "create Export", true) ]).
Proof. by vm_compute. Qed.

(** C5: the workspace has a page "Export" and the sync state no
    entry for the feature "Export".  [findFeaturePage] would find the
    page; [syncFeature] does not search and creates a second one. *)
Lemma syncFeature_creates_a_duplicate :
  let sync :=
    syncFeature env export_feature (Some (u "page-demo")) knows_project in
  title export_feature = Some (u "Export")
  ∧ fst (findFeaturePage env (title export_feature) (Some (u "page-demo"))
           (workspace 0)) = Ok (Some (u "page-old"))
  ∧ fst (sync (workspace 0)) = Ok (u "page-i", created)
  ∧ log (snd (sync (workspace 0))) = [ (u "create Export", true) ]
  ∧ named (remote (snd (sync (workspace 0)))) (u "Export")
    = [u "page-old"; u "page-i"].
Proof. by vm_compute. Qed.

(** C6 as stated fails: a file under a folder "planned" that is
    itself under a folder "backlog" gets the status "Backlog". *)
Lemma planned_under_backlog_is_backlog :
  let filePath := u "roadmap/backlog/planned/x.md" in
  split_on path_sep filePath
  = [u "roadmap"; u "backlog"; u "planned"; u "x.md"]
  ∧ status (parseFeatureFile export_md filePath) = u "Backlog".
Proof. by vm_compute. Qed.

(** C7, at a sync state with one feature. *)
Lemma mapping_round_trip_witness :
  let d' := file (JSON_stringify (json_of_mapping knows_export)) in
  saveMapping knows_export no_file = Some d'
  ∧ ∃ loaded,
      mapping_of_json (loadMapping d') = Some loaded
      ∧ featurePageIds loaded = featurePageIds knows_export
      ∧ contentHashes loaded = contentHashes knows_export
      ∧ projectPageId loaded = projectPageId knows_export
      ∧ lastSync loaded = lastSync knows_export.
Proof.
  intros d'.
  assert (Hsave : saveMapping knows_export no_file = Some d') by reflexivity.
  exact (conj Hsave (mapping_round_trip knows_export no_file d' Hsave)).
Defined.

(** C10, at a section of a heading, a numbered line and a checkbox
    line. *)
Lemma subtasks_of_numbered_and_checkbox_lines_witness :
  let content := u "### Phase 1" ++ [10] ++ u "2. Document it" ++ [10]
                 ++ u "3. [X] Ship it" in
  let above := [u "### Phase 1"] in
  let line := u "2. Document it" in
  let below := [u "3. [X] Ship it"] in
  (split_on 10 content = above ++ line :: below
   ∧ numbered_line line (u "Document it"))
  ∧ ∃ after,
      parseSubtasks content
      = parseSubtasks_lines None above
        ++ {| st_text := trim (u "Document it"); st_completed := false;
              st_phase := most_recent_heading above |} :: after.
Proof.
  intros content above line below.
  assert (Hsplit : split_on 10 content = above ++ line :: below)
    by (vm_compute; reflexivity).
  assert (Hline : numbered_line line (u "Document it")).
  { exists [], (u "2"), [32].
    repeat split; try done; try (by repeat constructor).
    by exists 68, (u "ocument it"). }
  split; [exact (conj Hsplit Hline)|].
  exact (proj1 (subtasks_of_numbered_and_checkbox_lines content above below
                  line Hsplit) (u "Document it") Hline).
Defined.


(** C9, at a file under "planned" under "completed". *)
Lemma status_follows_folder_order_witness :
  let filePath := u "roadmap/completed/planned/x.md" in
  let parts := split_on path_sep filePath in
  ((u "backlog" ∉ parts) ∧ (u "planned" ∈ parts))
  ∧ status (parseFeatureFile export_md filePath) = u "Planned"
  ∧ status (parseFeatureFile export_md (u "roadmap/completed/backlog/x.md"))
    = u "Backlog".
Proof.
  intros filePath parts.
  assert (Hbacklog : u "backlog" ∉ parts) by compute_done.
  assert (Hplanned : u "planned" ∈ parts) by compute_done.
  split; [exact (conj Hbacklog Hplanned)|].
  destruct (status_follows_folder_order export_md filePath)
    as (_ & Hsecond & _ & _ & Hlast).
  exact (conj (Hsecond Hbacklog Hplanned) (Hlast eq_refl)).
Defined.

(** C6, at a file under "planned" and a file under no status
    folder. *)
Lemma status_from_path_witness :
  let planned := split_on path_sep (u "roadmap/planned/x.md") in
  let ideas := split_on path_sep (u "roadmap/ideas/x.md") in
  ((u "planned" ∈ planned) ∧ (u "backlog" ∉ planned)
   ∧ ∀ folder, folder ∈ (fst <$> CONFIG.statusFolders) → folder ∉ ideas)
  ∧ status (parseFeatureFile export_md (u "roadmap/planned/x.md")) = u "Planned"
  ∧ status (parseFeatureFile export_md (u "roadmap/ideas/x.md")) = u "Backlog".
Proof.
  intros planned ideas.
  assert (Hplanned : u "planned" ∈ planned) by compute_done.
  assert (Hbacklog : u "backlog" ∉ planned) by compute_done.
  assert (Hnone : ∀ folder, folder ∈ (fst <$> CONFIG.statusFolders) →
                            folder ∉ ideas).
  { intros folder Hfolder.
    assert (Hall : Forall (λ folder, folder ∉ ideas)
                     (fst <$> CONFIG.statusFolders)) by compute_done.
    by apply (proj1 (Forall_forall _ _) Hall). }
  split; [exact (conj Hplanned (conj Hbacklog Hnone))|].
  exact (conj
           (proj1 (proj2 (status_from_path export_md (u "roadmap/planned/x.md")))
              Hplanned Hbacklog)
           (proj2 (proj2 (status_from_path export_md (u "roadmap/ideas/x.md")))
              Hnone)).
Defined.

End Examples.

(* ===================================================================== *)
(** * Facts about the blocks of a page *)
(* ===================================================================== *)

(** ** The paragraphs of a description *)

Lemma chunks_upto_concat n : ∀ budget s,
  (0 < n)%nat → (length s ≤ budget)%nat → concat (chunks_upto budget n s) = s.
Proof.
  induction budget as [|b IH]; intros s Hn Hlen.
  { destruct s; [done|]. simpl in Hlen. lia. }
  destruct s as [|c s]; [done|].
  cbn [chunks_upto concat]. rewrite IH; [apply take_drop|done|].
  rewrite length_drop. simpl in *. lia.
Qed.

Lemma chunks_upto_sizes n : ∀ budget s,
  (0 < n)%nat →
  Forall (λ c, c ≠ [] ∧ (length c ≤ n)%nat) (chunks_upto budget n s).
Proof.
  induction budget as [|b IH]; intros s Hn; [by constructor|].
  destruct s as [|c s]; [by constructor|].
  cbn [chunks_upto]. constructor; [|by apply IH].
  split.
  - destruct n; [lia|]. done.
  - rewrite length_take. lia.
Qed.

Lemma chunks_upto_full n : ∀ budget s pre c post,
  (0 < n)%nat → (length s ≤ budget)%nat →
  chunks_upto budget n s = pre ++ c :: post → post ≠ [] → length c = n.
Proof.
  induction budget as [|b IH]; intros s pre c post Hn Hlen Heq Hpost.
  { by destruct pre. }
  destruct s as [|x s]; [by destruct pre|].
  cbn [chunks_upto] in Heq.
  destruct pre as [|p pre]; cbn [app] in Heq; injection Heq as Hhead Htail.
  - (* the first piece, with a piece after it *)
    subst c. rewrite length_take. cbn [length].
    destruct (decide (n ≤ S (length s))%nat) as [|Hshort]; [lia|].
    exfalso. apply Hpost.
    rewrite drop_ge in Htail by (simpl; lia).
    by destruct b.
  - eapply (IH (drop n (x :: s))); [done| |done..].
    rewrite length_drop. cbn [length] in *. lia.
Qed.

(** ** The blocks of the subtasks *)

Lemma createSubtaskBlocks_from_tasks subtasks : ∀ currentPhase,
  omap to_do_of (createSubtaskBlocks_from currentPhase subtasks)
  = (λ t, (st_text t, st_completed t)) <$> subtasks.
Proof.
  induction subtasks as [|t ts IH]; intros currentPhase; [done|].
  cbn [createSubtaskBlocks_from].
  destruct (_ && _); simpl; by rewrite IH.
Qed.

Lemma createSubtaskBlocks_from_length subtasks : ∀ currentPhase,
  (length subtasks ≤ length (createSubtaskBlocks_from currentPhase subtasks)
   ≤ 2 * length subtasks)%nat.
Proof.
  induction subtasks as [|t ts IH]; intros currentPhase; [simpl; lia|].
  cbn [createSubtaskBlocks_from].
  destruct (_ && _); simpl.
  - specialize (IH (st_phase t)). lia.
  - specialize (IH currentPhase). lia.
Qed.

(** A heading is the phase of the task right after it, a phase other
    than the one before. *)
Lemma createSubtaskBlocks_from_headings subtasks : ∀ currentPhase pre h post,
  createSubtaskBlocks_from currentPhase subtasks = pre ++ heading_3 h :: post →
  ∃ t post',
    post = to_do (st_text t) (st_completed t) :: post'
    ∧ t ∈ subtasks ∧ st_phase t = Some h ∧ h ≠ [].
Proof.
  induction subtasks as [|t ts IH]; intros currentPhase pre h post Heq.
  { by destruct pre. }
  cbn [createSubtaskBlocks_from] in Heq.
  destruct (truthy_opt (st_phase t)) eqn:Hty; simpl in Heq;
    [case_bool_decide as Hphase; simpl in Heq|].
  - (* the phase is the current one: no heading *)
    destruct pre as [|b pre]; [done|]. injection Heq as _ Heq.
    destruct (IH _ _ _ _ Heq) as (t' & post' & ? & ? & ? & ?).
    exists t', post'. repeat split; try done. by right.
  - (* a new phase *)
    destruct (st_phase t) as [ph|] eqn:Hph; [|done].
    destruct pre as [|b pre]; cbn [app default] in Heq.
    + injection Heq as -> <-.
      exists t, (createSubtaskBlocks_from (Some h) ts).
      repeat split; try done; [by left|]. by destruct h.
    + injection Heq as _ Heq.
      destruct pre as [|b' pre]; [done|]. injection Heq as _ Heq.
      destruct (IH _ _ _ _ Heq) as (t' & post' & ? & ? & ? & ?).
      exists t', post'. repeat split; try done. by right.
  - destruct pre as [|b pre]; [done|]. injection Heq as _ Heq.
    destruct (IH _ _ _ _ Heq) as (t' & post' & ? & ? & ? & ?).
    exists t', post'. repeat split; try done. by right.
Qed.

(** X1. The description of a feature is cut into paragraphs of at
    most 1900 code units without losing or adding any: the pieces put
    end to end are the description, none is empty, and all but the
    last hold exactly 1900 code units. *)
Theorem chunks_cut_without_loss (description : str) :
  let pieces := chunks 1900 description in
  concat pieces = description
  ∧ Forall (λ piece, piece ≠ [] ∧ (length piece ≤ 1900)%nat) pieces
  ∧ (∀ pre piece post,
       pieces = pre ++ piece :: post → post ≠ [] → length piece = 1900%nat).
Proof.
  intros pieces. subst pieces. unfold chunks. split; [|split].
  - apply chunks_upto_concat; lia.
  - apply chunks_upto_sizes. lia.
  - intros pre piece post. apply chunks_upto_full; lia.
Qed.

(** X2. [createSubtaskBlocks] shows every subtask as one to-do block,
    in order, with its text and its completion; besides the to-do
    blocks it only adds phase headings, at most one per task, each
    right before a task of that phase. *)
Theorem createSubtaskBlocks_shows_every_task (subtasks : list Subtask) :
  let blocks := createSubtaskBlocks subtasks in
  omap to_do_of blocks = (λ t, (st_text t, st_completed t)) <$> subtasks
  ∧ (length subtasks ≤ length blocks ≤ 2 * length subtasks)%nat
  ∧ Forall (λ b, is_Some (to_do_of b) ∨ is_Some (heading_3_of b)) blocks
  ∧ (∀ pre h post,
       blocks = pre ++ heading_3 h :: post →
       ∃ t post',
         post = to_do (st_text t) (st_completed t) :: post'
         ∧ t ∈ subtasks ∧ st_phase t = Some h ∧ h ≠ []).
Proof.
  intros blocks. subst blocks. unfold createSubtaskBlocks.
  split; [apply createSubtaskBlocks_from_tasks|].
  split; [apply createSubtaskBlocks_from_length|].
  split; [|apply createSubtaskBlocks_from_headings].
  generalize (@None str). induction subtasks as [|t ts IH]; intros cur.
  { constructor. }
  cbn [createSubtaskBlocks_from]. destruct (_ && _).
  - constructor; [right; by eexists|]. constructor; [left; by eexists|]. apply IH.
  - constructor; [left; by eexists|]. apply IH.
Qed.

(* ===================================================================== *)
(** * More facts about the scan *)
(* ===================================================================== *)

Section ScanContents.
Context `{Platform}.
#[local] Arguments u : simpl never.
#[local] Arguments parseFeatureFile : simpl never.

Lemma elem_of_flat_map {A B} (f : A → list B) (l : list A) (y : B) :
  y ∈ flat_map f l ↔ ∃ x, x ∈ l ∧ y ∈ f x.
Proof.
  rewrite list_elem_of_In, in_flat_map.
  split; intros (x & Hx & Hy); exists x.
  - by rewrite !list_elem_of_In.
  - by rewrite <- !list_elem_of_In.
Qed.

Lemma scanEntry_file dir name content f :
  f ∈ scanEntry dir (File name content)
  ↔ ∃ text, content = Some text ∧ feature_of (path_join dir name) name text f.
Proof.
  unfold feature_of. cbn [scanEntry entry_name].
  destruct (endsWith name (u ".md")) eqn:Hmd;
    [destruct (startsWith name (u "_")) eqn:Hunder|]; cbn [andb negb].
  - rewrite elem_of_nil. split; [done|]. by intros (text & _ & _ & ? & _).
  - destruct content as [text|].
    + destruct (truthy_opt _) eqn:Hty.
      * rewrite list_elem_of_singleton. split.
        -- intros ->. by exists text.
        -- by intros (text' & [= <-] & _ & _ & _ & ->).
      * rewrite elem_of_nil. split; [done|].
        intros (text' & [= <-] & _ & _ & Hty' & _). congruence.
    + rewrite elem_of_nil. split; [done|]. by intros (text & ? & _).
  - rewrite elem_of_nil. split; [done|]. by intros (text & _ & ? & _).
Qed.

Lemma file_at_one dir entries path name content :
  file_at dir entries path name content
  ↔ ∃ e, e ∈ entries ∧ file_at dir [e] path name content.
Proof.
  split.
  - intros Hat. inversion Hat as [? ? ? ? Hin|? ? ? ? ? ? ? Hin Hbelow]; subst.
    + exists (File name content). split; [done|]. constructor. by left.
    + exists (Directory sub (Some below)). split; [done|].
      apply file_below with (sub := sub) (below := below); [by left|done].
  - intros (e & He & Hat).
    inversion Hat as [? ? ? ? Hin|? ? ? ? ? ? ? Hin Hbelow]; subst;
      apply list_elem_of_singleton in Hin as <-.
    + by constructor.
    + by apply file_below with (sub := sub) (below := below).
Qed.

(** What the scan of an entry yields: the feature of the entry when
    it is a file, the features of the files below it when it is a
    directory. *)
Lemma scanEntry_features e : ∀ dir f,
  f ∈ scanEntry dir e
  ↔ ∃ path name text,
      file_at dir [e] path name (Some text) ∧ feature_of path name text f.
Proof.
  induction e as [name content|name|name entries IH|name]
    using Entry_nested_ind; intros dir f.
  - rewrite scanEntry_file. split.
    + intros (text & -> & Hf). exists (path_join dir name), name, text.
      split; [|done]. constructor. by left.
    + intros (path & name' & text & Hat & Hf).
      inversion Hat as [? ? ? ? Hin|? ? ? ? ? ? ? Hin]; subst.
      * apply list_elem_of_singleton in Hin as [= <- <-]. by exists text.
      * by apply list_elem_of_singleton in Hin.
  - cbn [scanEntry]. rewrite elem_of_nil. split; [done|].
    intros (path & name' & text & Hat & _).
    inversion Hat as [? ? ? ? Hin|? ? ? ? ? ? ? Hin]; subst;
      by apply list_elem_of_singleton in Hin.
  - rewrite scanEntry_directory, elem_of_flat_map. split.
    + intros (e & He & Hf).
      rewrite Forall_forall in IH. apply (IH e He) in Hf
        as (path & name' & text & Hat & Hf).
      exists path, name', text. split; [|done].
      apply file_below with (sub := name) (below := entries); [by left|].
      clear Hf. inversion Hat as [? ? ? ? Hin|? ? ? ? ? ? ? Hin Hbelow]; subst.
      * apply list_elem_of_singleton in Hin as <-. by constructor.
      * apply list_elem_of_singleton in Hin as <-.
        by apply file_below with (sub := sub) (below := below).
    + intros (path & name' & text & Hat & Hf).
      inversion Hat as [? ? ? ? Hin|? ? ? ? ? ? ? Hin Hbelow]; subst.
      { by apply list_elem_of_singleton in Hin. }
      apply list_elem_of_singleton in Hin as [= -> ->].
      rewrite Forall_forall in IH.
      apply file_at_one in Hbelow as (e & He & Hat').
      exists e. split; [done|]. apply (IH _ He). by exists path, name', text.
  - cbn [scanEntry]. rewrite elem_of_nil. split; [done|].
    intros (path & name' & text & Hat & _).
    inversion Hat as [? ? ? ? Hin|? ? ? ? ? ? ? Hin]; subst;
      by apply list_elem_of_singleton in Hin.
Qed.

Lemma scanDir_features dir entries f :
  f ∈ scanDir dir (Some entries)
  ↔ ∃ path name text,
      file_at dir entries path name (Some text) ∧ feature_of path name text f.
Proof.
  cbn [scanDir]. rewrite elem_of_flat_map. split.
  - intros (e & He & Hf). apply scanEntry_features in Hf
      as (path & name & text & Hat & Hf).
    exists path, name, text. split; [|done]. apply file_at_one. by exists e.
  - intros (path & name & text & Hat & Hf).
    apply file_at_one in Hat as (e & He & Hat). exists e. split; [done|].
    apply scanEntry_features. by exists path, name, text.
Qed.

Lemma scanRoadmapFeatures_Permutation roadmap :
  scanRoadmapFeatures roadmap ≡ₚ scanDir CONFIG.roadmapDir roadmap.
Proof. apply merge_sort_Permutation. Qed.

(** X3. The features of a scan are those of the files in the tree
    of the roadmap directory that can be read, whose name ends in
    ".md" and does not start with "_", and whose content has a
    title; each is parsed with the path of its file.  A roadmap
    directory that cannot be listed gives no feature. *)
Theorem scanRoadmapFeatures_lists_the_feature_files
    (roadmap : option (list Entry)) (f : Feature) :
  (f ∈ scanRoadmapFeatures roadmap
   ↔ ∃ entries path name text,
       roadmap = Some entries
       ∧ file_at CONFIG.roadmapDir entries path name (Some text)
       ∧ feature_of path name text f)
  ∧ scanRoadmapFeatures None = [].
Proof.
  split; [|done]. rewrite scanRoadmapFeatures_Permutation.
  destruct roadmap as [entries|].
  - rewrite scanDir_features. split.
    + intros (path & name & text & ? & ?). by exists entries, path, name, text.
    + intros (entries' & path & name & text & [= <-] & ? & ?).
      by exists path, name, text.
  - cbn [scanDir]. rewrite elem_of_nil. split; [done|].
    by intros (? & ? & ? & ? & ? & _).
Qed.

(** ** The order of the features *)

Lemma compareFeatures_rank a b :
  feature_le a b → (status_rank a ≤ status_rank b)%Z.
Proof.
  unfold feature_le, compareFeatures, status_rank.
  case_bool_decide; lia.
Qed.

Lemma feature_le_total :
  (∀ a b, (localeCompare a b ≤ 0)%Z ∨ (localeCompare b a ≤ 0)%Z) →
  Total feature_le.
Proof.
  intros Hcollation a b. unfold feature_le, compareFeatures.
  repeat case_bool_decide; try lia. apply Hcollation.
Qed.

Lemma Sorted_weaken {A} (R S : relation A) (l : list A) :
  (∀ a b, R a b → S a b) → Sorted R l → Sorted S l.
Proof.
  intros HRS. induction 1 as [|x l _ IH Hhd]; constructor; [done|].
  destruct Hhd; constructor. by apply HRS.
Qed.

(** X4. The scan returns the features found, each once, ordered by
    the comparator of the sort, provided the collation of file paths
    orders any two of them one way or the other; the features then
    come grouped by status, In Progress first, then Planned, Backlog
    and Completed. *)
Theorem scanRoadmapFeatures_orders_by_status (roadmap : option (list Entry)) :
  (∀ a b, (localeCompare a b ≤ 0)%Z ∨ (localeCompare b a ≤ 0)%Z) →
  let features := scanRoadmapFeatures roadmap in
  features ≡ₚ scanDir CONFIG.roadmapDir roadmap
  ∧ Sorted feature_le features
  ∧ StronglySorted (λ a b, (status_rank a ≤ status_rank b)%Z) features.
Proof.
  intros Hcollation features. subst features.
  split; [apply scanRoadmapFeatures_Permutation|].
  assert (Hsorted : Sorted feature_le (scanRoadmapFeatures roadmap)).
  { unfold scanRoadmapFeatures.
    apply (@Sorted_merge_sort _ feature_le _ (feature_le_total Hcollation)). }
  split; [done|].
  apply Sorted.Sorted_StronglySorted.
  - intros a b c. lia.
  - eapply Sorted_weaken; [|exact Hsorted]. apply compareFeatures_rank.
Qed.

Lemma file_at_below dir entries path name content :
  file_at dir entries path name content → ∃ s, path = dir ++ path_sep :: s.
Proof.
  induction 1 as [dir entries name content _
                 |dir entries sub below path name content _ _ [s ->]].
  - by exists name.
  - exists (sub ++ path_sep :: s). unfold path_join.
    by rewrite <- app_assoc.
Qed.

(** X5. The file paths of the features of a scan all lie below the
    roadmap directory, and in a tree as a file system lists it
    (names that are not empty, hold no separator and occur once in
    their directory) no two features have the same file path: the
    path is a key for the feature. *)
Theorem scanned_paths_are_distinct (roadmap : option (list Entry)) :
  valid_roadmap roadmap →
  let features := scanRoadmapFeatures roadmap in
  NoDup (filePath <$> features)
  ∧ Forall (λ f, ∃ s, filePath f = CONFIG.roadmapDir ++ path_sep :: s) features.
Proof.
  intros Hvalid features. split; [by apply scanRoadmapFeatures_NoDup|].
  apply Forall_forall. intros f Hf. subst features.
  rewrite scanRoadmapFeatures_Permutation in Hf.
  destruct roadmap as [entries|]; [|by apply elem_of_nil in Hf].
  apply scanDir_features in Hf as (path & name & text & Hat & _ & _ & _ & ->).
  cbn [parseFeatureFile filePath]. by eapply file_at_below.
Qed.
End ScanContents.

(* ===================================================================== *)
(** * More facts about requests *)
(* ===================================================================== *)

Section FeaturePages.
Context `{Platform} {W : Type} `{Notion W}.
Variable env : Env.
#[local] Arguments u : simpl never.

Lemma issued_after {A} (m : M W A) (w : World W) (evs : list Event) :
  events (snd (m w)) = events w ++ evs → issued m w = evs.
Proof. unfold issued. intros ->. apply drop_app_length. Qed.

(** Deleting blocks never throws. *)
Lemma delete_blocks_run blocks : ∀ w : World W,
  delete_blocks blocks w
  = (Ok (), {| remote := after_deleting blocks (remote w);
               events := events w ++ deletions blocks (remote w) |}).
Proof.
  induction blocks as [|block rest IH]; intros w.
  { cbn. rewrite app_nil_r. by destruct w. }
  cbn [delete_blocks]. rewrite bind_run.
  unfold try_catch, notion_blocks_delete. rewrite request_run.
  set (w1 := after _ _ w).
  assert ((match
             (match fst (delete_block block (remote w)) with
              | Some a => Ok a
              | None => Thrown
              end, w1)
           with
           | (Ok a, w') => (Ok a, w')
           | (Thrown, w') => (mret () : M W unit) w'
           end) = (Ok (), w1)) as ->.
  { by destruct (fst (delete_block block (remote w))) as [[]|]. }
  rewrite IH. subst w1. unfold after. cbn. by rewrite <- app_assoc.
Qed.

(** X6. A feature the mapping knows, with the hash of its content,
    and whose page answers the probe is not touched: the probe is
    the one request, it changes nothing, and the result is the
    remembered page, unchanged. *)
Theorem unchanged_feature_is_only_probed
    (feature : Feature) (projectPageId : option str) (mapping : Mapping)
    (id : str) (w : World W) :
  featurePageIds mapping !! filePath feature = Some id →
  truthy id = true →
  contentHashes mapping !! filePath feature = Some (hash feature) →
  is_Some (fst (retrieve_page id (remote w))) →
  let sync := syncFeature env feature projectPageId mapping in
  fst (sync w) = Ok (id, unchanged)
  ∧ issued sync w = [{| ev_call := pages_retrieve id; ev_ok := true |}]
  ∧ Forall (λ e, is_mutation (ev_call e) = false) (issued sync w).
Proof.
  intros Hid Hty Hhash Hprobe sync. subst sync.
  destruct (syncFeature_probe env feature projectPageId mapping id w Hid Hty Hhash)
    as [[_ Hrun]|[Hfail _]];
    [|rewrite Hfail in Hprobe; by destruct Hprobe].
  assert (Hissued : issued (syncFeature env feature projectPageId mapping) w
                    = [{| ev_call := pages_retrieve id; ev_ok := true |}]).
  { apply issued_after. rewrite Hrun. cbn.
    by rewrite bool_decide_eq_true_2. }
  rewrite Hissued, Hrun. repeat split. by repeat constructor.
Qed.

(** X7. Whatever the mapping and the workspace, [syncFeature] only
    retrieves, updates the properties of, or creates a page, and
    lists, deletes or appends blocks: it never archives a page and
    never queries a database; and it only adds to the record of
    requests. *)
Theorem syncFeature_never_archives_or_queries
    (feature : Feature) (projectPageId : option str) (mapping : Mapping)
    (w : World W) :
  let sync := syncFeature env feature projectPageId mapping in
  Forall (λ e, feature_request (ev_call e)) (issued sync w)
  ∧ events (snd (sync w)) = events w ++ issued sync w.
Proof.
  intros sync. split.
  - apply emits_issued, emits_syncFeature.
  - apply emits_events. eapply emits_weaken; [|apply emits_syncFeature]. done.
Qed.

(** X8. A feature whose content has changed is written to the page
    the mapping has for it: when the update of the properties, the
    listing of the blocks and the appending of the new blocks
    succeed, the requests are the update, the listing, one deletion
    per listed block and the append, no page is created, and the
    result is the remembered page, updated, also when deletions
    fail. *)
Theorem changed_feature_is_rewritten_in_place
    (feature : Feature) (projectPageId : option str) (mapping : Mapping)
    (id : str) (blocks : list str) (w : World W) (r1 r2 r3 : W) :
  let properties := feature_properties feature projectPageId in
  let children := feature_children feature in
  featurePageIds mapping !! filePath feature = Some id →
  truthy id = true →
  contentHashes mapping !! filePath feature ≠ Some (hash feature) →
  update_page id (set_properties properties) (remote w) = (Some (), r1) →
  list_children id r1 = (Some blocks, r2) →
  append_children id children (after_deleting blocks r2) = (Some (), r3) →
  syncFeature env feature projectPageId mapping w
  = (Ok (id, updated),
     {| remote := r3;
        events :=
          events w
          ++ [ {| ev_call := pages_update id (set_properties properties);
                  ev_ok := true |};
               {| ev_call := blocks_children_list id; ev_ok := true |} ]
          ++ deletions blocks r2
          ++ [ {| ev_call := blocks_children_append id children;
                  ev_ok := true |} ] |}).
Proof.
  intros properties children Hid Hty Hhash Hupdate Hlist Happend.
  rewrite (syncFeature_update env feature projectPageId mapping id w Hid Hty).
  2:{ intros Hprobing. by apply bool_decide_eq_true in Hprobing. }
  rewrite bool_decide_eq_false_2 by done.
  fold properties children.
  assert (Hrun : update_existing id properties children w
                 = (Ok (),
                    {| remote := r3;
                       events :=
                         events w
                         ++ [ {| ev_call := pages_update id (set_properties properties);
                                 ev_ok := true |};
                              {| ev_call := blocks_children_list id; ev_ok := true |} ]
                         ++ deletions blocks r2
                         ++ [ {| ev_call := blocks_children_append id children;
                                 ev_ok := true |} ] |})).
  { unfold update_existing.
    rewrite bind_run. unfold notion_pages_update. rewrite request_run, Hupdate.
    cbn [fst snd].
    rewrite bind_run. unfold notion_blocks_children_list.
    rewrite request_run. unfold after at 1 2. cbn [remote events fst snd].
    rewrite Hlist. cbn [fst snd].
    rewrite bind_run, delete_blocks_run. unfold after. cbn [remote events fst snd].
    rewrite bool_decide_eq_true_2.
    2:{ unfold children, feature_children. rewrite !length_app. simpl. lia. }
    unfold notion_blocks_children_append. rewrite request_run.
    cbn [remote events fst snd]. rewrite ?Hlist. cbn [fst snd].
    rewrite Happend. unfold after. cbn [remote events fst snd].
    rewrite !bool_decide_eq_true_2 by (by eexists).
    by rewrite <- !app_assoc. }
  by rewrite Hrun.
Qed.

(** ** The project page *)

(** A search never throws: the first page found, or none. *)
Lemma findProjectPage_run name (w : World W) :
  let db := NOTION_PROJECTS_DB_ID env in
  let answer := query_database db (name_equals name) (remote w) in
  findProjectPage env name w
  = (Ok (head (default [] (fst answer))),
     after (databases_query db (name_equals name)) answer w).
Proof.
  intros db answer. unfold findProjectPage, try_catch.
  rewrite bind_run. unfold notion_databases_query. rewrite request_run.
  fold db answer. by destruct (fst answer) as [results|].
Qed.

(** The end of [syncProject], once the page is looked up. *)
Lemma syncProject_finish name readme (pageId : option str) (w : World W) :
  let db := NOTION_PROJECTS_DB_ID env in
  let properties := project_properties name in
  (if truthy_opt pageId then
     notion_pages_update (default [] pageId) (set_properties properties);;
     mret (default [] pageId, updated)
   else
     page_id ← notion_pages_create db properties (project_children name readme);
     mret (page_id, created)) w
  = if truthy_opt pageId then
      let answer :=
        update_page (default [] pageId) (set_properties properties) (remote w) in
      (match fst answer with
       | Some _ => Ok (default [] pageId, updated) | None => Thrown end,
       after (pages_update (default [] pageId) (set_properties properties))
         answer w)
    else
      let answer :=
        create_page db properties (project_children name readme) (remote w) in
      (match fst answer with
       | Some id => Ok (id, created) | None => Thrown end,
       after (pages_create db properties (project_children name readme))
         answer w).
Proof.
  intros db properties. destruct (truthy_opt pageId).
  - rewrite bind_run. unfold notion_pages_update. rewrite request_run.
    by destruct (fst (update_page _ _ _)) as [[]|].
  - rewrite bind_run. unfold notion_pages_create. rewrite request_run.
    by destruct (fst (create_page _ _ _ _)).
Qed.

(** X9. [syncProject] looks the project page up before it creates
    one.  A remembered page that answers the probe is updated.
    Otherwise the projects database is queried by name, after the
    failed probe if there was one: a page the query finds is
    updated and becomes the project page, and a page is created only
    when the query fails or finds none. *)
Theorem syncProject_creates_only_when_none_is_found
    (name : str) (readme : option str) (n : nat) (mapping : Mapping)
    (w : World W) :
  let db := NOTION_PROJECTS_DB_ID env in
  let remembered := default [] (projectPageId mapping) in
  let probe := retrieve_page remembered (remote w) in
  let usable := truthy remembered && bool_decide (is_Some (fst probe)) in
  let w0 := if truthy remembered
            then after (pages_retrieve remembered) probe w else w in
  let found :=
    head (default [] (fst (query_database db (name_equals name) (remote w0)))) in
  let rename := set_properties (project_properties name) in
  let sync := syncProject env name readme n mapping in
  ev_call <$> issued sync w
  = (if truthy remembered then [pages_retrieve remembered] else [])
    ++ (if usable then [pages_update remembered rename]
        else [ databases_query db (name_equals name);
               if truthy_opt found
               then pages_update (default [] found) rename
               else pages_create db (project_properties name)
                      (project_children name readme) ])
  ∧ ∀ id action w',
      sync w = (Ok (id, action), w') →
      if usable then id = remembered ∧ action = updated
      else if truthy_opt found then id = default [] found ∧ action = updated
      else action = created.
Proof.
  intros db remembered probe usable w0 found rename sync.
  assert (Hremembered : truthy_opt (projectPageId mapping) = truthy remembered).
  { subst remembered. by destruct (projectPageId mapping). }
  subst sync. unfold syncProject. rewrite Hremembered.
  destruct (truthy remembered) eqn:Hty; cbn [andb] in usable.
  - (* a remembered page: the probe *)
    unfold issued. rewrite bind_run, probe_run. fold remembered probe.
    change (after (pages_retrieve remembered) probe w) with w0.
    destruct (fst probe) as [[]|] eqn:Hprobe.
    + (* it answers *)
      subst usable. rewrite bool_decide_eq_true_2 by (by eexists).
      rewrite Hremembered. cbn [negb]. rewrite bind_run, ret_run.
      rewrite Hremembered.
      pose proof (syncProject_finish name readme (projectPageId mapping) w0) as Hfin.
      cbn zeta in Hfin. rewrite Hremembered in Hfin.
      unfold remembered, rename. rewrite Hfin. clear Hfin. split.
      * cbn [snd]. subst w0. unfold after. cbn [events remote].
        rewrite <- app_assoc, drop_app_length. done.
      * intros id action w'.
        destruct (fst (update_page _ _ _)); [|done]. by intros [= <- <- _].
    + (* it does not: the search *)
      subst usable. rewrite bool_decide_eq_false_2 by (by intros [? ?]).
      cbn [truthy_opt negb]. rewrite bind_run, findProjectPage_run.
      fold db. fold found.
      set (w1 := after _ _ w0).
      pose proof (syncProject_finish name readme found w1) as Hfin.
      cbn zeta in Hfin. unfold db, rename. rewrite Hfin. clear Hfin.
      split.
      * destruct (truthy_opt found); cbn [snd]; subst w1 w0; unfold after;
          cbn [events remote]; by rewrite <- !app_assoc, drop_app_length.
      * intros id action w'. destruct (truthy_opt found).
        -- destruct (fst (update_page _ _ _)); [|done]. by intros [= <- <- _].
        -- destruct (fst (create_page _ _ _ _)); [|done]. by intros [= _ <- _].
  - (* no remembered page: the search *)
    subst usable w0. unfold issued. rewrite bind_run, ret_run.
    rewrite Hremembered. cbn [negb]. rewrite bind_run, findProjectPage_run.
    fold db. fold found.
    set (w1 := after _ _ w).
    pose proof (syncProject_finish name readme found w1) as Hfin.
    cbn zeta in Hfin. unfold db, rename. rewrite Hfin. clear Hfin.
    split.
    + destruct (truthy_opt found); cbn [snd]; subst w1; unfold after;
        cbn [events remote]; by rewrite <- ?app_assoc, drop_app_length.
    + intros id action w'. destruct (truthy_opt found).
      * destruct (fst (update_page _ _ _)); [|done]. by intros [= <- <- _].
      * destruct (fst (create_page _ _ _ _)); [|done]. by intros [= _ <- _].
Qed.
End FeaturePages.

(* ===================================================================== *)
(** * More facts about runs *)
(* ===================================================================== *)

Section RunsMore.
Context `{Platform} {W : Type} `{Notion W}.
Variable env : Env.
#[local] Arguments u : simpl never.

(** ** The cleanup sweep *)

(** The sweep counts the archive requests that succeed. *)
Lemma cleanup_entries_count (currentPaths : gset str) entries :
  ∀ mapping n (w : World W) mapping' n' w',
  cleanup_entries currentPaths entries mapping n w = (Ok (mapping', n'), w') →
  n' = (n + length (filter (λ e, ev_ok e = true)
                      (drop (length (events w)) (events w'))))%nat.
Proof.
  induction entries as [|[filePath pageId] entries IH];
    intros mapping n w mapping' n' w' Hrun.
  { cbn in Hrun. injection Hrun as <- <- <-. rewrite drop_all. simpl. lia. }
  cbn [cleanup_entries] in Hrun.
  destruct (bool_decide (filePath ∉ currentPaths)); [|by eapply IH].
  rewrite bind_run, attempt_run in Hrun.
  unfold notion_pages_update in Hrun. rewrite request_run in Hrun.
  cbn [fst snd] in Hrun.
  set (answer := update_page pageId set_archived (remote w)) in *.
  set (w1 := after _ answer w) in *.
  assert (Hgrows : ∀ m n0 m' n0',
            cleanup_entries currentPaths entries m n0 w1 = (Ok (m', n0'), w') →
            drop (length (events w)) (events w')
            = {| ev_call := pages_update pageId set_archived;
                 ev_ok := bool_decide (is_Some (fst answer)) |}
              :: drop (length (events w1)) (events w')).
  { intros m n0 m' n0' Hrest.
    destruct (cleanup_entries_run currentPaths entries m n0 w1)
      as (m2 & n2 & w2 & Hrest' & _ & _ & _ & _ & evs & He & _).
    rewrite Hrest in Hrest'. injection Hrest' as _ _ <-.
    rewrite He, drop_app_length. subst w1. unfold after. cbn [events].
    by rewrite <- app_assoc, drop_app_length. }
  destruct (fst answer) as [[]|] eqn:Hanswer; cbn in Hrun.
  - rewrite (Hgrows _ _ _ _ Hrun).
    apply IH in Hrun as ->. rewrite filter_cons. cbn [ev_ok].
    rewrite bool_decide_eq_true_2 by (by eexists).
    rewrite decide_True by done. simpl. lia.
  - rewrite (Hgrows _ _ _ _ Hrun).
    apply IH in Hrun as ->. rewrite filter_cons. cbn [ev_ok].
    rewrite bool_decide_eq_false_2 by (by intros [? ?]).
    rewrite decide_False by done. lia.
Qed.

(** X10. The cleanup sweep never throws and only archives pages.
    It leaves the project page id, the time of the last sync and the
    entries of the features of the current scan as they are, keeps
    no page id for any other key, and returns the number of archive
    requests that succeeded. *)
Theorem cleanup_keeps_what_is_current
    (currentFeatures : list Feature) (projectPageId' : option str)
    (mapping : Mapping) (w : World W) :
  let sweep := cleanupDeletedFeatures currentFeatures projectPageId' mapping in
  ∃ mapping' n w',
    sweep w = (Ok (mapping', n), w')
    ∧ projectPageId mapping' = projectPageId mapping
    ∧ lastSync mapping' = lastSync mapping
    ∧ (∀ key, key ∈ filePath <$> currentFeatures →
         featurePageIds mapping' !! key = featurePageIds mapping !! key
         ∧ contentHashes mapping' !! key = contentHashes mapping !! key)
    ∧ (∀ key, is_Some (featurePageIds mapping' !! key) →
         key ∈ filePath <$> currentFeatures)
    ∧ Forall (λ e, ∃ id, ev_call e = pages_update id set_archived)
        (issued sweep w)
    ∧ n = length (filter (λ e, ev_ok e = true) (issued sweep w)).
Proof.
  intros sweep. subst sweep. unfold cleanupDeletedFeatures.
  set (currentPaths := list_to_set (filePath <$> currentFeatures) : gset str).
  destruct (cleanup_entries_run currentPaths
              (map_to_list (featurePageIds mapping)) mapping 0%nat w)
    as (mapping' & n' & w' & Hrun & Hp & Hl & Hf & Hc & evs & He & Hevs).
  exists mapping', n', w'. split; [done|]. split; [done|]. split; [done|].
  assert (Hstale : ∀ key,
            key ∈ fst <$> filter (λ kv : str * str, fst kv ∉ currentPaths)
                            (map_to_list (featurePageIds mapping)) →
            key ∉ filePath <$> currentFeatures).
  { intros key ([k v] & -> & Hkv)%list_elem_of_fmap.
    apply list_elem_of_filter in Hkv as [Hno _]. simpl in *.
    subst currentPaths. by apply not_elem_of_list_to_set in Hno. }
  split; [|split; [|split]].
  - intros key Hkey. rewrite Hf, Hc.
    rewrite !decide_False; [done|..]; intros Hs; by apply Hstale in Hs.
  - intros key. rewrite Hf. case_decide as Hk; [by intros [? ?]|].
    intros [v Hv].
    destruct (decide (key ∈ filePath <$> currentFeatures)) as [|Hno]; [done|].
    exfalso. apply Hk. apply list_elem_of_fmap. exists (key, v). split; [done|].
    apply list_elem_of_filter. split.
    + simpl. subst currentPaths. by apply not_elem_of_list_to_set.
    + by apply elem_of_map_to_list.
  - unfold issued. rewrite Hrun. cbn [snd]. rewrite He, drop_app_length.
    apply Forall_forall. intros e He'.
    assert (Hcall : ev_call e ∈ ev_call <$> evs)
      by (apply list_elem_of_fmap; by exists e).
    rewrite Hevs in Hcall.
    apply list_elem_of_fmap in Hcall as ([k v] & -> & _). by exists v.
  - unfold issued. rewrite Hrun. cbn [snd].
    by rewrite (cleanup_entries_count _ _ _ _ _ _ _ _ Hrun).
Qed.

(** ** The loop over the features *)

(** Each feature of the loop is counted once. *)
Lemma syncFeatures_counts features : ∀ mapping c (w : World W) mapping' c' w',
  syncFeatures env features mapping c w = (Ok (mapping', c'), w') →
  (n_created c' + n_updated c' + n_unchanged c'
   = n_created c + n_updated c + n_unchanged c + length features)%nat.
Proof.
  induction features as [|f fs IH]; intros mapping c w mapping' c' w' Hrun.
  { cbn in Hrun. injection Hrun as <- <- <-. simpl. lia. }
  cbn [syncFeatures] in Hrun. rewrite bind_run in Hrun.
  destruct (syncFeature env f _ mapping w) as [[[id action]|] w1]; [|done].
  apply IH in Hrun. rewrite Hrun. destruct action; simpl; lia.
Qed.

(** ** Runs *)

(** What a completed run went through. *)
Lemma completed_run_steps loc d (w : World W) s d1 w1 :
  syncToNotion env loc d w = Some (completed s, d1, w1) →
  let features := scanRoadmapFeatures (roadmap loc) in
  ∃ m0 pid pa w0 m1 c w1' m2 n,
    configured env
    ∧ mapping_of_json (loadMapping d) = Some m0
    ∧ syncProject env (projectName loc) (readme loc) (length features) m0 w
      = (Ok (pid, pa), w0)
    ∧ syncFeatures env features (set_projectPageId pid m0) no_counts w0
      = (Ok (m1, c), w1')
    ∧ cleanupDeletedFeatures features (projectPageId m1) m1 w1'
      = (Ok (m2, n), w1)
    ∧ saveMapping (set_lastSync (now loc) m2) d = Some d1
    ∧ s = {| counts := c; archived := n; project_action := pa;
             last_sync := now loc |}.
Proof.
  intros Hrun features. unfold syncToNotion in Hrun.
  destruct (truthy_opt (NOTION_TOKEN env)) eqn:Ht; [|done].
  destruct (truthy_opt (NOTION_PROJECTS_DB_ID env)) eqn:Hp; [|done].
  destruct (truthy_opt (NOTION_FEATURES_DB_ID env)) eqn:Hf; [|done].
  cbn [negb] in Hrun.
  destruct (mapping_of_json (loadMapping d)) as [m0|]; [|done]. simpl in Hrun.
  fold features in Hrun.
  destruct (sync_all env loc features m0 w) as [[[[[m3 c] n] pa]|] w3] eqn:Hall;
    [|done].
  destruct (saveMapping (set_lastSync (now loc) m3) d) as [d'|] eqn:Hsave; [|done].
  injection Hrun as <- <- <-.
  unfold sync_all in Hall. rewrite bind_run in Hall.
  destruct (syncProject _ _ _ _ _ _) as [[[pid pa']|] w0] eqn:Hproject; [|done].
  rewrite bind_run in Hall.
  destruct (syncFeatures _ _ _ _ _) as [[[m1 c1]|] w1] eqn:Hloop; [|done].
  rewrite bind_run in Hall.
  destruct (cleanupDeletedFeatures _ _ _ _) as [[[m2 n2]|] w2] eqn:Hsweep; [|done].
  injection Hall as <- <- <- <- <-.
  by exists m0, pid, pa', w0, m1, c1, w1, m2, n2.
Qed.


End RunsMore.

(* ===================================================================== *)
(** * More facts about the parser *)
(* ===================================================================== *)

Section Within.
Variable fl : flags.
#[local] Arguments cls_matches : simpl never.
#[local] Arguments chr_matches : simpl never.
#[local] Arguments is_dot : simpl never.
#[local] Arguments is_line_terminator : simpl never.
#[local] Arguments at_bol : simpl never.
#[local] Arguments at_eol : simpl never.

(** A success of a greedy repetition goes through the continuation,
    on the same input, after characters of the class. *)
Lemma star_within p k : ∀ rest pre cs res,
  star fl p k pre rest cs = Some res →
  ∃ pre' rest',
    k (pre', rest') cs = Some res
    ∧ rev pre' ++ rest' = rev pre ++ rest
    ∧ (pre' = pre ∨ ∃ x t, pre' = x :: t ∧ cls_matches fl p x = true).
Proof.
  induction rest as [|x rest IH]; intros pre cs res; simpl.
  - intros E. exists pre, []. auto.
  - destruct (cls_matches fl p x) eqn:Hx.
    + destruct (star fl p k (x :: pre) rest cs) eqn:E.
      * intros [= <-]. apply IH in E as (pre' & rest' & E & Hin & Hlast).
        exists pre', rest'. split; [done|]. split.
        { rewrite Hin. simpl. by rewrite <- app_assoc. }
        right. destruct Hlast as [->|?]; [by exists x, pre|done].
      * intros E'. exists pre, (x :: rest). auto.
    + intros E. exists pre, (x :: rest). auto.
Qed.

Lemma lazy_star_within p k : ∀ rest pre cs res,
  lazy_star fl p k pre rest cs = Some res →
  ∃ pre' rest',
    k (pre', rest') cs = Some res ∧ rev pre' ++ rest' = rev pre ++ rest.
Proof.
  induction rest as [|x rest IH]; intros pre cs res; simpl.
  - destruct (k (pre, []) cs) eqn:E; [|done]. intros [= <-]. eauto.
  - destruct (k (pre, x :: rest) cs) eqn:E.
    + intros [= <-]. eauto.
    + destruct (cls_matches fl p x); [|done].
      intros E'. apply IH in E' as (pre' & rest' & E' & Hin).
      exists pre', rest'. split; [done|]. rewrite Hin. simpl.
      by rewrite <- app_assoc.
Qed.

(** A success of a pattern goes through the continuation, on the
    same input. *)
Lemma rmatch_within r : ∀ k pre rest cs res,
  rmatch fl r k (pre, rest) cs = Some res →
  ∃ pre' rest' cs',
    k (pre', rest') cs' = Some res ∧ rev pre' ++ rest' = rev pre ++ rest.
Proof.
  induction r as [|c|p|r1 IH1 r2 IH2|r1 IH1 r2 IH2|r1 IH1|p|p|p|n r1 IH1
                  |r1 IH1|r1 IH1| |]; intros k pre rest cs res; simpl.
  - eauto.
  - destruct rest as [|x rest]; [done|].
    destruct (chr_matches fl c x); [|done]. intros E.
    exists (x :: pre), rest, cs. split; [done|]. simpl. by rewrite <- app_assoc.
  - destruct rest as [|x rest]; [done|].
    destruct (cls_matches fl p x); [|done]. intros E.
    exists (x :: pre), rest, cs. split; [done|]. simpl. by rewrite <- app_assoc.
  - intros E. apply IH1 in E as (pre1 & rest1 & cs1 & E & Hin1).
    apply IH2 in E as (pre2 & rest2 & cs2 & E & Hin2).
    exists pre2, rest2, cs2. split; [done|]. congruence.
  - destruct (rmatch fl r1 k (pre, rest) cs) eqn:E.
    + intros [= <-]. by apply IH1 in E.
    + apply IH2.
  - destruct (rmatch fl r1 k (pre, rest) cs) eqn:E.
    + intros [= <-]. by apply IH1 in E.
    + eauto.
  - intros E. apply star_within in E as (pre' & rest' & E & Hin & _). eauto.
  - destruct rest as [|x rest]; [done|]. destruct (cls_matches fl p x); [|done].
    intros E. apply star_within in E as (pre' & rest' & E & Hin & _).
    exists pre', rest', cs. split; [done|]. rewrite Hin. simpl.
    by rewrite <- app_assoc.
  - intros E. apply lazy_star_within in E as (pre' & rest' & E & Hin). eauto.
  - intros E. apply IH1 in E as (pre' & rest' & cs' & E & Hin). eauto.
  - destruct (rmatch fl r1 finish (pre, rest) cs) as [[? ?]|]; [eauto|done].
  - destruct (rmatch fl r1 finish (pre, rest) cs); [done|eauto].
  - destruct (at_bol fl (pre, rest)); [eauto|done].
  - destruct (at_eol fl (pre, rest)); [eauto|done].
Qed.

(** "(.+) $" has no match on an input that ends in a line
    terminator: without the flag m, "$" asks for the end of the
    input, and "." for another character before it. *)
Lemma dotted_end_fails n k pre rest cs :
  multiline fl = false →
  ends_in_terminator (rev pre ++ rest) →
  rmatch fl (Seq (Grp n (Plus is_dot)) Eol) k (pre, rest) cs = None.
Proof.
  intros Hm (body & c & Hinput & Hc).
  destruct (rmatch fl _ k (pre, rest) cs) as [res|] eqn:E; [exfalso|done].
  rewrite rmatch_Seq, rmatch_Grp in E. cbn [rmatch fst snd] in E.
  destruct rest as [|x rest]; [done|].
  destruct (cls_matches fl is_dot x) eqn:Hx; [|done].
  apply star_within in E as (pre' & rest' & E & Hin & Hlast).
  cbn [rmatch] in E. unfold at_eol in E. cbn [snd] in E. rewrite Hm in E.
  destruct rest' as [|y rest']; [|done]. rewrite app_nil_r in Hin.
  assert (Hend : ∃ t, pre' = c :: t).
  { exists (rev body). rewrite <- (rev_involutive pre'), Hin. simpl.
    rewrite <- app_assoc. simpl. rewrite Hinput.
    by rewrite rev_app_distr. }
  destruct Hend as [t ->].
  assert (Hdot : cls_matches fl is_dot c = true).
  { destruct Hlast as [[= -> _]|(x' & t' & [= -> _] & Hx')]; done. }
  rewrite cls_matches_caseless in Hdot by apply is_dot_caseless.
  unfold is_dot in Hdot. by rewrite Hc in Hdot.
Qed.

Lemma ends_dotted_fails r : ∀ k pre rest cs,
  ends_dotted r → multiline fl = false →
  ends_in_terminator (rev pre ++ rest) →
  rmatch fl r k (pre, rest) cs = None.
Proof.
  induction r as [|c|p|r1 _ r2 IH2|r1 _ r2 _|r1 _|p|p|p|n r1 _|r1 _|r1 _| |];
    intros k pre rest cs Hr Hm Hinput; try done.
  destruct Hr as [(n & -> & ->)|Hr]; [by apply dotted_end_fails|].
  rewrite rmatch_Seq.
  destruct (rmatch fl r1 _ (pre, rest) cs) as [res|] eqn:E; [exfalso|done].
  apply rmatch_within in E as (pre' & rest' & cs' & E & Hin).
  rewrite IH2 in E; [done..|]. by rewrite Hin.
Qed.

Lemma search_ends_dotted r : ∀ rest pre,
  ends_dotted r → multiline fl = false →
  ends_in_terminator (rev pre ++ rest) →
  search fl r pre rest = None.
Proof.
  induction rest as [|x rest IH]; intros pre Hr Hm Hinput; cbn [search].
  - by rewrite ends_dotted_fails.
  - rewrite ends_dotted_fails by done. apply IH; [done..|].
    simpl. by rewrite <- app_assoc.
Qed.
End Within.

Lemma parseSubtasks_line_terminated currentPhase line :
  ends_in_terminator line →
  parseSubtasks_line currentPhase line = (currentPhase, []).
Proof.
  intros Hline. unfold parseSubtasks_line, str_match.
  rewrite !search_ends_dotted; try done.
  - unfold numbered_re. cbn. repeat (first [left; by eexists | right]).
  - unfold checkbox_re. cbn. repeat (first [left; by eexists | right]).
  - unfold phase_re. cbn. repeat (first [left; by eexists | right]).
Qed.

Lemma parseSubtasks_line_empty currentPhase :
  parseSubtasks_line currentPhase [] = (currentPhase, []).
Proof. reflexivity. Qed.

(** X13. A line of a Subtasks section that ends in a carriage return,
    as every line of a file with Windows line ends does, is no
    heading, no checkbox task and no numbered task for the parser:
    the three patterns end in "(.+)$", and "." matches no line
    terminator.  A section whose lines are all empty or end so has no
    subtasks. *)
Theorem subtasks_are_lost_with_carriage_returns (content : str) :
  Forall (λ line, line = [] ∨ ends_in_terminator line) (split_on 10 content) →
  parseSubtasks content = []
  ∧ ∀ currentPhase line,
      line ∈ split_on 10 content →
      parseSubtasks_line currentPhase line = (currentPhase, []).
Proof.
  intros Hlines. split.
  - unfold parseSubtasks. generalize (@None str).
    induction Hlines as [|line lines [->|Hline] _ IH]; intros ph; [done|..];
      cbn [parseSubtasks_lines].
    + rewrite parseSubtasks_line_empty. apply IH.
    + rewrite parseSubtasks_line_terminated by done. apply IH.
  - intros ph line Hin. rewrite Forall_forall in Hlines.
    destruct (Hlines line Hin) as [->|Hline].
    + apply parseSubtasks_line_empty.
    + by apply parseSubtasks_line_terminated.
Qed.

(** ** The title of a feature *)

Lemma trim_visible (c : N) (s : str) :
  is_space c = false → ∃ c' s', trim (c :: s) = c' :: s'.
Proof.
  intros Hc. unfold trim. cbn [drop_while]. rewrite Hc.
  assert (Hkept : ∀ t : str, ∃ t', drop_while is_space (t ++ [c]) = t' ++ [c]).
  { induction t as [|x t [t' IH]]; simpl.
    - rewrite Hc. by exists [].
    - destruct (is_space x); [by exists t'|]. by exists (x :: t). }
  destruct (Hkept (rev s)) as [t' Ht']. simpl. rewrite Ht'.
  rewrite rev_app_distr. simpl. eauto.
Qed.

Lemma rmatch_Bol_start fl k (s : str) cs :
  rmatch fl Bol k ([], s) cs = k ([], s) cs.
Proof. reflexivity. Qed.

Lemma rmatch_Eol_terminator fl k pre (rest : str) cs :
  multiline fl = true →
  rest = [] ∨ (∃ c rest', rest = c :: rest' ∧ is_line_terminator c = true) →
  rmatch fl Eol k (pre, rest) cs = k (pre, rest) cs.
Proof.
  intros Hm Hrest. cbn [rmatch]. unfold at_eol. cbn [snd]. rewrite Hm.
  destruct Hrest as [->|(x & rest' & -> & Hx)]; [done|]. by rewrite Hx.
Qed.

Lemma feature_re_heading content text :
  feature_heading content text →
  str_match flag_m feature_re content = Some [(1%nat, text)].
Proof.
  intros (hashes & sp & rest & -> & Hhashes & Hhash & Hsp & Htext
          & (c & text' & -> & Hc) & Hrest).
  destruct hashes as [|h hashes]; [done|].
  eapply str_match_search. cbn [app search].
  unfold feature_re. rewrite rmatch_Seq, rmatch_Bol_start, rmatch_Seq.
  erewrite rmatch_Plus_run; [reflexivity| | |].
  - apply Forall_cls; [by right|]. eapply Forall_impl; [exact Hhash|].
    intros x ->. done.
  - done.
  - rewrite rmatch_Seq, rmatch_Lit, rmatch_Seq, rmatch_Star.
    apply star_run.
    + apply Forall_cls; [by right|done].
    + apply stops_cls; [by right|done].
    + rewrite rmatch_Seq, rmatch_Grp.
      apply rmatch_Plus_run.
      * apply Forall_cls; [by right|done].
      * destruct Hrest as [->|(x & rest' & -> & Hx)]; [done|].
        apply stops_cls; [by right|]. unfold is_dot. by rewrite Hx.
      * rewrite rmatch_Eol_terminator by done. unfold finish. cbn [fst snd].
        by rewrite captured_run.
Qed.

(** X14. A file that starts with "# Feature:" (any number of "#")
    and, after optional white space, a title that begins with a
    visible character gets that title, trimmed, whatever its folder;
    the title is not empty, so the scan keeps the file. *)
Theorem title_of_a_feature_heading `{Platform} (content filePath text : str) :
  feature_heading content text →
  title (parseFeatureFile content filePath) = Some (trim text)
  ∧ truthy_opt (title (parseFeatureFile content filePath)) = true.
Proof.
  intros Hheading.
  assert (Htitle : title (parseFeatureFile content filePath) = Some (trim text)).
  { cbn [parseFeatureFile title]. unfold capture1.
    by rewrite (feature_re_heading content text Hheading). }
  rewrite Htitle. split; [done|].
  destruct Hheading as (_ & _ & _ & _ & _ & _ & _ & _ & (c & text' & -> & Hc) & _).
  by destruct (trim_visible c text' Hc) as (c' & s' & ->).
Qed.

(* ===================================================================== *)
(** * Facts about the sections of a feature file *)
(* ===================================================================== *)

Section Sections.
Variable fl : flags.
Hypothesis plain : ignoreCase fl = false.
#[local] Arguments cls_matches : simpl never.
#[local] Arguments chr_matches : simpl never.
#[local] Arguments at_eol : simpl never.
#[local] Arguments u : simpl never.

Lemma chr_matches_plain c x : chr_matches fl c x = (x =? c).
Proof using plain. unfold chr_matches. by rewrite plain. Qed.

(** A literal matches the text that starts with it, and no other. *)
Lemma rmatch_Lit_miss lit : ∀ k pre s cs,
  ¬ starts_with lit s → rmatch fl (Lit lit) k (pre, s) cs = None.
Proof using plain.
  induction lit as [|c lit IH]; intros k pre s cs Hno.
  { destruct Hno. by exists s. }
  cbn [Lit]. rewrite rmatch_Seq. cbn [rmatch snd fst].
  destruct s as [|x s]; [done|]. rewrite chr_matches_plain.
  destruct (N.eqb_spec x c) as [->|]; [|done].
  apply IH. intros [t ->]. apply Hno. by exists t.
Qed.

Lemma search_hit r pre rest res :
  rmatch fl r finish (pre, rest) [] = Some res →
  search fl r pre rest = Some res.
Proof. intros E. destruct rest; cbn [search]; by rewrite E. Qed.

(** The search passes the positions where the pattern has no match. *)
Lemma search_passes r tail : ∀ head pre,
  (∀ a b, head = a ++ b → b ≠ [] →
     rmatch fl r finish (rev a ++ pre, b ++ tail) [] = None) →
  search fl r pre (head ++ tail) = search fl r (rev head ++ pre) tail.
Proof.
  induction head as [|x head IH]; intros pre Hno; [done|].
  cbn [app search].
  assert (rmatch fl r finish (pre, x :: head ++ tail) [] = None) as ->
    by (by apply (Hno [] (x :: head))).
  rewrite IH.
  - simpl. by rewrite <- app_assoc.
  - intros a b -> Hb. specialize (Hno (x :: a) b eq_refl Hb).
    simpl in Hno. by rewrite <- app_assoc in Hno.
Qed.

(** A greedy repetition gives back its last character when the rest
    of the pattern needs it. *)
Lemma star_gives_back p k x rest cs res : ∀ run pre,
  Forall (λ c, cls_matches fl p c = true) run →
  cls_matches fl p x = true →
  stops (cls_matches fl p) rest →
  k (x :: rev run ++ pre, rest) cs = None →
  k (rev run ++ pre, x :: rest) cs = Some res →
  star fl p k pre (run ++ x :: rest) cs = Some res.
Proof.
  induction run as [|c run IH]; intros pre Hrun Hx Hstop Hfull Hback.
  - cbn [app star]. rewrite Hx.
    assert (star fl p k (x :: pre) rest cs = None) as ->; [|done].
    destruct rest as [|y rest]; cbn [star]; [done|].
    cbn in Hstop. by rewrite Hstop.
  - apply Forall_cons in Hrun as [Hc Hrun].
    cbn [app star]. rewrite Hc.
    rewrite (IH (c :: pre)); [done|done..| |].
    + simpl in Hfull. by rewrite <- app_assoc in Hfull.
    + simpl in Hback. by rewrite <- app_assoc in Hback.
Qed.

(** A lazy repetition of any character stops at the first position
    where the rest of the pattern matches. *)
Lemma lazy_star_first k rest cs res : ∀ run pre,
  (∀ a b, run = a ++ b → b ≠ [] → k (rev a ++ pre, b ++ rest) cs = None) →
  k (rev run ++ pre, rest) cs = Some res →
  lazy_star fl is_any k pre (run ++ rest) cs = Some res.
Proof using plain.
  induction run as [|c run IH]; intros pre Hno Hend.
  - cbn [app rev] in *. destruct rest; cbn [lazy_star]; by rewrite Hend.
  - cbn [app lazy_star].
    assert (k (pre, c :: run ++ rest) cs = None) as ->
      by (by apply (Hno [] (c :: run))).
    assert (cls_matches fl is_any c = true) as ->.
    { unfold cls_matches. by rewrite plain. }
    apply IH.
    + intros a b -> Hb. specialize (Hno (c :: a) b eq_refl Hb).
      simpl in Hno. by rewrite <- app_assoc in Hno.
    + simpl in Hend. by rewrite <- app_assoc in Hend.
Qed.
End Sections.

Section SectionPattern.
#[local] Arguments cls_matches : simpl never.
#[local] Arguments chr_matches : simpl never.
#[local] Arguments at_eol : simpl never.
#[local] Arguments u : simpl never.

(** The look-ahead of the pattern of a section. *)
Lemma section_end_look pre rest cs :
  rmatch no_flags
    (Alt (Lit (10 :: u "## ")) (Alt (Lit (10 :: u "# ")) Eol))
    finish (pre, rest) cs
  = None ↔ ¬ section_end rest.
Proof.
  cbn [rmatch]. split.
  - intros E [->|[[t ->]|[t ->]]].
    + done.
    + by rewrite rmatch_Lit in E.
    + destruct (rmatch no_flags (Lit (10 :: u "## ")) _ _ _); [done|].
      by rewrite rmatch_Lit in E.
  - intros Hno.
    rewrite (rmatch_Lit_miss no_flags eq_refl)
      by (intros Hs; apply Hno; right; by left).
    rewrite (rmatch_Lit_miss no_flags eq_refl)
      by (intros Hs; apply Hno; right; by right).
    unfold at_eol. cbn [snd multiline no_flags andb].
    destruct rest; [|done]. destruct Hno. by left.
Qed.

Lemma section_end_look_hit pre rest cs :
  section_end rest →
  ∃ st,
    rmatch no_flags
      (Alt (Lit (10 :: u "## ")) (Alt (Lit (10 :: u "# ")) Eol))
      finish (pre, rest) cs
    = Some (st, cs).
Proof.
  cbn [rmatch]. intros [->|[[t ->]|[t ->]]].
  - rewrite !(rmatch_Lit_miss no_flags eq_refl) by (by intros [t Ht]).
    by eexists.
  - rewrite rmatch_Lit. by eexists.
  - rewrite (rmatch_Lit_miss no_flags eq_refl) by (by intros [t' Ht']).
    rewrite rmatch_Lit. by eexists.
Qed.

Lemma rmatch_Look fl r k st cs :
  rmatch fl (Look r) k st cs
  = match rmatch fl r finish st cs with
    | Some (_, cs') => k st cs'
    | None => None
    end.
Proof. reflexivity. Qed.

Lemma rmatch_LazyStar fl p k pre rest cs :
  rmatch fl (LazyStar p) k (pre, rest) cs = lazy_star fl p k pre rest cs.
Proof. reflexivity. Qed.

Lemma visible_not_line_feed c : is_space c = false → c ≠ 10.
Proof. by intros Hc ->. Qed.

(** The pattern of a section finds the body of the section. *)
Lemma section_re_body name content body :
  section_body name content body →
  str_match no_flags (section_re name) content = Some [(1%nat, body)].
Proof.
  intros (head & ws & rest & -> & Hfirst & Hws & (c & body' & -> & Hc)
          & Hinside & Hend).
  eapply str_match_search. unfold section_re.
  rewrite (search_passes no_flags).
  2:{ intros a b -> Hb. rewrite rmatch_Seq.
      apply (rmatch_Lit_miss no_flags eq_refl). by apply (Hfirst a b). }
  apply search_hit.
  rewrite rmatch_Seq, rmatch_Lit, rmatch_Seq, rmatch_Star.
  apply star_gives_back.
  - apply Forall_cls; [by right|done].
  - done.
  - apply stops_cls; [by right|done].
  - (* after all the white space there is no line feed left *)
    rewrite rmatch_Seq. apply rmatch_Chr_miss. cbn [app stops].
    rewrite (chr_matches_plain no_flags eq_refl).
    apply N.eqb_neq. by apply visible_not_line_feed.
  - (* the last line feed starts the body *)
    rewrite rmatch_Seq, rmatch_Chr_hit by done.
    rewrite rmatch_Seq, rmatch_Grp, rmatch_LazyStar.
    apply (lazy_star_first no_flags eq_refl).
    + intros a b Hsplit Hb. cbv beta. rewrite rmatch_Look.
      assert (Hno : ¬ section_end (b ++ rest)) by (by apply (Hinside a b)).
      by rewrite (proj2 (section_end_look _ _ _) Hno).
    + cbv beta. rewrite rmatch_Look. cbn [fst snd].
      rewrite captured_run.
      edestruct section_end_look_hit as [st Hlook]; [exact Hend|].
      rewrite Hlook. reflexivity.
Qed.
End SectionPattern.

(** X15. [parseFeatureFile] takes the description and the subtasks
    of a file from its sections: the text after the first
    "## Description", respectively "## Subtasks", and the white space
    behind it, up to the next line that starts with "## " or "# " or
    to the end of the file.  The description is that text, trimmed;
    the subtasks are those [parseSubtasks] reads in it. *)
Theorem sections_of_a_feature_file `{Platform} (content filePath body : str) :
  (section_body (u "Description") content body →
   description (parseFeatureFile content filePath) = Some (trim body))
  ∧ (section_body (u "Subtasks") content body →
     subtasks (parseFeatureFile content filePath) = parseSubtasks body).
Proof.
  split; intros Hbody; cbn [parseFeatureFile description subtasks].
  - unfold capture1, description_re. by rewrite (section_re_body _ _ _ Hbody).
  - unfold subtasks_re. by rewrite (section_re_body _ _ _ Hbody).
Qed.

(* ===================================================================== *)
(** * More of the examples at work *)
(* ===================================================================== *)

Section MoreExamples.
Import Example.

Lemma code_unit_compare_total (a : str) : ∀ b : str,
  (code_unit_compare a b ≤ 0)%Z ∨ (code_unit_compare b a ≤ 0)%Z.
Proof.
  induction a as [|x a IH]; intros [|y b]; simpl; try (by left); try (by right).
  destruct (N.ltb_spec x y); [by left|].
  destruct (N.ltb_spec y x); [by right|]. apply IH.
Qed.

(** X4, at the project of two features. *)
Lemma scanRoadmapFeatures_orders_by_status_witness :
  let features := scanRoadmapFeatures two_features in
  (∀ a b, (localeCompare a b ≤ 0)%Z ∨ (localeCompare b a ≤ 0)%Z)
  ∧ features ≡ₚ scanDir CONFIG.roadmapDir two_features
  ∧ Sorted feature_le features
  ∧ StronglySorted (λ a b, (status_rank a ≤ status_rank b)%Z) features.
Proof.
  intros features.
  exact (conj code_unit_compare_total
           (scanRoadmapFeatures_orders_by_status two_features
              code_unit_compare_total)).
Defined.

(** X5, at the project of two features. *)
Lemma scanned_paths_are_distinct_witness :
  let features := scanRoadmapFeatures two_features in
  valid_roadmap two_features
  ∧ NoDup (filePath <$> features)
  ∧ Forall (λ f, ∃ s, filePath f = CONFIG.roadmapDir ++ path_sep :: s) features.
Proof.
  intros features.
  exact (conj two_features_valid
           (scanned_paths_are_distinct two_features two_features_valid)).
Defined.

(** X6, at the feature "Export" and a sync state that knows it. *)
Lemma unchanged_feature_is_only_probed_witness :
  let key := filePath export_feature in
  let sync := syncFeature env export_feature (Some (u "page-demo")) knows_export in
  (featurePageIds knows_export !! key = Some (u "page-old")
   ∧ truthy (u "page-old") = true
   ∧ contentHashes knows_export !! key = Some (hash export_feature)
   ∧ is_Some (fst (retrieve_page (u "page-old") (remote (workspace 0)))))
  ∧ fst (sync (workspace 0)) = Ok (u "page-old", unchanged)
  ∧ issued sync (workspace 0)
    = [{| ev_call := pages_retrieve (u "page-old"); ev_ok := true |}]
  ∧ Forall (λ e, is_mutation (ev_call e) = false) (issued sync (workspace 0)).
Proof.
  intros key sync.
  assert (Hid : featurePageIds knows_export !! key = Some (u "page-old"))
    by (vm_compute; reflexivity).
  assert (Hhash : contentHashes knows_export !! key = Some (hash export_feature))
    by (vm_compute; reflexivity).
  assert (Hprobe : is_Some (fst (retrieve_page (u "page-old")
                                   (remote (workspace 0)))))
    by (vm_compute; by eexists).
  exact (conj (conj Hid (conj eq_refl (conj Hhash Hprobe)))
           (unchanged_feature_is_only_probed env export_feature
              (Some (u "page-demo")) knows_export (u "page-old") (workspace 0)
              Hid eq_refl Hhash Hprobe)).
Defined.

(** X8, at the feature "Export" and a sync state that knows an
    older content of it. *)
Lemma changed_feature_is_rewritten_in_place_witness :
  let key := filePath export_feature in
  let id := u "page-old" in
  let properties := feature_properties export_feature (Some (u "page-demo")) in
  let children := feature_children export_feature in
  let w := workspace 0 in
  let r1 := snd (update_page id (set_properties properties) (remote w)) in
  let r2 := snd (list_children id r1) in
  let r3 := snd (append_children id children (after_deleting [] r2)) in
  (featurePageIds knows_older_export !! key = Some id
   ∧ truthy id = true
   ∧ contentHashes knows_older_export !! key ≠ Some (hash export_feature)
   ∧ update_page id (set_properties properties) (remote w) = (Some (), r1)
   ∧ list_children id r1 = (Some [], r2)
   ∧ append_children id children (after_deleting [] r2) = (Some (), r3))
  ∧ syncFeature env export_feature (Some (u "page-demo")) knows_older_export w
    = (Ok (id, updated),
       {| remote := r3;
          events :=
            events w
            ++ [ {| ev_call := pages_update id (set_properties properties);
                    ev_ok := true |};
                 {| ev_call := blocks_children_list id; ev_ok := true |} ]
            ++ deletions [] r2
            ++ [ {| ev_call := blocks_children_append id children;
                    ev_ok := true |} ] |}).
Proof.
  intros key id properties children w r1 r2 r3.
  assert (Hid : featurePageIds knows_older_export !! key = Some id)
    by (vm_compute; reflexivity).
  assert (Hhash : contentHashes knows_older_export !! key
                  ≠ Some (hash export_feature))
    by (vm_compute; congruence).
  assert (Hupdate : update_page id (set_properties properties) (remote w)
                    = (Some (), r1)) by (vm_compute; reflexivity).
  assert (Hlist : list_children id r1 = (Some [], r2))
    by (vm_compute; reflexivity).
  assert (Happend : append_children id children (after_deleting [] r2)
                    = (Some (), r3)) by (vm_compute; reflexivity).
  exact (conj (conj Hid (conj eq_refl (conj Hhash
                 (conj Hupdate (conj Hlist Happend)))))
           (changed_feature_is_rewritten_in_place env export_feature
              (Some (u "page-demo")) knows_older_export id [] w r1 r2 r3
              Hid eq_refl Hhash Hupdate Hlist Happend)).
Defined.



(** X13, at a section with Windows line ends. *)
Lemma subtasks_are_lost_with_carriage_returns_witness :
  Forall (λ line, line = [] ∨ ends_in_terminator line)
    (split_on 10 crlf_section)
  ∧ parseSubtasks crlf_section = []
  ∧ ∀ currentPhase line,
      line ∈ split_on 10 crlf_section →
      parseSubtasks_line currentPhase line = (currentPhase, []).
Proof.
  assert (Hlines : Forall (λ line, line = [] ∨ ends_in_terminator line)
                     (split_on 10 crlf_section)).
  { change (split_on 10 crlf_section)
      with [u "### Phase 1" ++ [13]; u "1. [x] Write the exporter" ++ [13]; []].
    apply Forall_cons_2; [right; by exists (u "### Phase 1"), 13|].
    apply Forall_cons_2; [right; by exists (u "1. [x] Write the exporter"), 13|].
    apply Forall_cons_2; [by left|]. apply Forall_nil_2. }
  exact (conj Hlines (subtasks_are_lost_with_carriage_returns crlf_section Hlines)).
Defined.

(** X14, at the file of the feature "Export". *)
Lemma title_of_a_feature_heading_witness :
  feature_heading export_md (u "Export")
  ∧ title (parseFeatureFile export_md (u "roadmap/backlog/001.md"))
    = Some (trim (u "Export"))
  ∧ truthy_opt (title (parseFeatureFile export_md (u "roadmap/backlog/001.md")))
    = true.
Proof.
  assert (Hheading : feature_heading export_md (u "Export")).
  { exists (u "#"), (u " "),
      (drop (length (u "# Feature: Export")) export_md).
    repeat split; try done; try (by repeat constructor).
    - by exists 69, (u "xport").
    - right. by eexists _, _. }
  exact (conj Hheading
           (title_of_a_feature_heading export_md (u "roadmap/backlog/001.md")
              (u "Export") Hheading)).
Defined.

(** X15, at a file of two sections. *)
Lemma sections_of_a_feature_file_witness :
  section_body (u "Subtasks") sections_md (u "1. Go")
  ∧ subtasks (parseFeatureFile sections_md (u "roadmap/x.md"))
    = parseSubtasks (u "1. Go").
Proof.
  assert (Hbody : section_body (u "Subtasks") sections_md (u "1. Go")).
  { exists (u "## Description" ++ [10] ++ u "Dump." ++ [10]), [], [].
    split; [reflexivity|]. split; [|split; [constructor|split; [|split]]].
    - intros a b Hsplit Hb [t Ht].
      match type of Hsplit with
      | ?l = _ => let l' := eval vm_compute in l in change l with l' in Hsplit
      end.
      repeat (destruct a as [|? a];
              [ cbn [app] in Hsplit; subst b; by vm_compute in Ht
              | cbn [app] in Hsplit; injection Hsplit as _ Hsplit ]).
      destruct a; [|done]. cbn [app] in Hsplit. by subst b.
    - by exists 49, (u ". Go").
    - intros a b Hsplit Hb Hend. rewrite app_nil_r in Hend.
      match type of Hsplit with
      | ?l = _ => let l' := eval vm_compute in l in change l with l' in Hsplit
      end.
      repeat (destruct a as [|? a];
              [ cbn [app] in Hsplit; subst b;
                destruct Hend as [?|[[t Ht]|[t Ht]]];
                [done|by vm_compute in Ht..]
              | cbn [app] in Hsplit; injection Hsplit as _ Hsplit ]).
      destruct a; [|done]. cbn [app] in Hsplit. by subst b.
    - by left. }
  exact (conj Hbody
           (proj2 (sections_of_a_feature_file sections_md (u "roadmap/x.md")
                     (u "1. Go")) Hbody)).
Defined.
End MoreExamples.
